(* ===== verification/_CoqProject ===== *)
-Q . S2P
Prelude.v
Order.v
Spec.v
Node.v
Shape.v
Lookup.v
Split.v
Insert.v
Layout.v
Iter.v
Free.v
Height.v
Build.v
Print.v
IntBtree.v
Generate.v
Make.v
Scenario.v
