(* ===== verification/Prelude.v ===== *)
(** * A verification development for make-me-a-btree

    The program is a C B-tree generated by macro substitution from
    [src/mk_bt.h]; [src/unnamed/part_000] and [src/btree.h] are the
    expansion of that header for the default configuration
    ([BT_ELEM = int], [BT_FACTOR = 2], [BT_ITER_STACK_SIZE = 32], an
    empty [BT_ELEM_FREE]). The development models the macro-generic
    algorithm of [src/mk_bt.h] once, parameterised by the configuration,
    models the generated [int] code of [part_000] separately, and proves
    the two equal.

    ** The program and its parts

    A tree [struct bt] holds a root pointer and a [size]. A node
    [struct bnode] holds a key count [n], [2F + 1] key slots and [2F + 2]
    child slots ([F = BT_FACTOR]); the extra slot lets a node overflow by
    one key before it is split. [bt_lookup]/[bt_lookup_node] descend from
    the root with the binary search [bt_node_bsearch]; [bt_insert] runs
    the recursive [bt_node_insert], which inserts at a leaf, splits an
    overflowing child with [bt_split_node] on the way back up and
    inserts the median, and grows a new root when the root overflowed;
    [bt_iter_dfs_mk]/[bt_iter_dfs_next] walk the tree in order with an
    explicit stack of frames; [bt_free]/[bt_node_free] destroy it, handing
    each element to [BT_ELEM_FREE]; [bt_print] dumps it to standard
    output. A client builds a tree with [bt_mk] and [bt_insert] and reads
    it with [bt_lookup] or the iterator.

    ** Files

    - [Prelude.v] (this file): the fault-and-log monad [M] in which the
      C code runs (faults for out-of-bounds accesses, [NULL]
      dereferences and failed asserts; a log of events: the
      [BT_ELEM_FREE] calls, or the strings [printf] writes), its erasure
      [unlogged] (the behaviour when [BT_ELEM_FREE] expands to nothing),
      fixed-capacity arrays ([arr_get], [arr_set], [memmove] as
      [arr_shift_right], [memcpy] as [arr_copy]), [size_t] subtraction
      and [uint32_t] increment with their wrap-around, the hint databases
      and tactics, and the list lemmas the components share.
    - [Order.v]: the configuration ([BT_FACTOR], [BT_ITER_STACK_SIZE]) and
      the element interface ([BT_CMP], the zero element of [calloc]) as
      type classes with their laws; [bt_default_cmp] (the [int]
      comparison) and [bt_default_cmp_less] (the comparison derived from
      [BT_LESS]) as instances.
    - [Spec.v]: the abstract specification: a strictly sorted list with
      [spec_insert] (insert or replace), [spec_lookup], and [spec_build]
      (a sequence of insertions).
    - [Node.v]: [struct bnode] and [struct bt] as records, [bt_mk],
      [bt_node_bsearch] as a fuelled loop, and the in-order sequence
      [inorder] of a node ([weave] of its children's sequences and keys).
    - [Shape.v]: the invariant: [shape lo hi h b] (key counts, all leaves
      at depth [h], child slots) and sortedness of [inorder], [bt_wf] for
      trees, and executable checks [shapeb]/[bt_wfb] with soundness.
    - [Lookup.v]: [bt_lookup_node], [bt_lookup].
    - [Split.v]: [bt_split_node].
    - [Insert.v]: [bt_node_insert] (with [node_insert_at], lines
      334-341), [grow_root] and [bt_insert] (lines 346-358).
    - [Layout.v]: the type invariant [layout]: every reachable node has
      the array capacities of [struct bnode].
    - [Iter.v]: [bt_iter_frame], [bt_iter_dfs], [bt_iter_dfs_mk] and
      [bt_iter_dfs_next] as a fuelled loop.
    - [Free.v]: [bt_node_free] and [bt_free].
    - [Height.v]: the minimum occupancy of a tree of a given height and
      what it implies for the iterator's stack.
    - [Build.v]: the client that inserts a sequence into [bt_mk]
      ([insert_seq], [build]) and reads the tree back.
    - [Print.v]: [bt_print], with [INDENT] and its loops, the log of
      [M string] being what the [printf] calls write.
    - [IntBtree.v]: the generated [int] code of [part_000] (every
      function, named [int_...] as [BT_MKID(name) = int_##name] would
      name it) and the [struct bnode] layout of [btree.h], with the
      equivalence of each function to the generic model.
    - [Generate.v]: the preprocessor layer of [mk_bt.h]: a macro table
      ([gmap string macro]), the expansion of tokens, the header's
      directives block by block ([guarded], [includes], [defaults],
      [declarations], [implementation], [epilogue], composed in
      [mk_bt_h]).
    - [Make.v]: the two Makefiles at the end of [src/mk_bt.h] (lines
      535-570): the preprocessor call with [DEFINES] and [-DBT_GENERATE]
      ([-DBT_DECL_ONLY]), the three [sed] stages ([sed_hash],
      [sed_bang], [sed_squeeze]) and the formatter [cat], the rules and
      [make]/[make all] (no rule for a target is an error), and the
      generated files [btree.h] and [part_000] as token lines.
    - [Scenario.v]: runs of the [int] instantiation: the scenario of the
      specification, the behaviours of the findings, the dump, and the
      witnesses of the theorems.

    ** How the model corresponds to the code

    Nodes are values: a function that mutates a node through a pointer
    returns the updated node, and its caller writes it back where the C
    code's pointer points (for [bt_node_insert], the child slot it read).
    Arrays are lists of their capacity's length, read and written by
    index with a fault outside it; the stale contents of slots past [n]
    are kept, as the C code keeps them. Every C loop is either a
    structural recursion or a loop with fuel; recursion into a child goes
    through [with_child] (or a walk down the child array), so that it is
    structural. The out-parameter [prev] of [bt_insert] is a boolean (is
    it [NULL]) and the value written to it; the out-parameter [node] of
    [bt_lookup_node] is the last node written to it.

    ** The theorems

    Every claim is stated for all inputs: all trees, sequences, macro
    tables or output streams its hypotheses admit. Runs on fixed inputs
    (the scenario of the specification, its dump, a key-value run, the
    [make] of the repository's configuration) are kept in [Scenario.v]
    and [Make.v] as examples and as witnesses.

    - Refinement: [bt_insert_spec] (C1) and [bt_lookup_spec] (C2): on a
      well-formed tree, insertion keeps the tree well formed and acts on
      its in-order sequence as [spec_insert], reporting, handing back or
      freeing the replaced element exactly as the code promises; lookup
      finds what [spec_lookup] finds. [bt_insert_lookup] (C10) combines
      them; [bt_empty_boundary] (C11) covers the empty tree;
      [bt_insert_idempotent] (C17) shows that re-inserting an element
      returns the very same tree; [bt_lookup_node_last] (C32) describes
      the node reported through the out-parameter.
    - Iteration: [bt_iter_spec] (C3), [bt_iter_dfs_next_spec] (C7) and
      [bt_iter_exhausted] (C8): on a tree lower than the stack the
      iterator yields exactly the in-order sequence, then [NULL] forever.
      They rest on an invariant of the frame stack ([iter_wf]) and on the
      sequence still to produce ([rem]). [build_height_bound] (C18): the
      trees built by insertions have a height logarithmic in their size,
      so [bt_iter_safe] (C19) needs only a bound on the number of
      elements.
    - Components: [bt_split_correct] (C4); [bsearch_lsearch] (C5), the
      binary search equals a linear scan; [bsearch_terminates] (C6) and
      [bsearch_iterations] (C31), at most [floor(log2 n) + 1]
      iterations; [bt_free_spec] (C9), every element freed exactly once;
      [bt_print_spec] (C28), the dump lists the nodes in preorder;
      [insert_seq_layout] (C30), every run of insertions returns and
      keeps the C layout of every reachable node.
    - Clients: [build_iter_roundtrip] (C20), iterating the tree built
      from a sequence gives the sequence sorted and without duplicates;
      [build_lookup_last] (C21), a lookup finds the last inserted equal
      element; [build_no_leak] (C34), the tree stays well formed and every
      inserted element is either stored or freed, exactly once.
    - Configuration: [less_cmp_ok] (C33), the comparison derived from
      [BT_LESS] meets the interface for a strict weak order and orders
      as [BT_LESS] does.
    - The generated code: [int_bt_insert_equiv] (C22),
      [int_bt_lookup_equiv] (C23), [int_iter_equiv] (C24) and
      [int_bt_free_spec] (C25) show each function of [part_000] equal to
      the generic model at the default configuration with the log
      erased; [int_bt_insert_spec] (C26), [int_bt_lookup_spec] (C27) and
      [int_bt_print_spec] (C29) state the refinement and the dump for it.
    - Code generation: [make_pipeline] (C16), the [sed] stages keep every
      line of the preprocessor's output but its line markers, in order
      and with the protecting [!] removed, and remove blank lines in
      pairs; [mk_bt_h_macros] (C35), which macros the epilogue undefines
      and which leak; [mk_bt_h_reinclude] (C36), a second inclusion
      generates nothing. [generated_int_instance] (in [Make.v]) runs
      [make] on the repository's configuration and finds the types and
      prototypes of [btree.h] and the prologue of [part_000], under a
      guard that has lost its name.
    - Findings: [bt_iter_overflow] (C12), [bt_insert_size] (C13),
      [bsearch_empty] (C14), [split_left_stale] (C15).

    ** Fuel and bounds

    [bt_node_bsearch] runs its loop with fuel [n + 1]: each iteration
    shrinks [right - left], which starts at [n] ([bsearch_terminates]);
    [floor(log2 n) + 1] would do ([bsearch_iterations]).
    [bt_iter_dfs_next] runs with fuel [4 * BT_ITER_STACK_SIZE + 5]:
    [iter_measure] is below it on every well-formed state and decreases
    at every iteration that does not return. The fuel of [iter_collect]
    (the number of elements a client loop collects) is the length of the
    sequence. The iterator needs a tree of height below
    [BT_ITER_STACK_SIZE]; a tree of height [h] has at least
    [2 (F + 1)^h - 1] elements, so fewer elements than
    [2 (F + 1)^BT_ITER_STACK_SIZE - 1] suffice (about [3.7e15] for the
    default configuration). [bt_print]'s [depth] is kept as a [Z] without
    wrap-around: it grows by one per level. Macro expansion runs with
    fuel [EXPAND_FUEL = 8]: the header's macros nest three deep
    ([BT_MKFN] calls [BT_MKID], [BT_CMP] expands to a call of it), and
    [generated_int_instance] shows the expansion complete on the
    configurations of [make].

    ** Not modelled

    [bt_remove] is declared and never defined. The algorithm is modelled
    once, with the substituted parameters as type-class instances; the
    preprocessor layer is modelled separately ([Generate.v]) down to the
    signatures of the definitions and the comparators' bodies, the other
    bodies being the operations of the other files; the Makefile is
    modelled on lines of tokens ([Make.v]). Token pasting ([##]: a
    user's [BT_MKID] is a function on tokens), where the preprocessor
    puts its line markers and blank lines (the Makefile theorem holds
    for any placement), the spacing of the output and a formatter other
    than [cat] are not modelled; the generated [int] instance of the repository is modelled
    as written. Allocation failure of [calloc] is not modelled
    (the code does not check it). The memory released by [free] is not
    tracked. Nodes are values, so a pointer handed out by [bt_lookup] or
    held by an iterator frame is a snapshot of the node: the aliasing
    between such pointers and the tree, which makes an insertion during
    an iteration unsafe (specification, section 5), is outside the
    model, and no theorem interleaves iteration with insertion. *)

From Stdlib Require Import ZArith.
From stdpp Require Export base list sorting numbers sets.
From Stdlib Require Export Lia.

(** ** Notations

    The development's own notations live in [bt_scope]. *)

Declare Scope bt_scope.
Delimit Scope bt_scope with bt.
Open Scope bt_scope.

(** ** Faults

    The C code has no error values: the behaviours that the C standard
    leaves undefined (an array access outside the declared capacity, a
    dereference of [NULL]) and a failed [assert] are modelled as faults
    that abort the computation. [OutOfFuel] is not a C behaviour: it is
    the value of a fuel-bounded loop whose fuel ran out, and the
    termination theorems of the loops show that it never occurs with the
    fuel the model supplies. *)

Inductive fault : Type :=
  | OutOfBounds
  | NullDeref
  | AssertFailure
  | OutOfFuel.

(** ** The monad of the model

    A computation either faults, or returns a value together with the
    log of the events it emitted, in order. The only logged event of the
    program is the element destruction hook [BT_ELEM_FREE]. *)

Definition M (L A : Type) : Type := (fault + (A * list L))%type.

#[export] Instance M_ret {L} : MRet (M L) := fun A a => inr (a, []).

#[export] Instance M_bind {L} : MBind (M L) := fun A B f m =>
  match m with
  | inl e => inl e
  | inr (a, w) =>
      match f a with
      | inl e => inl e
      | inr (b, w') => inr (b, w ++ w')
      end
  end.

Definition raise {L A} (e : fault) : M L A := inl e.

Definition emit {L} (x : L) : M L unit := inr (tt, [x]).

(** [m ⇓ (a, w)]: the computation [m] returns [a] having logged [w]. *)
Notation "m ⇓ aw" := (m = inr aw) (at level 70) : bt_scope.

(** ** C arrays

    A fixed-capacity C array is a list whose length is the declared
    capacity. Reads and writes outside the capacity fault. *)

Section Arrays.
  Context {L X : Type}.

  (** [a[i]] *)
Definition arr_get (a : list X) (i : nat) : M L X :=
    match a !! i with
    | Some x => mret x
    | None => raise OutOfBounds
    end.

  (** [a[i] = x] *)
Definition arr_set (a : list X) (i : nat) (x : X) : M L (list X) :=
    if decide (i < length a) then mret (<[i:=x]> a) else raise OutOfBounds.

  (** The array after [memmove(a + i + 1, a + i, k * sizeof *a)]: the
      [k] slots from [i] move one slot right, slot [i] keeps its value. *)
Definition shift_right (a : list X) (i k : nat) : list X :=
    take (S i) a ++ take k (drop i a) ++ drop (S i + k) a.

  (** [memmove(a + i + 1, a + i, len * sizeof *a)], where [len] is a
      [size_t] computed by the caller (hence a [Z]); both the source and
      the destination ranges must lie inside the capacity. *)
Definition arr_shift_right (a : list X) (i : nat) (len : Z) : M L (list X) :=
    if decide (0 <= len /\ Z.of_nat i + len + 1 <= Z.of_nat (length a))%Z
    then mret (shift_right a i (Z.to_nat len))
    else raise OutOfBounds.

  (** [memcpy(dst, src + off, len * sizeof *src)] *)
Definition arr_copy (dst src : list X) (off len : nat) : M L (list X) :=
    if decide (off + len <= length src /\ len <= length dst)
    then mret (take len (drop off src) ++ drop len dst)
    else raise OutOfBounds.
End Arrays.

(** ** Machine integers

    [size_t] subtraction wraps modulo [2^64]; the [uint32_t] key count of
    a node wraps modulo [2^32] when incremented. *)

Definition size_t_sub (a b : nat) : Z := ((Z.of_nat a - Z.of_nat b) mod 2 ^ 64)%Z.

Definition u32_incr (a : nat) : nat := Z.to_nat ((Z.of_nat a + 1) mod 2 ^ 32)%Z.

(** ** List insertion at an index (the abstract effect of "shift right,
    then write the hole") *)

Definition ins_at {X} (i : nat) (x : X) (l : list X) : list X :=
  take i l ++ x :: drop i l.

(** ** Automation *)

Create HintDb bt discriminated.
Create Rewrite HintDb bt_simpl.

Ltac invc H := inversion H; subst; clear H.


(** ** Lemmas on the monad *)

Section MonadLemmas.
  Context {L A B : Type}.

Lemma bind_ret (a : A) (f : A -> M L B) : (mret a ≫= f) = f a.
  Proof. cbn. by destruct (f a) as [|[b w]]. Qed.

Lemma bind_ok (m : M L A) (f : A -> M L B) a w :
    m ⇓ (a, w) -> (m ≫= f) = match f a with
                               | inl e => inl e
                               | inr (b, w') => inr (b, w ++ w')
                               end.
  Proof. by intros ->. Qed.

Lemma bind_ok_nil (m : M L A) (f : A -> M L B) a : m ⇓ (a, []) -> (m ≫= f) = f a.
  Proof. intros ->. cbn. by destruct (f a) as [|[b w]]. Qed.

Lemma bind_ok_ret (m : M L A) (f : A -> B) a w :
    m ⇓ (a, w) -> (m ≫= fun x => mret (f x)) ⇓ (f a, w).
  Proof. intros ->. cbn. by rewrite app_nil_r. Qed.

Lemma bind_inv (m : M L A) (f : A -> M L B) b w :
    (m ≫= f) ⇓ (b, w) ->
    exists a w1 w2, m ⇓ (a, w1) /\ f a ⇓ (b, w2) /\ w = w1 ++ w2.
  Proof.
    unfold mbind, M_bind. intros H.
    destruct m as [|[a w1]]; [discriminate|].
    destruct (f a) as [|[b' w2]] eqn:Hf; [discriminate|].
    injection H as -> <-. eauto 6.
  Qed.
End MonadLemmas.

#[export] Hint Rewrite @bind_ret : bt_simpl.

(** Step over a bind whose first computation is known to return without
    logging: [H] proves it. *)
Ltac mstep H := rewrite (bind_ok_nil _ _ _ H); cbv beta.


(** ** Erasing the log

    [BT_ELEM_FREE] expands to nothing unless the configuration defines
    it. [unlogged m] is the behaviour of [m] in such an expansion: the
    same faults and results, no events. [nolog m] says that [m] emits
    nothing. *)

Definition unlogged {L A} (m : M L A) : M L A :=
  match m with
  | inl e => inl e
  | inr (a, _) => inr (a, [])
  end.

Definition nolog {L A} (m : M L A) : Prop := forall a w, m = inr (a, w) -> w = [].

Create HintDb nolog discriminated.

Section Unlogged.
  Context {L A B : Type}.

Lemma bind_ext (m : M L A) (f g : A -> M L B) : (forall a, f a = g a) -> (m ≫= f) = (m ≫= g).
  Proof. intros Hfg. destruct m as [|[a w]]; cbn; [done|]. by rewrite Hfg. Qed.

Lemma unlogged_bind (m : M L A) (f : A -> M L B) :
    unlogged (m ≫= f) = (unlogged m ≫= fun a => unlogged (f a)).
  Proof. destruct m as [|[a w]]; cbn; [done|]. by destruct (f a) as [|[b w']]. Qed.

Lemma unlogged_emit (x : L) : unlogged (emit x) = mret tt.
  Proof. done. Qed.

Lemma unlogged_ret (a : A) : unlogged (mret a : M L A) = mret a.
  Proof. done. Qed.

Lemma nolog_unlogged (m : M L A) : nolog m -> unlogged m = m.
  Proof. destruct m as [|[a w]]; cbn; [done|]. intros Hm. by rewrite (Hm a w eq_refl). Qed.

Lemma nolog_ret (a : A) : nolog (mret a : M L A).
  Proof. by intros ? ? [= _ <-]. Qed.

Lemma nolog_raise e : nolog (raise e : M L A).
  Proof. done. Qed.

Lemma nolog_bind (m : M L A) (f : A -> M L B) :
    nolog m -> (forall a, nolog (f a)) -> nolog (m ≫= f).
  Proof.
    intros Hm Hf b w (a & w1 & w2 & Ha & Hb & ->)%bind_inv.
    by rewrite (Hm _ _ Ha), (Hf _ _ _ Hb).
  Qed.
End Unlogged.

#[export] Hint Resolve nolog_ret nolog_raise nolog_bind : nolog.

(** Push [unlogged] through one step that emits nothing and continue
    under the binder. *)
Ltac unlog_step :=
  rewrite ?unlogged_bind; rewrite ?(nolog_unlogged (arr_get _ _)) by auto with nolog;
  apply bind_ext; intros ?.

(** ** Lemmas on the array primitives *)

Section ArrayLemmas.
  Context {L X : Type}.
  Implicit Types (a : list X) (x : X).

Lemma arr_get_ok a i x : a !! i = Some x -> (arr_get a i : M L X) ⇓ (x, []).
  Proof. unfold arr_get. by intros ->. Qed.

Lemma arr_get_lt a i : i < length a -> exists x, a !! i = Some x /\ (arr_get a i : M L X) ⇓ (x, []).
  Proof.
    intros Hi. destruct (lookup_lt_is_Some_2 a i Hi) as [x Hx].
    exists x. split; [done|]. by apply arr_get_ok.
  Qed.

Lemma arr_set_ok a i x : i < length a -> (arr_set a i x : M L (list X)) ⇓ (<[i:=x]> a, []).
  Proof. unfold arr_set. intros. by case_decide; [|lia]. Qed.

  (** A write in bounds, stepped in a sequence; the written value is
      found by matching the goal. *)
Lemma bind_arr_set {B} a i x (f : list X -> M L B) :
    i < length a -> (arr_set a i x ≫= f) = f (<[i:=x]> a).
  Proof. intros. by apply bind_ok_nil, arr_set_ok. Qed.

Lemma length_shift_right a i k :
    S i + k <= length a -> length (shift_right a i k) = length a.
  Proof.
    intros. unfold shift_right. rewrite !length_app, !length_take, length_drop, length_drop.
    lia.
  Qed.

Lemma arr_shift_right_ok a i k :
    S i + k <= length a ->
    (arr_shift_right a i (Z.of_nat k) : M L (list X)) ⇓ (shift_right a i k, []).
  Proof.
    unfold arr_shift_right. intros. rewrite Nat2Z.id. by case_decide; [|lia].
  Qed.

Lemma arr_copy_ok dst src off len :
    off + len <= length src -> len <= length dst ->
    (arr_copy dst src off len : M L (list X)) ⇓ (take len (drop off src) ++ drop len dst, []).
  Proof. unfold arr_copy. intros. by case_decide; [|lia]. Qed.

Lemma length_arr_copy (dst src : list X) off len :
    off + len <= length src -> len <= length dst ->
    length (take len (drop off src) ++ drop len dst) = length dst.
  Proof. intros. rewrite length_app, length_take, length_drop, length_drop. lia. Qed.

  (** "shift right from [i], then write [x] at [i]", observed through the
      first [S n] slots, is the insertion of [x] at [i] into the first
      [n] slots. This is the view lemma of every insertion of the code. *)
Lemma take_shift_right_insert a i n x :
    i <= n -> n < length a ->
    take (S n) (<[i:=x]> (shift_right a i (n - i))) = ins_at i x (take n a).
  Proof.
    intros Hin Hn. unfold shift_right, ins_at.
    rewrite insert_app_l by (rewrite length_take; lia).
    assert (<[i:=x]> (take (S i) a) = take i a ++ [x]) as ->.
    { destruct (lookup_lt_is_Some_2 a i) as [y Hy]; [lia|].
      rewrite (take_S_r a i y Hy).
      rewrite insert_app_r_alt by (rewrite length_take; lia).
      rewrite length_take, Nat.min_l, Nat.sub_diag by lia. done. }
    rewrite <-app_assoc. simpl.
    rewrite take_app, length_take, Nat.min_l by lia.
    rewrite !take_take, (Nat.min_r (S n) i), (Nat.min_l i n) by lia.
    replace (S n - i) with (S (n - i)) by lia. simpl. f_equal. f_equal.
    rewrite take_app_length' by (rewrite length_take, length_drop; lia).
    rewrite take_drop_commute. f_equal. f_equal. lia.
  Qed.
Lemma take_shift_right_ge a i k m :
    m <= S i -> take m (shift_right a i k) = take m a.
  Proof.
    intros Hm. unfold shift_right. destruct (decide (S i <= length a)).
    - rewrite take_app_le by (rewrite length_take; lia). rewrite take_take. f_equal. lia.
    - rewrite (take_ge a (S i)), (drop_ge a i), (drop_ge a (S i + k)) by lia.
      by rewrite take_nil, !app_nil_r.
  Qed.
End ArrayLemmas.

(** ** Lemmas on lists *)

Section ListLemmas.
  Context {X : Type}.
  Implicit Types (l : list X) (x : X).

Lemma take_add_app l k m : take (k + m) l = take k l ++ take m (drop k l).
  Proof. by rewrite take_take_drop. Qed.

Lemma take_mid l k m x :
    l !! k = Some x -> take (k + S m) l = take k l ++ x :: take m (drop (S k) l).
  Proof. intros Hx. by rewrite take_add_app, (drop_S l x k Hx). Qed.

  (** Inserting [y] after slot [p], then overwriting slot [p]: the slot
      is replaced by two. *)
Lemma insert_ins_at l p a y :
    p < length l -> <[p:=a]> (ins_at (S p) y l) = take p l ++ a :: y :: drop (S p) l.
  Proof.
    unfold ins_at. revert p. induction l as [|z l IH]; intros [|p] Hp; cbn in *; try lia.
    - done.
    - f_equal. rewrite <-IH by lia. done.
  Qed.
End ListLemmas.

(** ** Lemmas on machine integers *)

Lemma size_t_sub_nat a b :
  b <= a -> (Z.of_nat a < 2 ^ 64)%Z -> size_t_sub a b = Z.of_nat (a - b).
Proof.
  intros. unfold size_t_sub. rewrite Z.mod_small by lia. lia.
Qed.

Lemma u32_incr_nat a : (Z.of_nat a + 1 < 2 ^ 32)%Z -> u32_incr a = S a.
Proof.
  intros. unfold u32_incr. rewrite Z.mod_small by lia. lia.
Qed.

Section ArrayNolog.
  Context {L X : Type}.

Lemma nolog_arr_get (a : list X) i : nolog (arr_get a i : M L X).
  Proof. unfold arr_get. destruct (a !! i); auto with nolog. Qed.

Lemma nolog_arr_set (a : list X) i x : nolog (arr_set a i x : M L (list X)).
  Proof. unfold arr_set. case_decide; auto with nolog. Qed.

Lemma nolog_arr_shift_right (a : list X) i len : nolog (arr_shift_right a i len : M L (list X)).
  Proof. unfold arr_shift_right. case_decide; auto with nolog. Qed.

Lemma nolog_arr_copy (dst src : list X) off len : nolog (arr_copy dst src off len : M L (list X)).
  Proof. unfold arr_copy. case_decide; auto with nolog. Qed.
End ArrayNolog.

#[export] Hint Resolve nolog_arr_get nolog_arr_set nolog_arr_shift_right nolog_arr_copy : nolog.

#[export] Hint Resolve arr_get_ok arr_set_ok arr_shift_right_ok arr_copy_ok : bt.
