(* ===== verification/Order.v ===== *)
(** * The configuration interface of the generated B-tree

    [src/mk_bt.h] is instantiated by macros: [BT_ELEM] (the element
    type), [BT_FACTOR] (the branching factor), [BT_CMP] or [BT_LESS] (the
    comparison), [BT_ITER_STACK_SIZE] (the iterator's stack capacity) and
    [BT_ELEM_FREE] (the destruction hook). The classes below are that
    interface: [Config] holds the two numeric macros, [Elem] the element
    type's comparison and the value of a zero-filled slot, and the [..Ok]
    classes state what the algorithm needs from them. The two comparison
    functions the header generates ([bt_default_cmp] on C's operators,
    and its [BT_LESS] variant) are instances, with proofs that they meet
    the interface. *)

From S2P Require Import Prelude.
From Stdlib Require Import ZArith.

(** ** The configuration *)

Class Config : Type := {
  BT_FACTOR : nat;
  BT_ITER_STACK_SIZE : nat;
}.

(** What the algorithm needs of the numeric macros: a factor of at least
    one (a factor of 0 leaves nodes of 0 keys after a split, on which the
    binary search reads a slot that holds no key), key counts that fit
    the [uint32_t] field [n], and a stack with at least the root frame
    (the initialiser [[0] = ...] of [bt_iter_dfs_mk] needs one). *)
Class ConfigOk `{Config} : Prop := {
  factor_pos : 1 <= BT_FACTOR;
  factor_u32 : (2 * Z.of_nat BT_FACTOR + 2 < 2 ^ 32)%Z;
  stack_pos : 1 <= BT_ITER_STACK_SIZE;
}.

(** The defaults of [mk_bt.h] (lines 92-94 and 383-388). *)
Definition default_config : Config :=
  {| BT_FACTOR := 2; BT_ITER_STACK_SIZE := 32 |}.

Lemma default_config_ok : @ConfigOk default_config.
Proof. split; cbn; lia. Qed.

(** ** Elements and their comparison *)

(** [BT_CMP(a, b)] is a C [int]: positive when [a] is greater, negative
    when it is smaller, zero when the two compare equal. [calloc_elem] is
    the element whose bytes are all zero, the content of a key slot of a
    node fresh from [calloc]. *)
Class Elem (E : Type) : Type := {
  BT_CMP : E -> E -> Z;
  calloc_elem : E;
}.

Section Relations.
  Context {E : Type} `{Elem E}.

  (** [lt a b]: [a] compares less than [b]; [eqv a b]: they compare equal. *)
Definition lt (a b : E) : Prop := (BT_CMP a b < 0)%Z.
Definition eqv (a b : E) : Prop := BT_CMP a b = 0%Z.

#[export] Instance lt_dec a b : Decision (lt a b).
  Proof. unfold lt. apply _. Defined.
#[export] Instance eqv_dec a b : Decision (eqv a b).
  Proof. unfold eqv. apply _. Defined.
End Relations.

(** What the algorithm needs of the comparison: it is the three-way
    comparison of a total preorder. Elements that compare equal may still
    differ (a key-value pair compared by key); the tree keeps one
    element per equivalence class. *)
Class CmpOk (E : Type) `{Elem E} : Prop := {
  cmp_antisym : forall a b, (BT_CMP a b < 0 <-> BT_CMP b a > 0)%Z;
  cmp_le_trans : forall a b c, (BT_CMP a b <= 0 -> BT_CMP b c <= 0 -> BT_CMP a c <= 0)%Z;
}.

Section OrderLemmas.
  Context {E : Type} `{CmpOk E}.

Lemma cmp_refl a : BT_CMP a a = 0%Z.
  Proof. pose proof (cmp_antisym a a). lia. Qed.

Lemma cmp_eq_sym a b : BT_CMP a b = 0%Z -> BT_CMP b a = 0%Z.
  Proof. pose proof (cmp_antisym a b). pose proof (cmp_antisym b a). lia. Qed.

Lemma cmp_le_flip a b : (BT_CMP a b >= 0)%Z -> (BT_CMP b a <= 0)%Z.
  Proof. pose proof (cmp_antisym a b). pose proof (cmp_antisym b a). lia. Qed.

Lemma lt_trans a b c : lt a b -> lt b c -> lt a c.
  Proof.
    unfold lt. intros Hab Hbc. destruct (Z_lt_le_dec (BT_CMP a c) 0) as [|Hac]; [done|].
    assert (BT_CMP c a <= 0)%Z by (apply cmp_le_flip; lia).
    assert (BT_CMP c b <= 0)%Z by (apply (cmp_le_trans c a b); lia).
    pose proof (proj1 (cmp_antisym b c) Hbc). lia.
  Qed.

Lemma lt_irrefl a : ~ lt a a.
  Proof. unfold lt. rewrite cmp_refl. lia. Qed.

Lemma lt_not_eqv a b : lt a b -> ~ eqv a b.
  Proof. unfold lt, eqv. lia. Qed.

Lemma lt_asym a b : lt a b -> ~ lt b a.
  Proof. unfold lt. rewrite (cmp_antisym a b). lia. Qed.

Lemma eqv_sym a b : eqv a b -> eqv b a.
  Proof. apply cmp_eq_sym. Qed.

Lemma eqv_lt_trans a b c : eqv a b -> lt b c -> lt a c.
  Proof.
    unfold eqv, lt. intros Hab Hbc. destruct (Z_lt_le_dec (BT_CMP a c) 0) as [|Hac]; [done|].
    assert (BT_CMP c a <= 0)%Z by (apply cmp_le_flip; lia).
    assert (BT_CMP c b <= 0)%Z by (apply (cmp_le_trans c a b); lia).
    pose proof (proj1 (cmp_antisym b c) Hbc). lia.
  Qed.

Lemma lt_eqv_trans a b c : lt a b -> eqv b c -> lt a c.
  Proof.
    unfold eqv, lt. intros Hab Hbc. destruct (Z_lt_le_dec (BT_CMP a c) 0) as [|Hac]; [done|].
    assert (BT_CMP c a <= 0)%Z by (apply cmp_le_flip; lia).
    pose proof (cmp_eq_sym b c Hbc).
    assert (BT_CMP b a <= 0)%Z by (apply (cmp_le_trans b c a); lia).
    pose proof (proj1 (cmp_antisym a b) Hab). lia.
  Qed.

Lemma eqv_trans a b c : eqv a b -> eqv b c -> eqv a c.
  Proof.
    unfold eqv. intros Hab Hbc.
    pose proof (cmp_eq_sym a b Hab). pose proof (cmp_eq_sym b c Hbc).
    assert (BT_CMP a c <= 0)%Z by (apply (cmp_le_trans a b c); lia).
    assert (BT_CMP c a <= 0)%Z by (apply (cmp_le_trans c b a); lia).
    pose proof (cmp_antisym a c). lia.
  Qed.

  (** The three outcomes the code distinguishes ([cmp > 0], [cmp < 0],
      [!cmp]). *)
Lemma gt_lt a b : (BT_CMP a b > 0)%Z -> lt b a.
  Proof. unfold lt. rewrite cmp_antisym. lia. Qed.
End OrderLemmas.

#[export] Hint Resolve lt_trans eqv_sym eqv_lt_trans lt_eqv_trans eqv_trans : bt.

(** ** [bt_default_cmp] on C's comparison operators
    ([src/mk_bt.h] lines 186-191, the definition generated for
    [BT_ELEM = int] in [src/unnamed/part_000] lines 40-45). An [int] is
    kept as a [Z]: the comparison does no arithmetic that could wrap. *)

Definition bt_default_cmp (a b : Z) : Z :=
  if (a >? b)%Z then 1%Z else if (a <? b)%Z then (-1)%Z else 0%Z.

Ltac int_cmp_cases :=
  unfold bt_default_cmp; rewrite ?Z.gtb_ltb;
  repeat match goal with
         | |- context [(?x <? ?y)%Z] => destruct (Z.ltb_spec x y)
         end.

#[export] Instance int_elem : Elem Z := {| BT_CMP := bt_default_cmp; calloc_elem := 0%Z |}.

#[export] Instance int_cmp_ok : CmpOk Z.
Proof.
  split; intros *; cbn; int_cmp_cases; intuition lia.
Qed.

Lemma int_eqv (a b : Z) : eqv a b <-> a = b.
Proof.
  unfold eqv; cbn; int_cmp_cases; intuition lia.
Qed.

(** ** [bt_default_cmp] derived from [BT_LESS] ([src/mk_bt.h] lines
    177-182). It meets the interface when [BT_LESS] is a strict weak
    order: irreflexive, transitive, and with transitive incomparability
    (stated as negative transitivity). *)

Section LessCmp.
  Context {E : Type} (less : E -> E -> bool) (zero : E).

Definition bt_default_cmp_less (a b : E) : Z :=
    if less b a then 1%Z else if less a b then (-1)%Z else 0%Z.

Definition less_elem : Elem E := {| BT_CMP := bt_default_cmp_less; calloc_elem := zero |}.

  Hypothesis less_irrefl : forall a, less a a = false.
  Hypothesis less_trans : forall a b c, less a b = true -> less b c = true -> less a c = true.
  Hypothesis less_neg_trans :
    forall a b c, less a b = false -> less b c = false -> less a c = false.

  (** C33: The comparison [bt_default_cmp] that [mk_bt.h] derives from
      [BT_LESS] (lines 177-182) is the three-way comparison of a total
      preorder, as the tree requires, whenever [BT_LESS] is a strict
      weak order; and it orders as [BT_LESS] does: [a] compares less
      than [b] exactly when [BT_LESS(a, b)], and the two compare equal
      exactly when neither is less than the other. *)
Theorem less_cmp_ok :
    @CmpOk E less_elem /\
    (forall a b, (bt_default_cmp_less a b < 0)%Z <-> less a b = true) /\
    (forall a b, bt_default_cmp_less a b = 0%Z <-> less a b = false /\ less b a = false).
  Proof.
    split; [|split]; [split; cbn; unfold bt_default_cmp_less; intros a b|..];
      [| |intros a b; unfold bt_default_cmp_less..].
    - pose proof (less_irrefl a).
      destruct (less b a) eqn:Hba, (less a b) eqn:Hab; try (intuition lia).
      pose proof (less_trans a b a Hab Hba). congruence.
    - intros c. pose proof (less_neg_trans c b a).
      destruct (less b a), (less a b), (less c b), (less b c), (less c a), (less a c);
        intuition (try lia; try congruence).
    - pose proof (less_irrefl a).
      destruct (less b a) eqn:Hba, (less a b) eqn:Hab; try (intuition (lia || congruence)).
      pose proof (less_trans a b a Hab Hba). congruence.
    - destruct (less b a), (less a b); intuition (lia || congruence).
  Qed.
End LessCmp.
