(* ===== verification/Spec.v ===== *)
(** * The abstract specification: an ordered set of elements

    What the B-tree promises its clients, stated without nodes: its
    contents are a list strictly sorted by the configured comparison (one
    element per equivalence class), [spec_insert] replaces the element
    that compares equal or inserts in order, and [spec_lookup] returns
    the stored element that compares equal. The refinement theorems of
    [Lookup.v] and [Insert.v] show that the C operations act on the
    in-order sequence of the tree as these functions act on the list. *)

From S2P Require Import Prelude Order.

Section Spec.
  Context {E : Type} `{CmpOk E}.
  Implicit Types (x y z : E) (l : list E).

  (** Strictly increasing by the comparison. *)
Definition sorted (l : list E) : Prop := StronglySorted lt l.

Fixpoint spec_insert (x : E) (l : list E) : list E :=
    match l with
    | [] => [x]
    | y :: l' =>
        if decide (BT_CMP x y < 0)%Z then x :: l
        else if decide (BT_CMP x y = 0)%Z then x :: l'
        else y :: spec_insert x l'
    end.

Fixpoint spec_lookup (x : E) (l : list E) : option E :=
    match l with
    | [] => None
    | y :: l' => if decide (BT_CMP x y = 0)%Z then Some y else spec_lookup x l'
    end.

  (** Every element of [l] is below [x] / above [x]. *)
Definition all_lt (l : list E) (x : E) : Prop := Forall (fun y => lt y x) l.
Definition all_gt (x : E) (l : list E) : Prop := Forall (lt x) l.

  (** ** Sortedness *)

Lemma sorted_app l1 l2 :
    sorted (l1 ++ l2) <-> sorted l1 /\ sorted l2 /\ forall a b, a ∈ l1 -> b ∈ l2 -> lt a b.
  Proof. unfold sorted. rewrite StronglySorted_app. naive_solver. Qed.

Lemma sorted_cons x l : sorted (x :: l) <-> all_gt x l /\ sorted l.
  Proof. unfold sorted, all_gt. rewrite StronglySorted_cons. naive_solver. Qed.

Lemma sorted_mid l1 x l2 :
    sorted (l1 ++ x :: l2) <-> sorted l1 /\ sorted l2 /\ all_lt l1 x /\ all_gt x l2.
  Proof.
    rewrite sorted_app, sorted_cons. unfold all_lt, all_gt. rewrite !Forall_forall.
    split.
    - intros (? & [? ?] & Hlt). repeat split; auto.
      intros a Ha. apply Hlt; set_solver.
    - intros (? & ? & Hl & Hr). repeat split; auto.
      intros a b Ha [-> | Hb]%elem_of_cons; eauto using lt_trans.
  Qed.

Lemma sorted_lookup l i j a b :
    sorted l -> i < j -> l !! i = Some a -> l !! j = Some b -> lt a b.
  Proof.
    revert i j. induction l as [|y l IH]; intros i j Hs Hij Ha Hb; [done|].
    apply sorted_cons in Hs as [Hy Hs]. destruct i as [|i], j as [|j]; cbn in *; try lia.
    - injection Ha as <-. eapply Forall_lookup_1; [exact Hy|exact Hb].
    - eapply IH; [done| |done|done]. lia.
  Qed.

  (** ** Lookup *)

Lemma spec_lookup_Some x l y :
    spec_lookup x l = Some y -> y ∈ l /\ eqv x y.
  Proof.
    induction l as [|z l IH]; cbn; [done|].
    case_decide; [intros [= <-]; split; [left|done]|].
    intros Hy. destruct (IH Hy). split; [by right|done].
  Qed.

Lemma spec_lookup_None x l :
    spec_lookup x l = None <-> Forall (fun y => ~ eqv x y) l.
  Proof.
    induction l as [|z l IH]; cbn; [split; constructor|].
    rewrite Forall_cons, <-IH. unfold eqv. case_decide; naive_solver.
  Qed.

Lemma spec_lookup_all_lt x l : all_lt l x -> spec_lookup x l = None.
  Proof.
    intros Hl. apply spec_lookup_None. eapply Forall_impl; [exact Hl|].
    intros y Hy Hxy. apply (lt_not_eqv y x Hy). by apply eqv_sym.
  Qed.

Lemma spec_lookup_all_gt x l : all_gt x l -> spec_lookup x l = None.
  Proof.
    intros Hl. apply spec_lookup_None. eapply Forall_impl; [exact Hl|].
    intros y Hy. by apply lt_not_eqv.
  Qed.

Lemma spec_lookup_app x l1 l2 :
    spec_lookup x (l1 ++ l2) = match spec_lookup x l1 with
                               | Some y => Some y
                               | None => spec_lookup x l2
                               end.
  Proof.
    induction l1 as [|z l1 IH]; cbn; [by destruct (spec_lookup x l2)|].
    by case_decide.
  Qed.

Lemma spec_lookup_head x y l : eqv x y -> spec_lookup x (y :: l) = Some y.
  Proof. unfold eqv. cbn. by case_decide. Qed.

  (** ** Insertion *)

Lemma spec_insert_all_lt x l : all_lt l x -> spec_insert x l = l ++ [x].
  Proof.
    induction 1 as [|y l Hy _ IH]; cbn; [done|].
    pose proof (proj1 (cmp_antisym y x) Hy).
    do 2 (case_decide; [lia|]). by rewrite IH.
  Qed.

Lemma spec_insert_all_gt x l : all_gt x l -> spec_insert x l = x :: l.
  Proof.
    destruct 1 as [|y l Hy _]; cbn; [done|]. unfold lt in Hy. by case_decide.
  Qed.

Lemma spec_insert_app_l x l1 l2 :
    all_lt l1 x -> spec_insert x (l1 ++ l2) = l1 ++ spec_insert x l2.
  Proof.
    induction 1 as [|y l Hy _ IH]; cbn; [done|].
    pose proof (proj1 (cmp_antisym y x) Hy).
    do 2 (case_decide; [lia|]). by rewrite IH.
  Qed.

Lemma spec_insert_app_r x l1 l2 :
    all_gt x l2 -> spec_insert x (l1 ++ l2) = spec_insert x l1 ++ l2.
  Proof.
    intros Hr. induction l1 as [|y l1 IH]; cbn.
    - by apply spec_insert_all_gt.
    - case_decide; [done|]. case_decide; [done|]. by rewrite IH.
  Qed.

Lemma spec_insert_head x y l : eqv x y -> spec_insert x (y :: l) = x :: l.
  Proof. unfold eqv. cbn. intros. case_decide; [lia|]. by case_decide. Qed.

Lemma elem_of_spec_insert x l z : z ∈ spec_insert x l -> z = x \/ z ∈ l.
  Proof.
    induction l as [|y l IH]; cbn; [set_solver|].
    repeat case_decide; rewrite ?elem_of_cons; naive_solver.
  Qed.

Lemma all_gt_spec_insert y x l : lt y x -> all_gt y l -> all_gt y (spec_insert x l).
  Proof.
    unfold all_gt. rewrite !Forall_forall. intros Hx Hl z [->|Hz]%elem_of_spec_insert; auto.
  Qed.

Lemma sorted_spec_insert x l : sorted l -> sorted (spec_insert x l).
  Proof.
    induction l as [|y l IH]; cbn.
    - intros _. apply sorted_cons. split; [constructor|constructor].
    - rewrite sorted_cons. intros [Hy Hl]. unfold all_gt in *.
      case_decide as Hxy; [|case_decide as Hxy'].
      + apply sorted_cons. split; [|by apply sorted_cons].
        constructor; [done|]. eapply Forall_impl; [exact Hy|]. eauto using lt_trans.
      + apply sorted_cons. split; [|done].
        eapply Forall_impl; [exact Hy|]. intros z. apply eqv_lt_trans. exact Hxy'.
      + apply sorted_cons. split; [|by apply IH].
        apply all_gt_spec_insert; [|done]. apply gt_lt. lia.
  Qed.

Lemma all_gt_trans x y l : lt x y -> all_gt y l -> all_gt x l.
  Proof. unfold all_gt. intros Hxy Hl. eapply Forall_impl; [exact Hl|]. eauto using lt_trans. Qed.

Lemma length_spec_insert x l :
    sorted l ->
    length (spec_insert x l) = match spec_lookup x l with
                               | Some _ => length l
                               | None => S (length l)
                               end.
  Proof.
    induction l as [|y l IH]; cbn; [done|]. rewrite sorted_cons. intros [Hy Hl].
    repeat case_decide; cbn; try lia.
    - rewrite spec_lookup_all_gt; [done|]. by apply (all_gt_trans x y).
    - rewrite IH by done. by destruct (spec_lookup x l).
  Qed.

  (** Looking up after an insertion: the inserted element answers for
      its class, the other classes are unaffected. *)
Lemma spec_lookup_insert_eqv x y l :
    sorted l -> eqv y x -> spec_lookup y (spec_insert x l) = Some x.
  Proof.
    intros Hs Hyx. induction l as [|z l IH]; cbn [spec_insert].
    - by rewrite spec_lookup_head.
    - apply sorted_cons in Hs as [_ Hs].
      case_decide; [by rewrite spec_lookup_head|].
      case_decide as Hxz; [by rewrite spec_lookup_head|].
      cbn [spec_lookup]. case_decide as Hyz; [|by apply IH].
      exfalso. apply Hxz. apply (eqv_trans x y z); [by apply eqv_sym|done].
  Qed.

Lemma spec_lookup_insert_ne x y l :
    ~ eqv y x -> spec_lookup y (spec_insert x l) = spec_lookup y l.
  Proof.
    intros Hyx. induction l as [|z l IH]; cbn.
    - case_decide; [done|done].
    - case_decide; cbn; [case_decide; done|].
      case_decide as Hxz; cbn.
      + case_decide; [done|]. case_decide as Hyz; [|done].
        exfalso. apply Hyx. apply (eqv_trans y z x); [done|by apply eqv_sym].
      + case_decide; [done|]. apply IH.
  Qed.
  (** ** Sequences of insertions

      The contents after inserting [xs] in order into an empty tree. *)
Definition spec_build (xs : list E) : list E := foldl (fun l x => spec_insert x l) [] xs.

Lemma spec_build_snoc xs x : spec_build (xs ++ [x]) = spec_insert x (spec_build xs).
  Proof. unfold spec_build. by rewrite foldl_app. Qed.

Lemma sorted_spec_build xs : sorted (spec_build xs).
  Proof.
    induction xs as [|x xs IH] using rev_ind; [constructor|].
    rewrite spec_build_snoc. by apply sorted_spec_insert.
  Qed.

Lemma length_spec_build xs : length (spec_build xs) <= length xs.
  Proof.
    induction xs as [|x xs IH] using rev_ind; [done|].
    rewrite spec_build_snoc, length_spec_insert by apply sorted_spec_build.
    rewrite length_app. cbn. destruct (spec_lookup _ _); lia.
  Qed.

  (** The element stored for [y] is the last inserted one that compares
      equal to [y]. *)
Lemma spec_lookup_build y xs : spec_lookup y (spec_build xs) = last (filter (eqv y) xs).
  Proof.
    induction xs as [|x xs IH] using rev_ind; [done|].
    rewrite spec_build_snoc, filter_app, filter_cons, filter_nil.
    case_decide.
    - rewrite last_snoc. apply spec_lookup_insert_eqv; [apply sorted_spec_build|done].
    - rewrite app_nil_r, <-IH. by apply spec_lookup_insert_ne.
  Qed.

Lemma elem_of_spec_build xs z : z ∈ spec_build xs -> z ∈ xs.
  Proof.
    induction xs as [|x xs IH] using rev_ind; [cbn; set_solver|].
    rewrite spec_build_snoc, elem_of_app, list_elem_of_singleton.
    intros [-> | Hz]%elem_of_spec_insert; auto.
  Qed.
  (** What an insertion with [prev = NULL] does to the multiset of
      elements: the inserted element comes in, the replaced one (if any)
      goes out. *)
Lemma spec_insert_perm x l :
    sorted l ->
    match spec_lookup x l with
    | Some old => old :: spec_insert x l ≡ₚ x :: l
    | None => spec_insert x l ≡ₚ x :: l
    end.
  Proof.
    induction l as [|y l IH]; cbn; [done|]. rewrite sorted_cons. intros [Hy Hl].
    destruct (decide (BT_CMP x y < 0)%Z) as [Hlt|Hlt]; [|destruct (decide (BT_CMP x y = 0)%Z) as [Heq|Heq]].
    - destruct (decide (BT_CMP x y = 0)%Z); [lia|].
      rewrite spec_lookup_all_gt; [done|]. by apply (all_gt_trans x y).
    - apply perm_swap.
    - specialize (IH Hl). destruct (spec_lookup x l) as [old|].
      + transitivity (y :: old :: spec_insert x l); [apply perm_swap|]. rewrite IH. apply perm_swap.
      + rewrite IH. apply perm_swap.
  Qed.
End Spec.
