(* ===== verification/Node.v ===== *)
(** * Node layout and the binary search within a node

    [struct bnode] and [struct bt] of [src/mk_bt.h] (lines 104-116), the
    zero-filled node returned by [calloc], [bt_mk] (lines 196-199) and
    [bt_node_bsearch] (lines 218-240).

    A node is modelled as the C struct is laid out: the key count [n]
    and two fixed-capacity arrays, [elems] of [2 * BT_FACTOR + 1] slots
    and [children] of [2 * BT_FACTOR + 2] slots, whose slots past the
    first [n] keys and [n + 1] children keep whatever an earlier
    operation left there. A child pointer is an [option bnode]: the node
    graph is a tree in which every node has exactly one owner, so a
    pointer to a node is modelled by the node itself and an update
    through the pointer by replacing the node in its owner's array. *)

From S2P Require Import Prelude Order Spec.

Section Node.
  Context `{Config} {E : Type} `{Elem E}.

  (** [struct bnode] *)
Inductive bnode : Type := mk_bnode {
    n : nat;
    elems : list E;
    children : list (option bnode);
  }.

  (** [struct bt]. The element count [size] is part of the struct. *)
Record bt : Type := mk_bt {
    root : option bnode;
    size : nat;
  }.

Definition ELEMS_CAP : nat := 2 * BT_FACTOR + 1.
Definition CHILDREN_CAP : nat := 2 * BT_FACTOR + 2.

  (** [calloc(1, sizeof(struct bnode))]: no keys, zero-filled key slots,
      [NULL] child slots. *)
Definition bnode_calloc : bnode :=
    mk_bnode 0 (replicate ELEMS_CAP calloc_elem) (replicate CHILDREN_CAP None).

  (** [bt_mk]: the compound literal sets [root] to [NULL] and, as every
      member it does not name, [size] to 0. *)
Definition bt_mk : bt := mk_bt None 0.

Definition set_n (k : nat) (b : bnode) : bnode := mk_bnode k (elems b) (children b).
Definition set_elems (es : list E) (b : bnode) : bnode := mk_bnode (n b) es (children b).
Definition set_children (cs : list (option bnode)) (b : bnode) : bnode :=
    mk_bnode (n b) (elems b) cs.

  (** [children[i]] followed by a branch on whether it is [NULL]: [k] for
      a child, [d] for [NULL], a fault past the capacity. Written as a
      walk over the array so that a recursive call in [k] is on a
      structural subterm of the node. *)
Fixpoint with_child {A} (k : bnode -> M E A) (d : M E A)
      (cs : list (option bnode)) (i : nat) {struct cs} : M E A :=
    match cs, i with
    | [], _ => raise OutOfBounds
    | Some c :: _, 0 => k c
    | None :: _, 0 => d
    | _ :: cs', S i' => with_child k d cs' i'
    end.

  (** ** [bt_node_bsearch]

      One iteration of the [do { ... } while (cmp && left < right)] loop
      (lines 226-233) followed, when the loop exits, by lines 236-239.
      [left <= right] holds whenever the body runs (initially [0 <= n],
      afterwards because the loop continues only when [left < right]),
      so [right - left] does not wrap. The fuel bounds the number of
      iterations; [bt_node_bsearch] supplies [n + 1], which
      [bsearch_terminates] shows is enough. *)
Fixpoint bsearch_loop (node : bnode) (elem : E) (fuel : nat) (left right : nat) : M E Z :=
    match fuel with
    | 0 => raise OutOfFuel
    | S fuel' =>
        let mid := left + (right - left) / 2 in
        x ← arr_get (elems node) mid;
        let cmp := BT_CMP elem x in
        let left' := if decide (cmp > 0)%Z then mid + 1 else left in
        let right' := if decide (cmp > 0)%Z then right
                      else if decide (cmp < 0)%Z then mid else right in
        if decide (cmp = 0)%Z then mret (Z.of_nat mid)
        else if decide (left' < right') then bsearch_loop node elem fuel' left' right'
        else if decide (left' = right') then mret (- Z.of_nat left' - 1)%Z
        else raise AssertFailure
    end.

Definition bt_node_bsearch (node : bnode) (elem : E) : M E Z :=
    bsearch_loop node elem (S (n node)) 0 (n node).

  (** ** The in-order sequence of a node

      [weave ls ks] interleaves the sequences of the children with the
      keys: [l0 ++ k0 :: l1 ++ k1 :: ... ++ ln]. *)
Fixpoint weave (ls : list (list E)) (ks : list E) : list E :=
    match ls, ks with
    | l :: ls', k :: ks' => l ++ k :: weave ls' ks'
    | l :: _, [] => l
    | [], _ => ks
    end.

  (** The prefix made of complete (child, key) pairs. *)
Fixpoint weave_pre (ls : list (list E)) (ks : list E) : list E :=
    match ls, ks with
    | l :: ls', k :: ks' => l ++ k :: weave_pre ls' ks'
    | _, _ => []
    end.

  (** The keys of a node are its first [n] key slots; the in-order
      sequence interleaves them with the sequences of its first [n + 1]
      child slots (an empty sequence for a [NULL] slot). *)
Definition keys (b : bnode) : list E := take (n b) (elems b).

Fixpoint inorder (b : bnode) : list E :=
    weave (take (S (n b)) (map (fun o => match o with
                                         | Some c => inorder c
                                         | None => []
                                         end) (children b)))
          (take (n b) (elems b)).

Definition inorder_opt (o : option bnode) : list E :=
    match o with Some c => inorder c | None => [] end.

  (** The contents of a tree: the in-order sequence of its root. *)
Definition bt_elements (t : bt) : list E := inorder_opt (root t).
End Node.

Arguments bnode : clear implicits.
Arguments bt : clear implicits.

(** ** Lemmas on the node layout and the binary search *)

(** The outcome [bt_node_bsearch] promises on a node whose keys [ks] are
    sorted: the index of a key that compares equal, or [-p - 1] for the
    insertion point [p] (the keys before [p] are smaller, the others
    larger). *)
Inductive search_result {E} `{Elem E} (ks : list E) (x : E) : Z -> Prop :=
  | sr_found i k :
      ks !! i = Some k -> eqv x k -> search_result ks x (Z.of_nat i)
  | sr_missing p :
      p <= length ks ->
      (forall j k, j < p -> ks !! j = Some k -> lt k x) ->
      (forall j k, p <= j -> ks !! j = Some k -> lt x k) ->
      search_result ks x (- Z.of_nat p - 1)%Z.

(** The reference the binary search is compared with: a linear scan of
    the keys from the left. *)
Fixpoint lsearch {E} `{Elem E} (ks : list E) (x : E) (i : nat) : Z :=
  match ks with
  | [] => (- Z.of_nat i - 1)%Z
  | k :: ks' =>
      if decide (BT_CMP x k > 0)%Z then lsearch ks' x (S i)
      else if decide (BT_CMP x k = 0)%Z then Z.of_nat i
      else (- Z.of_nat i - 1)%Z
  end.

(** The sequence after the child at the hole: [k_p :: l_{p+1} ++ ...]. *)
Definition weave_tail {E} (ls : list (list E)) (ks : list E) : list E :=
  match ks with
  | [] => []
  | k :: ks' => k :: weave ls ks'
  end.

Section NodeLemmas.
  Context `{Config} {E : Type} `{CmpOk E}.
  Implicit Types (b node : bnode E) (x : E) (ls : list (list E)) (ks l : list E).

Lemma with_child_spec {A} (k : bnode E -> M E A) d cs i :
    with_child k d cs i = match cs !! i with
                          | Some (Some c) => k c
                          | Some None => d
                          | None => raise OutOfBounds
                          end.
  Proof. revert i. induction cs as [|[c|] cs IH]; intros [|i]; cbn; auto. Qed.

  (** Induction on nodes, with a hypothesis for every node in a child
      slot. *)
Lemma bnode_ind' (P : bnode E -> Prop) :
    (forall b, (forall c, Some c ∈ children b -> P c) -> P b) -> forall b, P b.
  Proof.
    intros IH.
    assert (forall b, Forall (fun o => match o with Some c => P c | None => True end) (children b) -> P b)
      as IH'.
    { intros b Hb. apply IH. intros c Hc. by apply (Forall_forall _ _) with (x := Some c) in Hb. }
    fix F 1. intros [k es cs]. apply IH'. cbn. revert cs.
    fix G 1. intros [|o cs]; constructor; [destruct o as [c|]; [exact (F c)|exact I]|exact (G cs)].
  Qed.

Lemma lookup_keys b i : i < n b -> keys b !! i = elems b !! i.
  Proof. intros. unfold keys. by rewrite lookup_take_lt. Qed.

Lemma length_keys b : n b <= length (elems b) -> length (keys b) = n b.
  Proof. intros. unfold keys. rewrite length_take. lia. Qed.

  (** *** Termination of the search loop *)

Lemma bsearch_loop_fuel node x fuel left right :
    left <= right -> right - left < fuel ->
    bsearch_loop node x fuel left right <> raise OutOfFuel.
  Proof.
    revert left right. induction fuel as [|fuel IH]; intros left right Hlr Hf; [lia|].
    cbn -[Nat.div]. unfold arr_get. destruct (elems node !! _) as [k|]; [|done].
    pose proof (Nat.div_mod (right - left) 2 ltac:(lia)).
    pose proof (Nat.mod_upper_bound (right - left) 2 ltac:(lia)).
    cbn -[Nat.div]. repeat case_decide; try done; try lia; cbn -[Nat.div].
    all: match goal with
         | |- match bsearch_loop ?a ?b ?c ?d ?e with _ => _ end <> _ =>
             pose proof (IH d e ltac:(lia) ltac:(lia));
             destruct (bsearch_loop a b c d e) as [[]|[? ?]]; congruence
         end.
  Qed.

  (** C6: [bt_node_bsearch] always leaves its loop: the fuel [n + 1] bounds
      the number of iterations, whatever the node holds. *)
Lemma bsearch_terminates node x : bt_node_bsearch node x <> raise OutOfFuel.
  Proof. apply bsearch_loop_fuel; lia. Qed.
  (** Each iteration at least halves [right - left]: a width below
      [2^(k + 1)] needs at most [k + 1] iterations. *)
Lemma bsearch_loop_log node x k left right :
    left <= right -> right - left < 2 ^ S k ->
    bsearch_loop node x (S k) left right <> raise OutOfFuel.
  Proof.
    revert left right. induction k as [|k IH]; intros left right Hlr Hw;
      rewrite ?Nat.pow_succ_r', ?Nat.pow_0_r in Hw; [|remember (S k) as f eqn:Hf];
      cbn -[Nat.div Nat.pow]; unfold arr_get; destruct (elems node !! _) as [y|]; try done;
      pose proof (Nat.div_mod (right - left) 2 ltac:(lia));
      pose proof (Nat.mod_upper_bound (right - left) 2 ltac:(lia)); cbn -[Nat.div Nat.pow];
      repeat case_decide; try done; try lia; cbn -[Nat.div Nat.pow].
    all: match goal with
         | |- match bsearch_loop ?a ?b ?c ?d ?e with _ => _ end <> _ =>
             pose proof (IH d e ltac:(lia) ltac:(rewrite Hf, ?Nat.pow_succ_r'; lia));
             destruct (bsearch_loop a b c d e) as [[]|[? ?]]; congruence
         end.
  Qed.

  (** Fuel beyond what a run needs does not change its result. *)
Lemma bsearch_loop_more_fuel node x f f' left right :
    bsearch_loop node x f left right <> raise OutOfFuel -> f <= f' ->
    bsearch_loop node x f' left right = bsearch_loop node x f left right.
  Proof.
    revert f' left right. induction f as [|f IH]; intros f' left right Hf Hle; [done|].
    destruct f' as [|f']; [lia|]. cbn -[Nat.div] in Hf |- *. unfold arr_get in Hf |- *.
    destruct (elems node !! (left + (right - left) / 2)) as [y|]; [|done].
    cbn -[Nat.div] in Hf |- *. repeat case_decide; try done.
    all: rewrite (IH f'); [done| |lia]; intros Heq; rewrite Heq in Hf; done.
  Qed.

  (** C31: The [do ... while] loop of [bt_node_bsearch] runs at most
      [floor(log2 n) + 1] times: allowed only that many iterations it
      computes what the search computes. *)
Theorem bsearch_iterations node x :
    bsearch_loop node x (S (Nat.log2 (n node))) 0 (n node) = bt_node_bsearch node x.
  Proof.
    unfold bt_node_bsearch. symmetry. apply bsearch_loop_more_fuel; [|apply le_n_S, Nat.log2_le_lin; lia].
    apply bsearch_loop_log; [lia|]. rewrite Nat.sub_0_r.
    destruct (n node) as [|m]; [cbn; lia|]. apply Nat.log2_spec. lia.
  Qed.

  (** *** Functional behaviour of the search *)

  Section Search.
    Context (node : bnode E) (x : E).
    Hypothesis Hcap : n node <= length (elems node).
    Hypothesis Hsorted : sorted (keys node).

Lemma bsearch_loop_spec fuel left right :
      left < right -> right <= n node -> right - left < fuel ->
      (forall j k, j < left -> keys node !! j = Some k -> lt k x) ->
      (forall j k, right <= j -> keys node !! j = Some k -> lt x k) ->
      exists r, bsearch_loop node x fuel left right ⇓ (r, []) /\ search_result (keys node) x r.
    Proof.
      revert left right.
      induction fuel as [|fuel IH]; intros left right Hlr Hrn Hf Hlo Hhi; [lia|].
      pose proof (Nat.div_mod (right - left) 2 ltac:(lia)).
      pose proof (Nat.mod_upper_bound (right - left) 2 ltac:(lia)).
      cbn -[Nat.div]. set (mid := left + (right - left) / 2).
      assert (left <= mid < right) as Hmid by (subst mid; lia).
      destruct (lookup_lt_is_Some_2 (keys node) mid) as [k Hk]; [rewrite length_keys; lia|].
      assert (elems node !! mid = Some k) as Hk' by (rewrite <-lookup_keys by lia; done).
      unfold arr_get. rewrite Hk'. cbn -[Nat.div].
      destruct (decide (BT_CMP x k = 0)%Z) as [Hc0|Hc0].
      { exists (Z.of_nat mid). split; [done|]. by apply (sr_found _ _ mid k). }
      destruct (decide (BT_CMP x k > 0)%Z) as [Hgt|Hgt].
      - assert (lt k x) as Hkx by (by apply gt_lt).
        assert (forall j k', j < mid + 1 -> keys node !! j = Some k' -> lt k' x) as Hlo'.
        { intros j k' Hj Hj'. destruct (decide (j = mid)) as [->|Hne]; [congruence|].
          eapply lt_trans; [|exact Hkx]. eapply (sorted_lookup _ j mid); eauto. lia. }
        case_decide as Hlt.
        + destruct (IH (mid + 1) right ltac:(lia) Hrn ltac:(lia) Hlo' Hhi) as (r & Hr & Hsr).
          exists r. by rewrite Hr.
        + case_decide; [|lia]. eexists; split; [done|].
          apply sr_missing; [rewrite length_keys; lia|done|].
          intros j k' Hj. apply Hhi. lia.
      - destruct (decide (BT_CMP x k < 0)%Z) as [Hlt0|]; [|lia].
        assert (forall j k', mid <= j -> keys node !! j = Some k' -> lt x k') as Hhi'.
        { intros j k' Hj Hj'. destruct (decide (j = mid)) as [->|Hne]; [congruence|].
          eapply lt_trans; [exact Hlt0|]. eapply (sorted_lookup _ mid j); eauto. lia. }
        case_decide as Hlt.
        + destruct (IH left mid Hlt ltac:(lia) ltac:(lia) Hlo Hhi') as (r & Hr & Hsr).
          exists r. by rewrite Hr.
        + case_decide; [|lia]. eexists; split; [done|].
          apply sr_missing; [rewrite length_keys; lia|done|].
          intros j k' Hj. apply Hhi'. lia.
    Qed.

    (** On a node with at least one key, sorted keys and a key count
        within the array, [bt_node_bsearch] returns without fault the
        index of a key that compares equal, or the encoded insertion
        point. *)
Lemma bsearch_spec :
      1 <= n node ->
      exists r, bt_node_bsearch node x ⇓ (r, []) /\ search_result (keys node) x r.
    Proof.
      intros Hn1. apply bsearch_loop_spec; [lia|lia|lia| |].
      - intros j k Hj. lia.
      - intros j k Hj Hjk. apply lookup_lt_Some in Hjk. rewrite length_keys in Hjk; lia.
    Qed.
  End Search.
  (** *** The binary search computes the linear scan *)

Lemma search_result_unique ks y r1 r2 :
    sorted ks -> search_result ks y r1 -> search_result ks y r2 -> r1 = r2.
  Proof.
    intros Hs [i1 k1 Hk1 He1|p1 Hp1 Hlo1 Hhi1] [i2 k2 Hk2 He2|p2 Hp2 Hlo2 Hhi2].
    - destruct (lt_eq_lt_dec i1 i2) as [[Hlt| ->]|Hlt]; [|done|].
      + exfalso. apply (lt_not_eqv k1 k2); [eapply sorted_lookup; eauto|].
        eapply eqv_trans; [apply eqv_sym|]; eauto.
      + exfalso. apply (lt_not_eqv k2 k1); [eapply sorted_lookup; eauto|].
        eapply eqv_trans; [apply eqv_sym|]; eauto.
    - exfalso. destruct (decide (i1 < p2)).
      + apply (lt_not_eqv k1 y); [eauto|]. by apply eqv_sym.
      + apply (lt_not_eqv y k1); [apply (Hhi2 i1); [lia|done]|done].
    - exfalso. destruct (decide (i2 < p1)).
      + apply (lt_not_eqv k2 y); [eauto|]. by apply eqv_sym.
      + apply (lt_not_eqv y k2); [apply (Hhi1 i2); [lia|done]|done].
    - f_equal. f_equal. destruct (lt_eq_lt_dec p1 p2) as [[Hlt| ->]|Hlt]; [|done|]; exfalso.
      + destruct (lookup_lt_is_Some_2 ks p1) as [k Hk]; [lia|].
        apply (lt_asym y k); [apply (Hhi1 p1); [lia|done]|apply (Hlo2 p1); [lia|done]].
      + destruct (lookup_lt_is_Some_2 ks p2) as [k Hk]; [lia|].
        apply (lt_asym y k); [apply (Hhi2 p2); [lia|done]|apply (Hlo1 p2); [lia|done]].
  Qed.

Lemma lsearch_spec pre ks y :
    sorted (pre ++ ks) -> all_lt pre y -> search_result (pre ++ ks) y (lsearch ks y (length pre)).
  Proof.
    revert pre. induction ks as [|k ks IH]; intros pre Hs Hpre; cbn.
    - apply sr_missing; [rewrite app_nil_r; lia| |].
      + intros j k Hj Hjk. rewrite app_nil_r in Hjk.
        exact (Forall_lookup_1 _ _ _ _ Hpre Hjk).
      + intros j k Hj Hjk. apply lookup_lt_Some in Hjk. rewrite app_nil_r in Hjk. lia.
    - destruct (decide (BT_CMP y k > 0)%Z) as [Hgt|Hgt].
      { replace (S (length pre)) with (length (pre ++ [k])) by (rewrite length_app; cbn; lia).
        rewrite (cons_middle k pre ks), app_assoc. apply IH; [by rewrite <-app_assoc|].
        apply Forall_app. split; [done|]. constructor; [by apply gt_lt|constructor]. }
      destruct (decide (BT_CMP y k = 0)%Z) as [Heq|Hne].
      { apply (sr_found _ _ (length pre) k); [|done]. by rewrite list_lookup_middle. }
      apply sr_missing; [rewrite length_app; cbn; lia| |].
      + intros j k' Hj Hjk. rewrite lookup_app_l in Hjk by lia.
        exact (Forall_lookup_1 _ _ _ _ Hpre Hjk).
      + apply sorted_app in Hs as (_ & Hks & _). apply sorted_cons in Hks as [Hk _].
        assert (lt y k) as Hyk by (unfold lt; lia).
        intros j k' Hj Hjk. rewrite lookup_app_r in Hjk by lia.
        destruct (j - length pre) as [|j'] eqn:Hj'; cbn in Hjk; [congruence|].
        eapply lt_trans; [exact Hyk|]. exact (Forall_lookup_1 _ _ _ _ Hk Hjk).
  Qed.

  (** C5: On a node with sorted keys, at least one key and a key count within
      the array, the binary search returns what the linear scan of the
      keys returns. *)
Lemma bsearch_lsearch node y :
    1 <= n node -> n node <= length (elems node) -> sorted (keys node) ->
    bt_node_bsearch node y ⇓ (lsearch (keys node) y 0, []).
  Proof.
    intros Hn1 Hcap Hs. destruct (bsearch_spec node y Hcap Hs Hn1) as (r & Hr & Hsr).
    rewrite Hr. do 3 f_equal. eapply search_result_unique; [exact Hs|exact Hsr|].
    apply (lsearch_spec []); [done|constructor].
  Qed.

  (** *** The interleaving of children and keys *)

  (** C14: On a node with no key the search does not fail as the
      precondition the comment states would have it: it compares with
      the stale slot [elems[0]] and reports a match at 0, the insertion
      point 0, or (when the element is greater) fails the final
      [assert(left == right)]. *)
Theorem bsearch_empty node x y :
    n node = 0 -> elems node !! 0 = Some y ->
    bt_node_bsearch node x =
      if decide (BT_CMP x y = 0)%Z then mret 0%Z
      else if decide (BT_CMP x y < 0)%Z then mret (-1)%Z
      else raise AssertFailure.
  Proof.
    intros Hn Hy. unfold bt_node_bsearch. rewrite Hn. cbn [bsearch_loop].
    replace (0 + (0 - 0) / 2) with 0 by done. mstep (arr_get_ok (L:=E) _ _ _ Hy).
    destruct (decide (BT_CMP x y = 0)%Z) as [|Hne]; [done|].
    destruct (decide (BT_CMP x y > 0)%Z), (decide (BT_CMP x y < 0)%Z); cbn; try lia; done.
  Qed.

Lemma weave_cons_cons l ls k ks : weave (l :: ls) (k :: ks) = l ++ k :: weave ls ks.
  Proof. done. Qed.

Lemma weave_cons_tail l ls ks : weave (l :: ls) ks = l ++ weave_tail ls ks.
  Proof. destruct ks; cbn; [by rewrite app_nil_r|done]. Qed.

Lemma weave_app_pre ls1 ls2 ks1 ks2 :
    length ls1 = length ks1 ->
    weave (ls1 ++ ls2) (ks1 ++ ks2) = weave_pre ls1 ks1 ++ weave ls2 ks2.
  Proof.
    revert ks1. induction ls1 as [|l ls1 IH]; intros [|k ks1] Hlen; cbn in *; try lia; [done|].
    rewrite IH by lia. by rewrite <-app_assoc.
  Qed.

Lemma weave_app_key ls1 ls2 ks1 k ks2 :
    length ls1 = S (length ks1) ->
    weave (ls1 ++ ls2) (ks1 ++ k :: ks2) = weave ls1 ks1 ++ k :: weave ls2 ks2.
  Proof.
    revert ls1. induction ks1 as [|k1 ks1 IH]; intros [|l ls1] Hlen; cbn in *; try lia.
    - destruct ls1; cbn in *; [done|lia].
    - rewrite IH by lia. by rewrite <-app_assoc.
  Qed.

Lemma weave_pre_snoc ls ks l k :
    length ls = length ks -> weave_pre (ls ++ [l]) (ks ++ [k]) = weave_pre ls ks ++ l ++ [k].
  Proof.
    revert ks. induction ls as [|l' ls IH]; intros [|k' ks] Hlen; cbn in *; try lia; [done|].
    rewrite IH by lia. by rewrite <-app_assoc.
  Qed.

  (** The in-order sequence with a hole at child [p]. *)
Definition ctx_pre (ls : list (list E)) (ks : list E) (p : nat) : list E :=
    weave_pre (take p ls) (take p ks).
Definition ctx_post (ls : list (list E)) (ks : list E) (p : nat) : list E :=
    weave_tail (drop (S p) ls) (drop p ks).

Lemma weave_ctx_child ls ks p l :
    length ls = S (length ks) -> p < length ls ->
    weave (<[p:=l]> ls) ks = ctx_pre ls ks p ++ l ++ ctx_post ls ks p.
  Proof.
    intros Hlen Hp. rewrite insert_take_drop by done.
    rewrite <-(take_drop p ks) at 1. rewrite weave_app_pre.
    - by rewrite weave_cons_tail.
    - rewrite !length_take. lia.
  Qed.

Lemma weave_ctx_self ls ks p l :
    length ls = S (length ks) -> ls !! p = Some l ->
    weave ls ks = ctx_pre ls ks p ++ l ++ ctx_post ls ks p.
  Proof.
    intros Hlen Hl. rewrite <-weave_ctx_child by (eauto using lookup_lt_Some).
    by rewrite list_insert_id.
  Qed.

  (** Splitting the child at the hole into two children around a new key. *)
Lemma weave_ctx_split ls ks p l1 m l2 :
    length ls = S (length ks) -> p < length ls ->
    weave (take p ls ++ l1 :: l2 :: drop (S p) ls) (ins_at p m ks) =
      ctx_pre ls ks p ++ (l1 ++ m :: l2) ++ ctx_post ls ks p.
  Proof.
    intros Hlen Hp. unfold ins_at. rewrite weave_app_pre by (rewrite !length_take; lia).
    rewrite weave_cons_cons, weave_cons_tail. unfold ctx_pre, ctx_post. by rewrite <-!app_assoc.
  Qed.

Lemma ctx_pre_last ls ks p :
    length ls = S (length ks) -> S p < length ls ->
    exists P k, ctx_pre ls ks (S p) = P ++ [k] /\ ks !! p = Some k.
  Proof.
    intros Hlen Hp. unfold ctx_pre.
    destruct (lookup_lt_is_Some_2 ls p) as [l Hl]; [lia|].
    destruct (lookup_lt_is_Some_2 ks p) as [k Hk]; [lia|].
    rewrite (take_S_r ls _ l Hl), (take_S_r ks _ k Hk).
    rewrite weave_pre_snoc by (rewrite !length_take; lia).
    exists (weave_pre (take p ls) (take p ks) ++ l), k.
    split; [by rewrite <-app_assoc|done].
  Qed.

Lemma ctx_post_first ls ks p :
    match ks !! p with
    | None => ctx_post ls ks p = []
    | Some k => exists Q, ctx_post ls ks p = k :: Q
    end.
  Proof.
    unfold ctx_post. destruct (ks !! p) as [k|] eqn:Hk.
    - rewrite (drop_S ks k p Hk). cbn. eauto.
    - apply lookup_ge_None in Hk. by rewrite (drop_ge ks p) by done.
  Qed.

  (** The keys with a hole at key [i]. *)
Lemma weave_ctx_key ls ks i :
    length ls = S (length ks) -> i < length ks ->
    exists P Q, forall y, weave ls (<[i:=y]> ks) = P ++ y :: Q.
  Proof.
    intros Hlen Hi. destruct (lookup_lt_is_Some_2 ls i) as [l Hl]; [lia|].
    exists (weave_pre (take i ls) (take i ks) ++ l), (weave (drop (S i) ls) (drop (S i) ks)).
    intros y. rewrite insert_take_drop by done.
    rewrite <-(take_drop_middle ls i l Hl) at 1.
    rewrite weave_app_pre by (rewrite !length_take; lia). cbn. by rewrite <-app_assoc.
  Qed.
End NodeLemmas.
