(* ===== verification/Shape.v ===== *)
(** * The B-tree invariant

    The invariant the header comment of [src/mk_bt.h] and the algorithm
    rely on, on the node layout of [Node.v]:
    - every node's arrays have their declared capacity and its key count
      fits in them ([sized]);
    - a leaf's child slots are all [NULL]; an internal node's first
      [n + 1] child slots all point to nodes ([shape]);
    - every leaf is at the same depth (the height index of [shape]);
    - a non-root node holds between [BT_FACTOR] and [2 * BT_FACTOR] keys,
      the root between 1 and [2 * BT_FACTOR] (the bounds of [shape]),
      except transiently during an insertion, where the node the
      recursion returns from may hold [2 * BT_FACTOR + 1];
    - the in-order sequence is strictly sorted, which expresses both the
      ordering of the keys within a node and the separation of the
      subtrees by the keys between them ([node_wf]). *)

From S2P Require Import Prelude Order Spec Node.

#[local] Set Warnings "-register-all".

Section Shape.
  Context `{Config} {E : Type} `{Elem E}.

  (** The sequences of the first [n + 1] child slots of a node. *)
Definition kids_seq (b : bnode E) : list (list E) :=
    take (S (n b)) (map inorder_opt (children b)).

Definition sized (b : bnode E) : Prop :=
    length (elems b) = ELEMS_CAP /\ length (children b) = CHILDREN_CAP /\ n b <= ELEMS_CAP.

  (** [shape lo hi h b]: [b] is the root of a subtree of height [h] whose
      root holds between [lo] and [hi] keys and whose other nodes are
      stable. *)
Inductive shape : nat -> nat -> nat -> bnode E -> Prop :=
    | shape_leaf lo hi b :
        sized b -> lo <= n b <= hi -> Forall (fun c => c = None) (children b) ->
        shape lo hi 0 b
    | shape_node lo hi h b cs :
        sized b -> lo <= n b <= hi ->
        take (S (n b)) (children b) = map Some cs ->
        Forall (shape BT_FACTOR (2 * BT_FACTOR) h) cs ->
        shape lo hi (S h) b.

Definition node_wf (lo hi h : nat) (b : bnode E) : Prop :=
    shape lo hi h b /\ sorted (inorder b).

  (** A tree is well formed when it is empty or its root is a well-formed
      node of some height with 1 to [2 * BT_FACTOR] keys. *)
Definition bt_wf_h (t : bt E) (h : nat) : Prop :=
    match root t with
    | None => True
    | Some r => node_wf 1 (2 * BT_FACTOR) h r
    end.

Definition bt_wf (t : bt E) : Prop := exists h, bt_wf_h t h.
End Shape.

Section ShapeLemmas.
  Context `{ConfigOk} {E : Type} `{CmpOk E}.
  Implicit Types (b : bnode E) (x : E) (ls : list (list E)) (ks : list E).

Lemma shape_sized lo hi h b : shape lo hi h b -> sized b.
  Proof. by destruct 1. Qed.

Lemma shape_n lo hi h b : shape lo hi h b -> lo <= n b <= hi.
  Proof. by destruct 1. Qed.

Lemma shape_weaken lo hi lo' hi' h b :
    lo' <= lo -> hi <= hi' -> shape lo hi h b -> shape lo' hi' h b.
  Proof.
    intros ? ? Hs. inversion Hs; subst; [apply shape_leaf|eapply shape_node]; eauto; lia.
  Qed.

  (** Only the root's key count is bounded by [lo] and [hi]. *)
Lemma shape_rebound lo hi lo' hi' h b :
    lo' <= n b <= hi' -> shape lo hi h b -> shape lo' hi' h b.
  Proof.
    intros ? Hs. inversion Hs; subst; [apply shape_leaf|eapply shape_node]; eauto.
  Qed.

Lemma inorder_unfold b :
    inorder b = weave (take (S (n b)) (map inorder_opt (children b))) (keys b).
  Proof. by destruct b. Qed.

Lemma weave_replicate_nil ks : weave (replicate (S (length ks)) []) ks = ks.
  Proof.
    induction ks as [|k ks IH]; [done|].
    change (replicate (S (length (k :: ks))) ([] : list E))
      with ([] :: replicate (S (length ks)) ([] : list E)).
    by rewrite weave_cons_cons, IH.
  Qed.

  (** A leaf's in-order sequence is its keys. *)
Lemma inorder_leaf lo hi b : shape lo hi 0 b -> inorder b = keys b.
  Proof.
    inversion 1 as [? ? ? (Hes & Hcs & Hn) _ Hnone|]; subst.
    rewrite inorder_unfold.
    assert (children b = replicate (length (children b)) None) as Hrep.
    { symmetry. apply replicate_as_Forall_2; [done|].
      eapply Forall_impl; [exact Hnone|]. by intros ? ->. }
    assert (map inorder_opt (children b) = replicate (length (children b)) []) as ->.
    { rewrite Hrep at 1. generalize (length (children b)).
      intros k. induction k as [|k IHk]; cbn; [done|]. by rewrite IHk. }
    rewrite take_replicate, Nat.min_l by (unfold ELEMS_CAP, CHILDREN_CAP in *; lia).
    replace (S (n b)) with (S (length (keys b)))
      by (rewrite length_keys; unfold ELEMS_CAP in *; lia).
    apply weave_replicate_nil.
  Qed.

Lemma length_kids lo hi h b cs :
    shape lo hi (S h) b -> take (S (n b)) (children b) = map Some cs -> length cs = S (n b).
  Proof.
    inversion 1 as [|? ? ? ? cs' (Hes & Hcs & Hn)]; subst. intros Hk.
    apply (f_equal length) in Hk. rewrite length_take, length_map in Hk.
    unfold CHILDREN_CAP, ELEMS_CAP in *. lia.
  Qed.

  (** An internal node's in-order sequence interleaves the sequences of
      its children with its keys. *)
Lemma inorder_node lo hi h b cs :
    shape lo hi (S h) b -> take (S (n b)) (children b) = map Some cs ->
    inorder b = weave (map inorder cs) (keys b).
  Proof.
    intros Hs Hk. rewrite inorder_unfold, firstn_map, Hk, map_map. done.
  Qed.

Lemma length_keys_shape lo hi h b : shape lo hi h b -> length (keys b) = n b.
  Proof. intros Hs. destruct (shape_sized _ _ _ _ Hs) as (? & ? & ?). apply length_keys. lia. Qed.

  (** *** Sortedness of the parts of an in-order sequence *)

Lemma elem_of_weave_key ls ks y : length ls = S (length ks) -> y ∈ ks -> y ∈ weave ls ks.
  Proof.
    revert ls. induction ks as [|k ks IH]; intros [|l ls] Hlen Hy; cbn in *; try lia;
      [set_solver|].
    rewrite elem_of_app, elem_of_cons. apply elem_of_cons in Hy as [->|Hy]; [auto|].
    right; right. apply IH; [lia|done].
  Qed.

Lemma sorted_weave_keys ls ks : length ls = S (length ks) -> sorted (weave ls ks) -> sorted ks.
  Proof.
    revert ls. induction ks as [|k ks IH]; intros [|l ls] Hlen Hs; cbn in *; try lia.
    - constructor.
    - apply sorted_app in Hs as (_ & Hs & _). apply sorted_cons in Hs as [Hk Hs].
      apply sorted_cons. split.
      + unfold all_gt in *. rewrite Forall_forall in *. intros y Hy.
        apply Hk, elem_of_weave_key; [lia|done].
      + apply (IH ls); [lia|done].
  Qed.

Lemma sorted_weave_child ls ks p l :
    length ls = S (length ks) -> ls !! p = Some l -> sorted (weave ls ks) -> sorted l.
  Proof.
    intros Hlen Hl. rewrite (weave_ctx_self ls ks p l Hlen Hl).
    rewrite !sorted_app. tauto.
  Qed.

  (** The parts of the in-order sequence around the child at an insertion
      point [p] returned by the search lie below and above the searched
      element. *)
Lemma ctx_bounds ls ks p x :
    length ls = S (length ks) -> p < length ls -> sorted (weave ls ks) ->
    (forall j k, j < p -> ks !! j = Some k -> lt k x) ->
    (forall j k, p <= j -> ks !! j = Some k -> lt x k) ->
    all_lt (ctx_pre ls ks p) x /\ all_gt x (ctx_post ls ks p).
  Proof.
    intros Hlen Hp Hs Hlo Hhi.
    destruct (lookup_lt_is_Some_2 ls p Hp) as [l Hl].
    rewrite (weave_ctx_self ls ks p l Hlen Hl) in Hs.
    apply sorted_app in Hs as (Hpre & Hs & Hsep). apply sorted_app in Hs as (_ & Hpost & _).
    split.
    - destruct p as [|p].
      + unfold ctx_pre. cbn. constructor.
      + destruct (ctx_pre_last ls ks p Hlen Hp) as (P & k & HP & Hk).
        rewrite HP in *. pose proof (Hlo p k ltac:(lia) Hk) as Hkx.
        rewrite sorted_mid in Hpre.
        destruct Hpre as (_ & _ & HPk & _).
        apply Forall_app. split; [|constructor; [done|constructor]].
        eapply Forall_impl; [exact HPk|]. intros y Hy. exact (lt_trans _ _ _ Hy Hkx).
    - pose proof (ctx_post_first ls ks p) as Hfirst.
      destruct (ks !! p) as [k|] eqn:Hk.
      + destruct Hfirst as [Q HQ]. rewrite HQ in *.
        apply sorted_cons in Hpost as [HkQ _]. pose proof (Hhi p k ltac:(lia) Hk) as Hxk.
        constructor; [done|]. eapply Forall_impl; [exact HkQ|]. intros y Hy. exact (lt_trans _ _ _ Hxk Hy).
      + rewrite Hfirst. constructor.
  Qed.
  (** *** Field updates that keep the arrays' capacities *)

Lemma sized_set_n b k : sized b -> k <= ELEMS_CAP -> sized (set_n k b).
  Proof. unfold sized. cbn. lia. Qed.

Lemma sized_set_elems b es : sized b -> length es = ELEMS_CAP -> sized (set_elems es b).
  Proof. unfold sized. cbn. lia. Qed.

Lemma sized_set_children b cs : sized b -> length cs = CHILDREN_CAP -> sized (set_children cs b).
  Proof. unfold sized. cbn. lia. Qed.

  (** *** Children and the interleaving *)

Lemma length_kids_seq b : sized b -> length (kids_seq b) = S (length (keys b)).
  Proof.
    intros (Hes & Hcs & Hn). unfold kids_seq. rewrite length_take, length_map, length_keys by lia.
    unfold CHILDREN_CAP, ELEMS_CAP in *. lia.
  Qed.

Lemma lookup_kids_seq b p o :
    p <= n b -> children b !! p = Some o -> kids_seq b !! p = Some (inorder_opt o).
  Proof.
    intros Hp Ho. unfold kids_seq. rewrite lookup_take_lt by lia.
    by rewrite list_lookup_fmap, Ho.
  Qed.

Lemma shape_leaf_slot lo hi b p :
    shape lo hi 0 b -> p <= n b -> children b !! p = Some None.
  Proof.
    inversion 1 as [? ? ? (Hes & Hcs & Hn) _ Hnone|]; subst. intros Hp.
    destruct (lookup_lt_is_Some_2 (children b) p) as [o Ho];
      [unfold CHILDREN_CAP, ELEMS_CAP in *; lia|].
    by rewrite Ho, (Forall_lookup_1 _ _ _ _ Hnone Ho).
  Qed.

Lemma shape_child lo hi h b p :
    shape lo hi (S h) b -> p <= n b ->
    exists c, children b !! p = Some (Some c) /\ shape BT_FACTOR (2 * BT_FACTOR) h c.
  Proof.
    intros Hs Hp. inversion Hs as [|? ? ? ? cs Hsz Hn Hk Hall]; subst.
    pose proof (length_kids _ _ _ _ _ Hs Hk) as Hlen.
    destruct (lookup_lt_is_Some_2 cs p) as [c Hc]; [lia|].
    exists c. split; [|exact (Forall_lookup_1 _ _ _ _ Hall Hc)].
    rewrite <-(lookup_take_lt (children b) (S (n b))) by lia.
    by rewrite Hk, list_lookup_fmap, Hc.
  Qed.

Lemma shape_sorted_keys lo hi h b : shape lo hi h b -> sorted (inorder b) -> sorted (keys b).
  Proof.
    intros Hs. rewrite inorder_unfold. fold (kids_seq b).
    apply sorted_weave_keys, length_kids_seq. eauto using shape_sized.
  Qed.

  (** Descending into the child at the insertion point: the rest of the
      in-order sequence lies below and above the searched element. *)
Lemma search_ctx_bounds lo hi h b x p :
    shape lo hi h b -> sorted (inorder b) ->
    search_result (keys b) x (- Z.of_nat p - 1)%Z ->
    p <= n b /\ all_lt (ctx_pre (kids_seq b) (keys b) p) x /\
    all_gt x (ctx_post (kids_seq b) (keys b) p).
  Proof.
    intros Hs Hsorted Hsr. pose proof (shape_sized _ _ _ _ Hs) as Hsz.
    pose proof (length_kids_seq b Hsz) as Hlen.
    pose proof (length_keys_shape _ _ _ _ Hs) as Hk.
    inversion Hsr as [i k Hi Hik Heq|p' Hp Hlo Hhi Heq]; [lia|].
    assert (p' = p) as -> by lia.
    rewrite inorder_unfold in Hsorted. fold (kids_seq b) in Hsorted.
    split; [lia|]. apply ctx_bounds; auto. lia.
  Qed.

  (** The contents of a well-formed tree are sorted. *)
Lemma bt_wf_sorted t h : bt_wf_h t h -> sorted (bt_elements t).
  Proof. unfold bt_wf_h, bt_elements. destruct (root t); [intros [_ ?]; done|constructor]. Qed.
End ShapeLemmas.

(** ** Executable checks

    Boolean versions of [shape] and [sorted], with soundness lemmas, so
    that the well-formedness of a concrete tree is decided by
    computation. *)

Section Checks.
  Context `{ConfigOk} {E : Type} `{CmpOk E}.

#[local] Instance sized_dec (b : bnode E) : Decision (sized b).
  Proof. unfold sized. apply _. Defined.

Fixpoint sortedb (l : list E) : bool :=
    match l with
    | x :: ((y :: _) as l') => bool_decide (BT_CMP x y < 0)%Z && sortedb l'
    | _ => true
    end.

Fixpoint shapeb (lo hi h : nat) (b : bnode E) : bool :=
    bool_decide (sized b) && bool_decide (lo <= n b <= hi) &&
    match h with
    | 0 => forallb (fun o => match o with None => true | Some _ => false end) (children b)
    | S h' => forallb (fun o => match o with Some c => shapeb BT_FACTOR (2 * BT_FACTOR) h' c
                                             | None => false end)
                      (take (S (n b)) (children b))
    end.

Definition bt_wfb (t : bt E) (h : nat) : bool :=
    match root t with
    | None => true
    | Some r => shapeb 1 (2 * BT_FACTOR) h r && sortedb (inorder r)
    end.

Lemma sortedb_sound l : sortedb l = true -> sorted l.
  Proof.
    induction l as [|x [|y l] IH]; intros Hl; [constructor|repeat constructor|].
    cbn in Hl. apply andb_prop in Hl as [Hxy Hl]. apply bool_decide_eq_true in Hxy.
    specialize (IH Hl). apply sorted_cons. split; [|done].
    apply sorted_cons in IH as [Hy _]. constructor; [done|]. by apply (all_gt_trans x y).
  Qed.

Lemma forallb_somes {A} (p : A -> bool) (l : list (option A)) :
    forallb (fun o => match o with Some c => p c | None => false end) l = true ->
    exists cs, l = map Some cs /\ Forall (fun c => p c = true) cs.
  Proof.
    induction l as [|[c|] l IH]; cbn; [by exists []| |done].
    intros [Hc Hl]%andb_prop. destruct (IH Hl) as (cs & -> & Hcs).
    exists (c :: cs). split; [done|]. by constructor.
  Qed.

Lemma shapeb_sound h : forall lo hi b, shapeb lo hi h b = true -> shape lo hi h b.
  Proof.
    induction h as [|h IH]; intros lo hi b Hb; cbn in Hb;
      apply andb_prop in Hb as [[Hsz Hn]%andb_prop Hk];
      apply bool_decide_eq_true in Hsz, Hn.
    - apply shape_leaf; [done|done|]. apply Forall_forall. intros [c|] Hc; [|done].
      apply forallb_forall with (x := Some c) in Hk; [done|by apply list_elem_of_In].
    - destruct (forallb_somes _ _ Hk) as (cs & Hcs & Hall).
      apply (shape_node _ _ _ _ cs); [done|done|done|].
      eapply Forall_impl; [exact Hall|]. intros c Hc. by apply IH.
  Qed.

Lemma bt_wfb_sound t h : bt_wfb t h = true -> bt_wf_h t h.
  Proof.
    unfold bt_wfb, bt_wf_h. destruct (root t); [|done].
    intros [Hs Ho]%andb_prop. split; [by apply shapeb_sound|by apply sortedb_sound].
  Qed.
End Checks.
