(* ===== verification/Lookup.v ===== *)
(** * Lookup

    [bt_lookup_node] and [bt_lookup] of [src/mk_bt.h] (lines 246-266).
    The [while (curr)] loop descends from the root: at each node it runs
    the binary search, returns a pointer to the key on a match and
    otherwise moves to the child at the insertion point. A pointer to a
    key is modelled as the node holding it and the index of the slot; the
    out-parameter [node] as the last node written to it ([None] when it
    is never written, that is when the tree is empty).

    The refinement theorem [bt_lookup_spec] shows that on a well-formed
    tree the lookup never faults and finds exactly what [spec_lookup]
    finds in the in-order sequence. *)

From S2P Require Import Prelude Order Spec Node Shape.

Section Lookup.
  Context `{Config} {E : Type} `{Elem E}.

  (** A pointer [curr->elems + idx] to a key slot. *)
Definition elem_ptr : Type := (bnode E * nat)%type.

  (** [*p] *)
Definition deref (p : elem_ptr) : option E := elems p.1 !! p.2.

  (** The loop of [bt_lookup_node] from node [curr] on (lines 252-260):
      the found pointer, if any, and the last node assigned to [*node]. *)
Fixpoint lookup_loop (curr : bnode E) (elem : E) : M E (option elem_ptr * bnode E) :=
    idx ← bt_node_bsearch curr elem;
    if decide (0 <= idx)%Z then mret (Some (curr, Z.to_nat idx), curr)
    else with_child (fun c => lookup_loop c elem) (mret (None, curr))
           (children curr) (Z.to_nat (- idx - 1)).

Definition bt_lookup_node (t : bt E) (elem : E) : M E (option elem_ptr * option (bnode E)) :=
    match root t with
    | None => mret (None, None)
    | Some r => '(res, last) ← lookup_loop r elem; mret (res, Some last)
    end.

  (** [bt_lookup] passes [NULL] for [node]: the last node is dropped. *)
Definition bt_lookup (t : bt E) (elem : E) : M E (option elem_ptr) :=
    '(res, _) ← bt_lookup_node t elem; mret res.

  (** [reach b d]: [d] is [b] or a node of a live child slot of a node
      reachable from [b]. *)
Inductive reach : bnode E -> bnode E -> Prop :=
    | reach_refl b : reach b b
    | reach_child b c d : Some c ∈ take (S (n b)) (children b) -> reach c d -> reach b d.
End Lookup.

Section LookupProofs.
  Context `{ConfigOk} {E : Type} `{CmpOk E}.
  Implicit Types (b : bnode E) (x : E).

  (** The element found at the pointer the loop returns. *)
Definition found (res : option (elem_ptr (E:=E))) : option E := res ≫= deref.

  (** The bounds of [search_result] give the bounds of [ctx_bounds]. *)
Lemma search_missing_bounds b x p :
    search_result (keys b) x (- Z.of_nat p - 1)%Z ->
    (forall j k, j < p -> keys b !! j = Some k -> lt k x) /\
    (forall j k, p <= j -> keys b !! j = Some k -> lt x k) /\ p <= length (keys b).
  Proof.
    inversion 1 as [i k Hi Hk Heq|p' Hp Hlo Hhi Heq]; [lia|].
    assert (p' = p) as -> by lia. auto.
  Qed.

Lemma lookup_loop_eq b x :
    lookup_loop b x =
      (idx ← bt_node_bsearch b x;
       if decide (0 <= idx)%Z then mret (Some (b, Z.to_nat idx), b)
       else with_child (fun c => lookup_loop c x) (mret (None, b))
              (children b) (Z.to_nat (- idx - 1))).
  Proof. by destruct b. Qed.

  (** The search on a node of a well-formed subtree. *)
Lemma node_search lo hi h b x :
    1 <= lo -> shape lo hi h b -> sorted (inorder b) ->
    exists r, bt_node_bsearch b x ⇓ (r, []) /\ search_result (keys b) x r.
  Proof.
    intros Hlo Hs Hsorted. pose proof (shape_sized _ _ _ _ Hs) as (? & ? & ?).
    pose proof (shape_n _ _ _ _ Hs).
    apply bsearch_spec; [unfold ELEMS_CAP in *; lia|eauto using shape_sorted_keys|lia].
  Qed.

Lemma sorted_child lo hi h b p c :
    shape lo hi h b -> sorted (inorder b) -> p <= n b ->
    children b !! p = Some (Some c) -> sorted (inorder c).
  Proof.
    intros Hs Hsorted Hp Hc. rewrite inorder_unfold in Hsorted. fold (kids_seq b) in Hsorted.
    eapply (sorted_weave_child _ _ p); [|exact (lookup_kids_seq _ _ _ Hp Hc)|exact Hsorted].
    apply length_kids_seq. eauto using shape_sized.
  Qed.

  (** A key of the node that compares equal answers the lookup. *)
Lemma spec_lookup_found lo hi h b x i k :
    shape lo hi h b -> sorted (inorder b) -> keys b !! i = Some k -> eqv x k ->
    spec_lookup x (inorder b) = Some k.
  Proof.
    intros Hs Hsorted Hk Hxk. rewrite inorder_unfold in *. fold (kids_seq b) in *.
    pose proof (length_kids_seq b (shape_sized _ _ _ _ Hs)) as Hlen.
    destruct (weave_ctx_key (kids_seq b) (keys b) i Hlen) as (P & Q & HPQ).
    { eauto using lookup_lt_Some. }
    specialize (HPQ k). rewrite list_insert_id in HPQ by done. rewrite HPQ in *.
    apply sorted_mid in Hsorted as (_ & _ & HP & _).
    assert (all_lt P x) as HPx.
    { eapply Forall_impl; [exact HP|]. intros y Hy. eapply lt_eqv_trans; [exact Hy|].
      by apply eqv_sym. }
    by rewrite spec_lookup_app, (spec_lookup_all_lt x P HPx), spec_lookup_head.
  Qed.

  (** Without a match in the node, the lookup in the subtree is the lookup
      in the child at the insertion point. *)
Lemma spec_lookup_descend lo hi h b x p o :
    shape lo hi h b -> sorted (inorder b) ->
    search_result (keys b) x (- Z.of_nat p - 1)%Z -> children b !! p = Some o ->
    spec_lookup x (inorder b) = spec_lookup x (inorder_opt o).
  Proof.
    intros Hs Hsorted Hsr Ho.
    destruct (search_ctx_bounds _ _ _ _ _ _ Hs Hsorted Hsr) as (Hp & Hpre & Hpost).
    pose proof (length_kids_seq b (shape_sized _ _ _ _ Hs)) as Hlen.
    rewrite inorder_unfold. fold (kids_seq b).
    rewrite (weave_ctx_self _ _ p _ Hlen (lookup_kids_seq _ _ _ Hp Ho)).
    rewrite spec_lookup_app, (spec_lookup_all_lt x _ Hpre), spec_lookup_app.
    destruct (spec_lookup x (inorder_opt o)); [done|]. by apply spec_lookup_all_gt.
  Qed.

Lemma lookup_loop_spec h : forall lo hi b x,
    1 <= lo -> shape lo hi h b -> sorted (inorder b) ->
    exists res last, lookup_loop b x ⇓ ((res, last), []) /\
                     found res = spec_lookup x (inorder b) /\ reach b last /\
                     (forall p, res = Some p -> p.1 = last) /\
                     (res = None -> exists lo' hi', shape lo' hi' 0 last).
  Proof.
    induction h as [|h IH]; intros lo hi b x Hlo Hs Hsorted;
      destruct (node_search lo _ _ b x Hlo Hs Hsorted) as (r & Hr & Hsr);
      rewrite lookup_loop_eq, (bind_ok _ _ _ _ Hr);
      (inversion Hsr as [i k Hi Hxk | p Hp Hplo Hphi]; subst r;
       [case_decide; [|lia]; eexists _, b; split; [done|];
        split; [|split; [constructor|split; [by intros ? [= <-]|discriminate]]];
        unfold found, deref; cbn; rewrite Nat2Z.id, <-lookup_keys, Hi;
        [symmetry; eapply spec_lookup_found; eauto
        |rewrite <-(length_keys_shape _ _ _ _ Hs); eauto using lookup_lt_Some]
       |]);
      (case_decide; [lia|]);
      replace (Z.to_nat (- (- Z.of_nat p - 1) - 1)) with p by lia;
      rewrite with_child_spec;
      destruct (search_ctx_bounds _ _ _ _ _ _ Hs Hsorted Hsr) as (Hpn & _).
    - rewrite (shape_leaf_slot _ _ _ _ Hs Hpn). eexists None, b. split; [done|].
      split; [|split; [constructor|split; [discriminate|eauto]]].
      symmetry. exact (spec_lookup_descend _ _ _ _ _ _ None Hs Hsorted Hsr
                         (shape_leaf_slot _ _ _ _ Hs Hpn)).
    - destruct (shape_child _ _ _ _ _ Hs Hpn) as (c & Hc & Hsc). rewrite Hc.
      destruct (IH _ _ c x (factor_pos) Hsc (sorted_child _ _ _ _ _ _ Hs Hsorted Hpn Hc))
        as (res & last & Hrun & Hfound & Hreach & Hres).
      cbn. rewrite Hrun. eexists res, last. split; [done|]. split.
      + rewrite Hfound. symmetry. exact (spec_lookup_descend _ _ _ _ _ _ _ Hs Hsorted Hsr Hc).
      + split; [|done]. apply (reach_child _ c); [|done].
        apply elem_of_take. exists p. split; [done|lia].
  Qed.

  (** The lookup on a tree of height [h]. *)
Lemma bt_lookup_refines t h x :
    bt_wf_h t h -> exists res, bt_lookup t x ⇓ (res, []) /\ found res = spec_lookup x (bt_elements t).
  Proof.
    unfold bt_lookup, bt_lookup_node, bt_elements, bt_wf_h.
    destruct (root t) as [r|]; cbn; [|by exists None]. intros [Hs Hsorted].
    destruct (lookup_loop_spec h 1 _ r x ltac:(lia) Hs Hsorted) as (res & last & Hrun & Hf & _).
    rewrite Hrun. by exists res.
  Qed.

  (** C2: Lookup refines [spec_lookup]: on a well-formed tree, [bt_lookup]
      does not fault, emits no event, and the element at the returned
      pointer is the stored element that compares equal to the searched
      one ([NULL] when there is none). *)
Theorem bt_lookup_spec t x :
    bt_wf t -> exists res, bt_lookup t x ⇓ (res, []) /\ found res = spec_lookup x (bt_elements t).
  Proof. intros [h Hwf]. exact (bt_lookup_refines t h x Hwf). Qed.
  (** C32: The out-parameter [node] of [bt_lookup_node]: on a well-formed
      tree it is written exactly when the tree is not empty, with a node
      of the tree; when the key is found it is the node holding it, and
      when it is not found it is a leaf (the one where the key would be
      inserted). *)
Theorem bt_lookup_node_last t x :
    bt_wf t -> exists res last, bt_lookup_node t x ⇓ ((res, last), []) /\
      found res = spec_lookup x (bt_elements t) /\
      match root t, last with
      | None, None => True
      | Some r, Some l => reach r l /\ (forall p, res = Some p -> p.1 = l) /\
                          (res = None -> exists lo hi, shape lo hi 0 l)
      | _, _ => False
      end.
  Proof.
    intros [h Hwf]. unfold bt_lookup_node, bt_elements, bt_wf_h in *.
    destruct (root t) as [r|]; cbn; [|by exists None, None].
    destruct Hwf as [Hs Hsorted].
    destruct (lookup_loop_spec h 1 _ r x ltac:(lia) Hs Hsorted) as (res & last & Hrun & Hf & Hl).
    rewrite Hrun. by exists res, (Some last).
  Qed.
End LookupProofs.
