(* ===== verification/Split.v ===== *)
(** * Splitting an overflowing child

    [bt_split_node] of [src/mk_bt.h] (lines 273-302): the child at [idx]
    of [parent] holds [2 * BT_FACTOR + 1] keys; a new sibling receives
    its upper [BT_FACTOR] keys (and, for an internal child, its upper
    [BT_FACTOR + 1] children), the child keeps the lower [BT_FACTOR], the
    parent's children right of [idx] move one slot right to make room for
    the sibling, and the median key is returned for the caller to insert
    into the parent. The parent's keys are not touched.

    [split_node_spec] shows that on a well-formed overflowing child the
    split does not fault, leaves two stable halves of the same height,
    and loses nothing: the child's in-order sequence is the left half's,
    then the median, then the sibling's. *)

From S2P Require Import Prelude Order Spec Node Shape.

Section Split.
  Context `{Config} {E : Type} `{Elem E}.

Definition deref_node (o : option (bnode E)) : M E (bnode E) :=
    match o with Some b => mret b | None => raise NullDeref end.

Definition bt_split_node (parent : bnode E) (idx : nat) : M E (bnode E * E) :=
    (* struct bnode *child = parent->children[idx]; *)
    slot ← arr_get (children parent) idx;
    child ← deref_node slot;
    (* memmove(rchild + 1, rchild, (parent->n - idx) * SIZEOF_PTR); *)
    cs ← arr_shift_right (children parent) (S idx) (size_t_sub (n parent) idx);
    (* *rchild = calloc(1, sizeof(struct bnode)); *)
    let sib := bnode_calloc in
    (* memcpy(( *rchild)->elems, child->elems + BT_FACTOR + 1, BT_FACTOR * sizeof(BT_ELEM)); *)
    ses ← arr_copy (elems sib) (elems child) (S BT_FACTOR) BT_FACTOR;
    (* if (child->children[0]) memcpy(( *rchild)->children, child->children + BT_FACTOR + 1, ...); *)
    c0 ← arr_get (children child) 0;
    scs ← (match c0 with
           | Some _ => arr_copy (children sib) (children child) (S BT_FACTOR) (S BT_FACTOR)
           | None => mret (children sib)
           end);
    (* ( *rchild)->n = BT_FACTOR; child->n = BT_FACTOR; *)
    let sib := mk_bnode BT_FACTOR ses scs in
    let child := set_n BT_FACTOR child in
    cs ← arr_set cs (S idx) (Some sib);
    (* return child->elems[BT_FACTOR]; *)
    median ← arr_get (elems child) BT_FACTOR;
    mret (set_children (<[idx := Some child]> cs) parent, median).

  (** The sibling the split builds from [child], as a value. *)
Definition split_sibling (child : bnode E) : bnode E :=
    mk_bnode BT_FACTOR
      (take BT_FACTOR (drop (S BT_FACTOR) (elems child)) ++
         drop BT_FACTOR (replicate ELEMS_CAP calloc_elem))
      (match children child !! 0 with
       | Some (Some _) => take (S BT_FACTOR) (drop (S BT_FACTOR) (children child)) ++
                            drop (S BT_FACTOR) (replicate CHILDREN_CAP None)
       | _ => replicate CHILDREN_CAP None
       end).

  (** The parent's child array after the split. *)
Definition split_children (parent : bnode E) (idx : nat) (left sib : bnode E) :=
    <[idx := Some left]> (<[S idx := Some sib]>
      (shift_right (children parent) (S idx) (n parent - idx))).
End Split.

Section SplitProofs.
  Context `{ConfigOk} {E : Type} `{CmpOk E}.
  Implicit Types (b c : bnode E).

  Local Abbreviation F := BT_FACTOR.

Lemma map_replicate {A B} (f : A -> B) k (a : A) : map f (replicate k a) = replicate k (f a).
  Proof. induction k as [|k IH]; cbn; [done|]. by rewrite IH. Qed.

Lemma leaf_children lo hi c :
    shape lo hi 0 c -> children c = replicate CHILDREN_CAP None.
  Proof.
    inversion 1 as [? ? ? (Hes & Hcs & Hn) _ Hnone|]; subst.
    symmetry. apply replicate_as_Forall_2; [done|].
    eapply Forall_impl; [exact Hnone|]. by intros ? ->.
  Qed.

  (** The lower half keeps its array and its first [F + 1] children. *)
Lemma split_left_shape h c :
    shape F (2 * F + 1) h c -> n c = 2 * F + 1 -> shape F (2 * F) h (set_n F c).
  Proof.
    intros Hs Hn. pose proof factor_pos.
    inversion Hs as [? ? ? Hsz _ Hnone|? ? h' ? cs Hsz _ Hk Hall];
      subst.
    - apply shape_leaf; [apply sized_set_n; [done|unfold ELEMS_CAP; lia]|cbn; lia|done].
    - apply (shape_node _ _ _ _ (take (S F) cs));
        [apply sized_set_n; [done|unfold ELEMS_CAP; lia]|cbn; lia| |].
      + cbn. replace (take (S F) (children c)) with (take (S F) (take (S (n c)) (children c)))
          by (rewrite take_take; f_equal; lia).
        by rewrite Hk, firstn_map.
      + apply Forall_take. done.
  Qed.
Lemma length_sibling_elems c :
    length (elems c) = ELEMS_CAP ->
    length (take F (drop (S F) (elems c)) ++ drop F (replicate ELEMS_CAP calloc_elem)) = ELEMS_CAP.
  Proof.
    intros Hc. rewrite length_app, length_take, !length_drop, length_replicate.
    unfold ELEMS_CAP in *. lia.
  Qed.

Lemma length_sibling_children (cs : list (option (bnode E))) :
    length cs = CHILDREN_CAP ->
    length (take (S F) (drop (S F) cs) ++ drop (S F) (replicate CHILDREN_CAP None)) = CHILDREN_CAP.
  Proof.
    intros Hc. rewrite length_app, length_take, !length_drop, length_replicate.
    unfold CHILDREN_CAP in *. lia.
  Qed.

  (** The upper half gets the upper keys and children of the child. *)
Lemma split_sibling_shape h c :
    shape F (2 * F + 1) h c -> n c = 2 * F + 1 -> shape F (2 * F) h (split_sibling c).
  Proof.
    intros Hs Hn. pose proof factor_pos. pose proof (shape_sized _ _ _ _ Hs) as (Hce & Hcc & _).
    destruct h as [|h].
    - unfold split_sibling. rewrite (shape_leaf_slot _ _ _ 0 Hs) by lia.
      apply shape_leaf; cbn; [|lia|by apply Forall_replicate].
      split; [by apply length_sibling_elems|]. split; [apply length_replicate|].
      cbn [n]. unfold ELEMS_CAP. lia.
    - destruct (shape_child _ _ _ _ 0 Hs) as (c0 & Hc0 & _); [lia|].
      inversion Hs as [|? ? ? ? cs _ _ Hk Hall]; subst.
      pose proof (length_kids _ _ _ _ _ Hs Hk) as Hlen.
      unfold split_sibling. rewrite Hc0.
      apply (shape_node _ _ _ _ (drop (S F) cs)); cbn; [|lia| |by apply Forall_drop].
      + split; [by apply length_sibling_elems|]. split; [by apply length_sibling_children|].
        cbn [n]. unfold ELEMS_CAP. lia.
      + rewrite take_app_length' by (rewrite length_take, length_drop; unfold CHILDREN_CAP in *; lia).
        rewrite take_drop_commute. replace (S F + S F) with (S (n c)) by lia.
        by rewrite Hk, skipn_map.
  Qed.

  (** Nothing is lost: the child's sequence is the lower half's, the
      median, then the upper half's. *)
Lemma inorder_split h c m :
    shape F (2 * F + 1) h c -> n c = 2 * F + 1 -> elems c !! F = Some m ->
    inorder c = inorder (set_n F c) ++ m :: inorder (split_sibling c).
  Proof.
    intros Hs Hn Hm. pose proof factor_pos. pose proof (shape_sized _ _ _ _ Hs) as (Hce & Hcc & _).
    rewrite !inorder_unfold. unfold keys. cbn [n elems children set_n split_sibling].
    rewrite Hn. replace (S (2 * F + 1)) with (S F + S F) by lia.
    replace (2 * F + 1) with (F + S F) by lia.
    rewrite (take_mid (elems c) F F m Hm), take_add_app.
    rewrite weave_app_key by (rewrite !length_take, length_map; unfold CHILDREN_CAP, ELEMS_CAP in *; lia).
    f_equal. f_equal.
    rewrite take_app_length' with (n := F)
      by (rewrite length_take, length_drop; unfold ELEMS_CAP in *; lia).
    f_equal.
    destruct h as [|h].
    - rewrite (shape_leaf_slot _ _ _ 0 Hs) by lia.
      rewrite (leaf_children _ _ _ Hs), !map_replicate, drop_replicate, !take_replicate.
      f_equal. unfold CHILDREN_CAP. lia.
    - destruct (shape_child _ _ _ _ 0 Hs) as (c0 & Hc0 & _); [lia|]. rewrite Hc0.
      rewrite map_app, take_app_length'
        by (rewrite length_map, length_take, length_drop; unfold CHILDREN_CAP in *; lia).
      by rewrite skipn_map, firstn_map.
  Qed.
Lemma size_t_sub_small (a k : nat) : k <= a -> a <= ELEMS_CAP -> size_t_sub a k = Z.of_nat (a - k).
  Proof.
    intros. apply size_t_sub_nat; [done|]. pose proof factor_u32. unfold ELEMS_CAP in *. lia.
  Qed.

  (** [bt_split_node] on a parent of at most [2 * F] keys whose child at
      [idx] is a well-formed overflowing node: no fault, no event, and the
      result is the parent with the two halves in slots [idx] and
      [idx + 1], the children right of [idx] one slot further right, and
      the median returned. *)
Lemma split_node_spec parent i c h :
    sized parent -> n parent <= 2 * F -> i <= n parent ->
    children parent !! i = Some (Some c) ->
    shape F (2 * F + 1) h c -> n c = 2 * F + 1 ->
    exists m, elems c !! F = Some m /\
      bt_split_node parent i ⇓
        ((set_children (split_children parent i (set_n F c) (split_sibling c)) parent, m), []).
  Proof.
    intros (Hpe & Hpc & Hpn) Hn Hi Hc Hs Hnc. pose proof factor_pos.
    destruct (shape_sized _ _ _ _ Hs) as (Hce & Hcc & _).
    destruct (lookup_lt_is_Some_2 (elems c) F) as [m Hm]; [unfold ELEMS_CAP in *; lia|].
    exists m. split; [done|]. unfold bt_split_node.
    mstep (arr_get_ok (L:=E) _ _ _ Hc). cbn [deref_node]. rewrite bind_ret.
    rewrite size_t_sub_small by lia.
    mstep (arr_shift_right_ok (L:=E) (children parent) (S i) (n parent - i)
             ltac:(unfold CHILDREN_CAP in *; lia)).
    cbn [bnode_calloc elems children].
    mstep (arr_copy_ok (L:=E) (replicate ELEMS_CAP calloc_elem) (elems c) (S F) F
             ltac:(unfold ELEMS_CAP in *; lia) ltac:(rewrite length_replicate; unfold ELEMS_CAP; lia)).
    assert (S i < length (shift_right (children parent) (S i) (n parent - i))) as Hlen
      by (rewrite length_shift_right; unfold CHILDREN_CAP in *; lia).
    unfold split_children, split_sibling.
    destruct h as [|h].
    - pose proof (shape_leaf_slot _ _ _ 0 Hs ltac:(lia)) as Hc0.
      mstep (arr_get_ok (L:=E) _ _ _ Hc0). rewrite bind_ret, Hc0.
      rewrite bind_arr_set by exact Hlen.
      mstep (arr_get_ok (L:=E) (elems (set_n F c)) F m Hm). done.
    - destruct (shape_child _ _ _ _ 0 Hs ltac:(lia)) as (c0 & Hc0 & _).
      mstep (arr_get_ok (L:=E) _ _ _ Hc0). rewrite Hc0.
      mstep (arr_copy_ok (L:=E) (replicate CHILDREN_CAP None) (children c) (S F) (S F)
               ltac:(unfold CHILDREN_CAP in *; lia)
               ltac:(rewrite length_replicate; unfold CHILDREN_CAP; lia)).
      rewrite bind_arr_set by exact Hlen.
      mstep (arr_get_ok (L:=E) (elems (set_n F c)) F m Hm). done.
  Qed.

  (** The lower half of an internal node keeps, in its slot [F + 1], the
      first child of the sibling. *)
Lemma split_stale_slot h c :
    shape F (2 * F + 1) (S h) c -> n c = 2 * F + 1 ->
    exists g, children (set_n F c) !! S F = Some (Some g) /\
              children (split_sibling c) !! 0 = Some (Some g) /\ S (n (set_n F c)) <= S F.
  Proof.
    intros Hs Hn. pose proof factor_pos.
    destruct (shape_child _ _ _ _ (S F) Hs ltac:(lia)) as (g & Hg & _).
    destruct (shape_child _ _ _ _ 0 Hs ltac:(lia)) as (g0 & Hg0 & _).
    destruct (shape_sized _ _ _ _ Hs) as (_ & Hcc & _).
    exists g. split; [done|]. split; [|cbn; lia].
    unfold split_sibling. cbn [children]. rewrite Hg0.
    rewrite lookup_app_l by (rewrite length_take, length_drop; unfold CHILDREN_CAP in *; lia).
    rewrite lookup_take_lt, lookup_drop by lia. by rewrite Nat.add_0_r.
  Qed.

  (** C4: Splitting is correct: on a parent of at most [2 * F] keys whose
      child at [idx] is a well-formed overflowing node, [bt_split_node]
      does not fault and returns the parent with the lower half at [idx]
      and the new sibling at [idx + 1] (the children right of [idx] one
      slot further), and the median; both halves are stable nodes of the
      child's height, and the child's in-order sequence is the lower
      half's, the median, then the sibling's. *)
Theorem bt_split_correct parent i c h :
    sized parent -> n parent <= 2 * F -> i <= n parent ->
    children parent !! i = Some (Some c) ->
    shape F (2 * F + 1) h c -> n c = 2 * F + 1 ->
    exists m, bt_split_node parent i ⇓
        ((set_children (split_children parent i (set_n F c) (split_sibling c)) parent, m), []) /\
      shape F (2 * F) h (set_n F c) /\ shape F (2 * F) h (split_sibling c) /\
      inorder c = inorder (set_n F c) ++ m :: inorder (split_sibling c).
  Proof.
    intros Hsz Hn Hi Hc Hs Hnc.
    destruct (split_node_spec parent i c h Hsz Hn Hi Hc Hs Hnc) as (m & Hm & Hrun).
    exists m. split; [done|]. split; [by apply (split_left_shape h)|].
    split; [by apply (split_sibling_shape h)|]. by apply (inorder_split h).
  Qed.

  (** C15: After [bt_split_node] splits an internal child, the lower half
      it leaves at [children[idx]] holds [BT_FACTOR] keys but keeps its
      whole child array: its slot [BT_FACTOR + 1], past its
      [BT_FACTOR + 1] children, still points to the first child of the
      new sibling at [children[idx + 1]]. The two nodes share that
      subtree, and the lower half has more than [n + 1] filled child
      slots, against the data model of the specification. *)
Theorem split_left_stale parent i c h :
    sized parent -> n parent <= 2 * F -> i <= n parent ->
    children parent !! i = Some (Some c) ->
    shape F (2 * F + 1) (S h) c -> n c = 2 * F + 1 ->
    exists p' m lo hi g, bt_split_node parent i ⇓ ((p', m), []) /\
      children p' !! i = Some (Some lo) /\ children p' !! S i = Some (Some hi) /\
      n lo = F /\ children lo !! S F = Some (Some g) /\ children hi !! 0 = Some (Some g).
  Proof.
    intros Hsz Hn Hi Hc Hs Hnc. pose proof factor_pos.
    destruct (split_node_spec parent i c (S h) Hsz Hn Hi Hc Hs Hnc) as (m & _ & Hrun).
    destruct (split_stale_slot h c Hs Hnc) as (g & Hg & Hg0 & _).
    destruct Hsz as (_ & Hpc & _).
    assert (length (shift_right (children parent) (S i) (n parent - i)) = CHILDREN_CAP) as Hlen
      by (rewrite length_shift_right; unfold CHILDREN_CAP in *; lia).
    exists (set_children (split_children parent i (set_n F c) (split_sibling c)) parent), m, (set_n F c),
      (split_sibling c), g.
    split; [exact Hrun|].
    unfold split_children. cbn [children set_children].
    rewrite list_lookup_insert_eq by (rewrite length_insert, Hlen; unfold CHILDREN_CAP; lia).
    rewrite list_lookup_insert_ne, list_lookup_insert_eq by (rewrite ?Hlen; unfold CHILDREN_CAP; lia).
    by repeat split.
  Qed.
End SplitProofs.
