(* ===== verification/Insert.v ===== *)
(** * Insertion

    [bt_node_insert] and [bt_insert] of [src/mk_bt.h] (lines 303-358).
    [bt_node_insert] searches the node; on a match it overwrites the key
    (handing the old one to [*prev] or to [BT_ELEM_FREE]); otherwise it
    recurses into the child at the insertion point, and when that child
    overflowed to [2 * BT_FACTOR + 1] keys it splits it and inserts the
    median here; at a leaf it inserts the element itself. [bt_insert]
    runs it on the root and grows a new root when the tree was empty or
    the root overflowed.

    Nodes are values: the recursive call returns the updated child,
    which the caller writes back into the slot it read it from (the C
    code mutates the child through the same pointer). The out-parameter
    [prev] is modelled by whether it is [NULL] and by the value written
    to it.

    [bt_insert_spec] shows that insertion refines [spec_insert]: it keeps
    the tree well formed, its in-order sequence becomes [spec_insert] of
    the old one, and it reports a replacement exactly when [spec_lookup]
    found an equal element, which then goes to [*prev] or is freed. *)

From S2P Require Import Prelude Order Spec Node Shape Lookup Split.

Section Insert.
  Context `{Config} {E : Type} `{Elem E}.

  (** Lines 334-341: make room at [idx], store [elem], [node->n++]. *)
Definition node_insert_at (node : bnode E) (idx : nat) (elem : E) : M E (bnode E) :=
    es ← arr_shift_right (elems node) idx (size_t_sub (n node) idx);
    es ← arr_set es idx elem;
    mret (mk_bnode (u32_incr (n node)) es (children node)).

  (** The node [node_insert_at] builds, as a value. *)
Definition insert_at (node : bnode E) (idx : nat) (elem : E) : bnode E :=
    mk_bnode (S (n node)) (<[idx := elem]> (shift_right (elems node) idx (n node - idx)))
      (children node).

  (** [bt_node_insert node elem prev] returns the updated node, the
      boolean result, and what was written to [*prev] ([None] when
      nothing was). The argument [prev] says whether [prev] is not
      [NULL]. *)
Fixpoint bt_node_insert (node : bnode E) (elem : E) (prev : bool)
      : M E (bnode E * bool * option E) :=
    idx ← bt_node_bsearch node elem;
    if decide (0 <= idx)%Z then
      let i := Z.to_nat idx in
      (* if (prev) *prev = node->elems[idx]; else BT_ELEM_FREE(node->elems[idx]); *)
      old ← arr_get (elems node) i;
      _ ← (if prev then mret tt else emit old);
      (* node->elems[idx] = elem; return true; *)
      es ← arr_set (elems node) i elem;
      mret (set_elems es node, true, if prev then Some old else None)
    else
      let i := Z.to_nat (- idx - 1) in
      with_child
        (fun child =>
           '(child, replaced, pv) ← bt_node_insert child elem prev;
           let node := set_children (<[i := Some child]> (children node)) node in
           if decide (n child <= 2 * BT_FACTOR) then mret (node, replaced, pv)
           else
             '(node, median) ← bt_split_node node i;
             node ← node_insert_at node i median;
             mret (node, false, pv))
        (node ← node_insert_at node i elem; mret (node, false, None))
        (children node) i.

  (** Lines 350-355: the new root, with [bt->root] as its only child;
      when that child exists it is split and the median becomes the
      root's key, otherwise the key is [elem]. *)
Definition grow_root (old : option (bnode E)) (elem : E) : M E (bnode E) :=
    let new_root := set_n 1 bnode_calloc in
    cs ← arr_set (children new_root) 0 old;
    let new_root := set_children cs new_root in
    '(new_root, e0) ← (match old with
                       | Some _ => bt_split_node new_root 0
                       | None => mret (new_root, elem)
                       end);
    es ← arr_set (elems new_root) 0 e0;
    mret (set_elems es new_root).

Definition bt_insert (t : bt E) (elem : E) (prev : bool) : M E (bt E * bool * option E) :=
    '(r, replaced, pv) ← (match root t with
                          | Some r => '(r, rep, pv) ← bt_node_insert r elem prev;
                                      mret (Some r, rep, pv)
                          | None => mret (None, false, None)
                          end);
    (* if (!bt->root || bt->root->n > 2 * BT_FACTOR) *)
    if (match r with None => true | Some r => bool_decide (2 * BT_FACTOR < n r) end) then
      new_root ← grow_root r elem;
      mret (mk_bt (Some new_root) (size t), replaced, pv)
    else mret (mk_bt r (size t), replaced, pv).
End Insert.

Section InsertProofs.
  Context `{ConfigOk} {E : Type} `{CmpOk E}.
  Implicit Types (b c : bnode E) (x : E).

  Local Abbreviation F := BT_FACTOR.

  (** *** Inserting a key into a node with room *)

Lemma node_insert_at_ok b i x :
    sized b -> n b <= 2 * F -> i <= n b -> node_insert_at b i x ⇓ (insert_at b i x, []).
  Proof.
    intros (Hes & Hcs & Hn) Hn2 Hi. pose proof factor_u32. unfold node_insert_at.
    rewrite size_t_sub_small by lia.
    mstep (arr_shift_right_ok (L:=E) (elems b) i (n b - i) ltac:(unfold ELEMS_CAP in *; lia)).
    rewrite bind_arr_set by (rewrite length_shift_right; unfold ELEMS_CAP in *; lia).
    rewrite u32_incr_nat by (unfold ELEMS_CAP in *; lia). done.
  Qed.

Lemma sized_insert_at b i x : sized b -> n b <= 2 * F -> i <= n b -> sized (insert_at b i x).
  Proof.
    intros (Hes & Hcs & Hn) Hn2 Hi. unfold sized, insert_at; cbn.
    rewrite length_insert, length_shift_right; unfold ELEMS_CAP, CHILDREN_CAP in *; lia.
  Qed.

Lemma keys_insert_at b i x :
    sized b -> n b <= 2 * F -> i <= n b -> keys (insert_at b i x) = ins_at i x (keys b).
  Proof.
    intros (Hes & Hcs & Hn) Hn2 Hi. unfold keys, insert_at; cbn.
    apply take_shift_right_insert; unfold ELEMS_CAP in *; lia.
  Qed.

Lemma replicate_ins2 {A} (a : A) k p :
    p < k -> take p (replicate k a) ++ a :: a :: drop (S p) (replicate k a) = replicate (S k) a.
  Proof.
    intros Hp. rewrite take_replicate, drop_replicate, Nat.min_l by lia.
    change (a :: a :: replicate (k - S p) a) with (replicate 2 a ++ replicate (k - S p) a).
    rewrite <-!replicate_add. f_equal. lia.
  Qed.

  (** The in-order sequence of a node where the child sequence at [p]
      became two sequences around a new key at [p]. *)
Lemma inorder_ins2 b b' p m l1 l2 :
    sized b -> p <= n b ->
    keys b' = ins_at p m (keys b) ->
    kids_seq b' = take p (kids_seq b) ++ l1 :: l2 :: drop (S p) (kids_seq b) ->
    inorder b' = ctx_pre (kids_seq b) (keys b) p ++ (l1 ++ m :: l2) ++
                 ctx_post (kids_seq b) (keys b) p.
  Proof.
    intros Hsz Hp Hk Hl. pose proof (length_kids_seq b Hsz) as Hlen.
    destruct Hsz as (? & ? & ?).
    rewrite inorder_unfold. fold (kids_seq b'). rewrite Hk, Hl.
    apply weave_ctx_split; [done|]. rewrite Hlen, length_keys; lia.
  Qed.

  (** Insertion into a subsequence bounded by the context. *)
Lemma spec_insert_ctx x P l Q :
    all_lt P x -> all_gt x Q -> spec_insert x (P ++ l ++ Q) = P ++ spec_insert x l ++ Q.
  Proof. intros. by rewrite spec_insert_app_l, spec_insert_app_r. Qed.

Lemma spec_lookup_ctx x P l Q :
    all_lt P x -> all_gt x Q -> spec_lookup x (P ++ l ++ Q) = spec_lookup x l.
  Proof.
    intros HP HQ. rewrite spec_lookup_app, spec_lookup_all_lt, spec_lookup_app by done.
    destruct (spec_lookup x l); [done|]. by apply spec_lookup_all_gt.
  Qed.

Lemma length_split_children b p L R :
    sized b -> n b <= 2 * F -> p <= n b -> length (split_children b p L R) = CHILDREN_CAP.
  Proof.
    intros (Hes & Hcs & Hn) Hn2 Hp. unfold split_children.
    rewrite !length_insert, length_shift_right; unfold CHILDREN_CAP in *; lia.
  Qed.

  (** A node's in-order sequence around its child slot [p]. *)
Lemma inorder_ctx b p o :
    sized b -> p <= n b -> children b !! p = Some o ->
    inorder b = ctx_pre (kids_seq b) (keys b) p ++ inorder_opt o ++ ctx_post (kids_seq b) (keys b) p.
  Proof.
    intros Hsz Hp Ho. rewrite inorder_unfold. fold (kids_seq b).
    apply weave_ctx_self; [by apply length_kids_seq|by apply lookup_kids_seq].
  Qed.

  (** *** The three ways a node changes *)

  (** A key equal to [x] is overwritten by [x]. *)
Lemma replace_key lo hi h b i k x :
    shape lo hi h b -> sorted (inorder b) -> keys b !! i = Some k -> eqv x k ->
    shape lo hi h (set_elems (<[i:=x]> (elems b)) b) /\
    inorder (set_elems (<[i:=x]> (elems b)) b) = spec_insert x (inorder b) /\
    spec_lookup x (inorder b) = Some k.
  Proof.
    intros Hs Hsorted Hk Hxk. pose proof (shape_sized _ _ _ _ Hs) as Hsz.
    pose proof (lookup_lt_Some _ _ _ Hk) as Hi. rewrite (length_keys_shape _ _ _ _ Hs) in Hi.
    assert (keys (set_elems (<[i:=x]> (elems b)) b) = <[i:=x]> (keys b)) as Hkeys
      by (unfold keys; cbn; by rewrite take_insert_lt).
    split; [|split].
    - inversion Hs; subst;
        [apply shape_leaf|eapply shape_node]; eauto;
        apply sized_set_elems; [done| |done| ]; rewrite length_insert; apply Hsz.
    - destruct (weave_ctx_key (kids_seq b) (keys b) i) as (P & Q & HPQ);
        [by apply length_kids_seq|by rewrite (length_keys_shape _ _ _ _ Hs)|].
      assert (inorder b = P ++ k :: Q) as Hold.
      { rewrite inorder_unfold, <-HPQ. fold (kids_seq b). by rewrite list_insert_id. }
      rewrite inorder_unfold. change (take _ (map inorder_opt _)) with (kids_seq b).
      rewrite Hkeys, HPQ, Hold. rewrite Hold in Hsorted.
      apply sorted_mid in Hsorted as (_ & _ & HP & HQ).
      rewrite spec_insert_app_l, spec_insert_head by
        (done || (eapply Forall_impl; [exact HP|]; intros y Hy;
                  eapply lt_eqv_trans; [exact Hy|by apply eqv_sym])).
      done.
    - eapply spec_lookup_found; eauto.
  Qed.

Lemma kids_seq_leaf lo hi b : shape lo hi 0 b -> kids_seq b = replicate (S (n b)) [].
  Proof.
    intros Hs. destruct (shape_sized _ _ _ _ Hs) as (_ & _ & ?). unfold kids_seq.
    rewrite (leaf_children _ _ _ Hs), map_replicate, take_replicate, Nat.min_l; [done|].
    unfold CHILDREN_CAP, ELEMS_CAP in *. lia.
  Qed.

  (** A leaf takes the new key at the insertion point. *)
Lemma leaf_insert lo b p x :
    shape lo (2 * F) 0 b -> p <= n b ->
    shape lo (2 * F + 1) 0 (insert_at b p x) /\
    inorder (insert_at b p x) =
      ctx_pre (kids_seq b) (keys b) p ++ [x] ++ ctx_post (kids_seq b) (keys b) p.
  Proof.
    intros Hs Hp. pose proof (shape_sized _ _ _ _ Hs) as Hsz. pose proof (shape_n _ _ _ _ Hs).
    split.
    - apply shape_leaf; [apply sized_insert_at; [done|lia|done]|cbn; lia|].
      cbn. rewrite (leaf_children _ _ _ Hs). by apply Forall_replicate.
    - apply (inorder_ins2 b _ p x [] []); [done|done|apply keys_insert_at; [done|lia|done]|].
      rewrite (kids_seq_leaf _ _ _ Hs), replicate_ins2 by lia.
      unfold kids_seq, insert_at; cbn [n children].
      rewrite (leaf_children _ _ _ Hs), map_replicate, take_replicate, Nat.min_l; [done|].
      unfold CHILDREN_CAP. lia.
  Qed.

  (** A child that did not overflow is written back into its slot. *)
Lemma shape_set_child lo hi h b p c' :
    shape lo hi (S h) b -> p <= n b -> shape F (2 * F) h c' ->
    shape lo hi (S h) (set_children (<[p:=Some c']> (children b)) b) /\
    kids_seq (set_children (<[p:=Some c']> (children b)) b) = <[p:=inorder c']> (kids_seq b).
  Proof.
    intros Hs Hp Hc. inversion Hs as [|? ? ? ? cs Hsz Hn Hk Hall]; subst.
    pose proof (length_kids _ _ _ _ _ Hs Hk).
    split.
    - apply (shape_node _ _ _ _ (<[p:=c']> cs));
        [apply sized_set_children; [done|by rewrite length_insert; apply Hsz]|done| |].
      + cbn. rewrite take_insert_lt, Hk by lia. symmetry. apply (list_fmap_insert Some).
      + by apply Forall_insert.
    - unfold kids_seq. cbn. rewrite list_fmap_insert, take_insert_lt by lia. done.
  Qed.

  (** The first children of a parent after the split at [p]: the slot
      [p] became the two halves. *)
Lemma take_split_children b p c' L R cs :
    sized b -> n b <= 2 * F -> p <= n b -> take (S (n b)) (children b) = map Some cs ->
    take (S (S (n b))) (split_children (set_children (<[p:=Some c']> (children b)) b) p L R) =
      map Some (take p cs ++ L :: R :: drop (S p) cs).
  Proof.
    intros (Hes & Hcs & Hn) Hn2 Hp Hk. unfold split_children. cbn [children n set_children].
    rewrite take_insert_lt by lia.
    replace (n b - p) with (S (n b) - S p) by lia.
    rewrite take_shift_right_insert
      by (try rewrite length_insert; unfold CHILDREN_CAP in *; lia).
    rewrite take_insert_lt, Hk by lia.
    assert (length cs = S (n b)) as Hlen
      by (apply (f_equal length) in Hk; rewrite length_take, length_map in Hk;
          unfold CHILDREN_CAP in *; lia).
    rewrite insert_ins_at by (rewrite length_insert, length_map; lia).
    rewrite take_insert_ge, drop_insert_lt by lia.
    by rewrite map_app, firstn_map, skipn_map.
  Qed.

  (** An overflowing child is split and the median is inserted into the
      parent at the child's slot: the parent keeps its shape, with one
      key more, and its in-order sequence has the two halves and the
      median where the child was. *)
Lemma split_insert lo h b p c' m :
    shape lo (2 * F) (S h) b -> p <= n b -> shape F (2 * F + 1) h c' -> n c' = 2 * F + 1 ->
    let b1 := set_children (<[p:=Some c']> (children b)) b in
    let b2 := insert_at (set_children (split_children b1 p (set_n F c') (split_sibling c')) b1) p m in
    shape lo (2 * F + 1) (S h) b2 /\
    inorder b2 = ctx_pre (kids_seq b) (keys b) p ++
                   (inorder (set_n F c') ++ m :: inorder (split_sibling c')) ++
                   ctx_post (kids_seq b) (keys b) p.
  Proof.
    intros Hs Hp Hc Hnc b1 b2. inversion Hs as [|? ? ? ? cs Hsz Hn Hk Hall]; subst.
    pose proof (length_kids _ _ _ _ _ Hs Hk) as Hlen.
    pose proof (take_split_children b p c' (set_n F c') (split_sibling c') cs Hsz
                  ltac:(lia) Hp Hk) as Hch.
    assert (sized (set_children (split_children b1 p (set_n F c') (split_sibling c')) b1)) as Hsz1.
    { destruct Hsz as (? & ? & ?). split; [done|]. split; [|cbn; lia].
      unfold split_children. cbn [children set_children b1 n].
      rewrite !length_insert, length_shift_right; rewrite ?length_insert;
        unfold CHILDREN_CAP in *; lia. }
    split.
    - apply (shape_node _ _ _ _ (take p cs ++ set_n F c' :: split_sibling c' :: drop (S p) cs)).
      + apply sized_insert_at; [done|cbn; lia|cbn; lia].
      + cbn. lia.
      + exact Hch.
      + apply Forall_app. split; [by apply Forall_take|].
        constructor; [by apply split_left_shape|].
        constructor; [by apply split_sibling_shape|by apply Forall_drop].
    - apply (inorder_ins2 b); [done|done|apply (keys_insert_at _ p m Hsz1); cbn; lia|].
      unfold kids_seq at 1. subst b2 b1. cbn [insert_at children n set_children].
      rewrite firstn_map, Hch. unfold kids_seq. rewrite firstn_map, Hk.
      by rewrite !map_map, map_app, firstn_map, skipn_map.
  Qed.

  (** Inserting below the insertion point [p] is inserting into the
      node's whole sequence. *)
Lemma spec_insert_descend lo hi h b x p o :
    shape lo hi h b -> sorted (inorder b) ->
    search_result (keys b) x (- Z.of_nat p - 1)%Z -> children b !! p = Some o ->
    spec_insert x (inorder b) =
      ctx_pre (kids_seq b) (keys b) p ++ spec_insert x (inorder_opt o) ++
      ctx_post (kids_seq b) (keys b) p.
  Proof.
    intros Hs Hsorted Hsr Ho.
    destruct (search_ctx_bounds _ _ _ _ _ _ Hs Hsorted Hsr) as (Hp & Hpre & Hpost).
    rewrite (inorder_ctx b p o) by eauto using shape_sized.
    by apply spec_insert_ctx.
  Qed.

Lemma insert_via_child lo h b x p c c' :
    shape lo (2 * F) (S h) b -> sorted (inorder b) ->
    search_result (keys b) x (- Z.of_nat p - 1)%Z -> children b !! p = Some (Some c) ->
    shape F (2 * F) h c' -> inorder c' = spec_insert x (inorder c) ->
    shape lo (2 * F + 1) (S h) (set_children (<[p:=Some c']> (children b)) b) /\
    inorder (set_children (<[p:=Some c']> (children b)) b) = spec_insert x (inorder b).
  Proof.
    intros Hs Hsorted Hsr Hc Hc' Hin.
    destruct (search_ctx_bounds _ _ _ _ _ _ Hs Hsorted Hsr) as (Hp & _).
    destruct (shape_set_child _ _ _ _ _ _ Hs Hp Hc') as (Hs' & Hk).
    split; [eapply shape_rebound; [|exact Hs']; apply shape_n in Hs; cbn; lia|].
    rewrite (spec_insert_descend _ _ _ _ _ _ _ Hs Hsorted Hsr Hc). cbn [inorder_opt].
    rewrite <-Hin.
    rewrite inorder_unfold. fold (kids_seq (set_children (<[p:=Some c']> (children b)) b)).
    pose proof (shape_sized _ _ _ _ Hs) as Hsz.
    pose proof (length_kids_seq _ Hsz) as Hlen. rewrite (length_keys_shape _ _ _ _ Hs) in Hlen.
    rewrite Hk. apply weave_ctx_child; [by apply length_kids_seq|lia].
  Qed.

Lemma insert_via_split lo h b x p c c' m :
    shape lo (2 * F) (S h) b -> sorted (inorder b) ->
    search_result (keys b) x (- Z.of_nat p - 1)%Z -> children b !! p = Some (Some c) ->
    shape F (2 * F + 1) h c' -> n c' = 2 * F + 1 -> elems c' !! F = Some m ->
    inorder c' = spec_insert x (inorder c) ->
    let b1 := set_children (<[p:=Some c']> (children b)) b in
    let b2 := insert_at (set_children (split_children b1 p (set_n F c') (split_sibling c')) b1) p m in
    shape lo (2 * F + 1) (S h) b2 /\ inorder b2 = spec_insert x (inorder b).
  Proof.
    intros Hs Hsorted Hsr Hc Hc' Hn Hm Hin b1 b2.
    destruct (search_ctx_bounds _ _ _ _ _ _ Hs Hsorted Hsr) as (Hp & _).
    destruct (split_insert _ _ _ _ _ m Hs Hp Hc' Hn) as (Hs2 & Hin2).
    split; [done|]. subst b2 b1. rewrite Hin2, <-(inorder_split h c' m), Hin by done.
    symmetry. exact (spec_insert_descend _ _ _ _ _ _ _ Hs Hsorted Hsr Hc).
  Qed.

  (** *** The recursive insertion *)

Lemma bt_node_insert_eq b x (prev : bool) :
    bt_node_insert b x prev =
      (idx ← bt_node_bsearch b x;
       if decide (0 <= idx)%Z then
         let i := Z.to_nat idx in
         old ← arr_get (elems b) i;
         _ ← (if prev then mret tt else emit old);
         es ← arr_set (elems b) i x;
         mret (set_elems es b, true, if prev then Some old else None)
       else
         let i := Z.to_nat (- idx - 1) in
         with_child
           (fun child =>
              '(child, replaced, pv) ← bt_node_insert child x prev;
              let node := set_children (<[i := Some child]> (children b)) b in
              if decide (n child <= 2 * F) then mret (node, replaced, pv)
              else
                '(node, median) ← bt_split_node node i;
                node ← node_insert_at node i median;
                mret (node, false, pv))
           (node ← node_insert_at b i x; mret (node, false, None))
           (children b) i).
  Proof. by destruct b. Qed.

  (** What the insertion reports, given the contents [l] before it: a
      replacement exactly when [l] holds an element equal to [x], which
      goes to [*prev] when [prev] is given and to [BT_ELEM_FREE]
      otherwise; nothing else is written or freed. *)
Definition insert_outcome (x : E) (prev : bool) (l : list E)
      (rep : bool) (pv : option E) (w : list E) : Prop :=
    match spec_lookup x l with
    | Some old => rep = true /\ pv = (if prev then Some old else None) /\
                  w = (if prev then [] else [old])
    | None => rep = false /\ pv = None /\ w = []
    end.

  (** On a match the key is overwritten in place. *)
Lemma node_insert_found lo hi h b x (prev : bool) i k :
    shape lo hi h b -> sorted (inorder b) -> keys b !! i = Some k -> eqv x k ->
    exists w,
      (old ← arr_get (elems b) i;
       _ ← (if prev then mret tt else emit old);
       es ← arr_set (elems b) i x;
       (mret (set_elems es b, true, if prev then Some old else None)
          : M E (bnode E * bool * option E)))
        ⇓ ((set_elems (<[i:=x]> (elems b)) b, true, if prev then Some k else None), w) /\
      insert_outcome x prev (inorder b) true (if prev then Some k else None) w.
  Proof.
    intros Hs Hsorted Hk Hxk. destruct (replace_key _ _ _ _ _ _ x Hs Hsorted Hk Hxk) as (_ & _ & Hl).
    pose proof (lookup_lt_Some _ _ _ Hk) as Hi. rewrite (length_keys_shape _ _ _ _ Hs) in Hi.
    destruct (shape_sized _ _ _ _ Hs) as (Hes & _ & Hn).
    rewrite lookup_keys in Hk by done. mstep (arr_get_ok (L:=E) _ _ _ Hk).
    unfold insert_outcome. rewrite Hl.
    destruct prev; [rewrite bind_ret|]; rewrite bind_arr_set by (unfold ELEMS_CAP in *; lia);
      eexists; (split; [reflexivity|]); auto.
  Qed.

  (** [bt_node_insert] on a subtree of height [h] whose root has room
      for one more key: no fault; the result has the same height, its
      root may hold [2 * BT_FACTOR + 1] keys, its in-order sequence is
      [spec_insert] of the old one; a replacement leaves the root's key
      count unchanged; what is reported, written to [*prev] and freed is
      [insert_outcome]. *)
Lemma node_insert_spec h : forall lo b x prev,
    1 <= lo -> shape lo (2 * F) h b -> sorted (inorder b) ->
    exists b' rep pv w, bt_node_insert b x prev ⇓ ((b', rep, pv), w) /\
      shape lo (2 * F + 1) h b' /\ inorder b' = spec_insert x (inorder b) /\
      (rep = true -> n b' = n b) /\ insert_outcome x prev (inorder b) rep pv w.
  Proof.
    induction h as [|h IH]; intros lo b x prev Hlo Hs Hsorted;
      destruct (node_search lo _ _ b x Hlo Hs Hsorted) as (r & Hr & Hsr);
      rewrite bt_node_insert_eq; mstep Hr;
      (inversion Hsr as [i k Hi Hxk | p Hp Hplo Hphi]; subst r;
       [case_decide; [|lia]; rewrite Nat2Z.id;
        destruct (node_insert_found _ _ _ _ x prev _ _ Hs Hsorted Hi Hxk) as (w & Hrun & Hout);
        destruct (replace_key _ _ _ _ _ _ x Hs Hsorted Hi Hxk) as (Hs' & Hin & _);
        exists (set_elems (<[i:=x]> (elems b)) b), true, (if prev then Some k else None), w;
        split; [exact Hrun|]; split; [eapply shape_rebound; [|exact Hs']|];
        [apply shape_n in Hs; cbn; lia|auto]
       |]);
      (case_decide; [lia|]);
      replace (Z.to_nat (- (- Z.of_nat p - 1) - 1)) with p by lia;
      rewrite with_child_spec;
      destruct (search_ctx_bounds _ _ _ _ _ _ Hs Hsorted Hsr) as (Hpn & _);
      pose proof (shape_sized _ _ _ _ Hs) as Hsz; pose proof (shape_n _ _ _ _ Hs).
    - (* a leaf: insert here *)
      pose proof (shape_leaf_slot _ _ _ _ Hs Hpn) as Hnone. rewrite Hnone.
      mstep (node_insert_at_ok _ p x Hsz ltac:(lia) Hpn).
      destruct (leaf_insert _ _ _ x Hs Hpn) as (Hs' & Hin).
      exists (insert_at b p x), false, None, []. split; [done|]. split; [done|].
      unfold insert_outcome.
      rewrite (spec_insert_descend _ _ _ _ _ _ _ Hs Hsorted Hsr Hnone),
        (spec_lookup_descend _ _ _ _ _ _ _ Hs Hsorted Hsr Hnone).
      split; [exact Hin|]. cbn. split; [discriminate|auto].
    - (* an internal node: insert into the child *)
      destruct (shape_child _ _ _ _ _ Hs Hpn) as (c & Hc & Hsc). rewrite Hc. cbn iota beta.
      destruct (IH F c x prev factor_pos Hsc (sorted_child _ _ _ _ _ _ Hs Hsorted Hpn Hc))
        as (c' & rep & pv & w & Hrun & Hsc' & Hin & Hrep & Hout).
      rewrite (bind_ok _ _ _ _ Hrun). cbn iota beta.
      unfold insert_outcome. rewrite (spec_lookup_descend _ _ _ _ _ _ _ Hs Hsorted Hsr Hc).
      cbn [inorder_opt]. pose proof (shape_n _ _ _ _ Hsc). pose proof (shape_n _ _ _ _ Hsc').
      case_decide.
      + destruct (insert_via_child _ _ _ x _ _ c' Hs Hsorted Hsr Hc
                    ltac:(eapply shape_rebound; [|exact Hsc']; lia) Hin) as (Hs' & Hin').
        exists (set_children (<[p:=Some c']> (children b)) b), rep, pv, w.
        split; [cbn; by rewrite app_nil_r|]. auto.
      + (* the child overflowed: it was no replacement *)
        unfold insert_outcome in Hout. destruct (spec_lookup x (inorder c)).
        { destruct Hout as (-> & _). specialize (Hrep eq_refl). lia. }
        destruct Hout as (-> & -> & ->).
        assert (n c' = 2 * F + 1) as Hn' by lia.
        destruct (split_node_spec (set_children (<[p:=Some c']> (children b)) b) p c' h)
          as (m & Hm & Hsplit); [| |done| | |done|].
        { apply sized_set_children; [done|]. rewrite length_insert. apply Hsz. }
        { cbn. lia. }
        { cbn. apply list_lookup_insert_eq. destruct Hsz as (_ & -> & _).
          unfold CHILDREN_CAP, ELEMS_CAP in *. lia. }
        { eapply shape_rebound; [|exact Hsc']. lia. }
        rewrite (bind_ok_nil _ _ _ Hsplit). cbn iota beta.
        set (b1 := set_children (<[p:=Some c']> (children b)) b).
        assert (sized b1) as Hsz1
          by (apply sized_set_children; [done|by rewrite length_insert; apply Hsz]).
        assert (sized (set_children (split_children b1 p (set_n F c') (split_sibling c')) b1))
          as Hsz2 by (apply sized_set_children; [done|apply length_split_children; [done|cbn; lia..]]).
        mstep (node_insert_at_ok _ p m Hsz2 ltac:(cbn; lia) ltac:(cbn; lia)).
        destruct (insert_via_split _ _ _ x _ c c' m Hs Hsorted Hsr Hc
                    ltac:(eapply shape_rebound; [|exact Hsc']; lia) Hn' Hm Hin) as (Hs2 & Hin2).
        eexists _, false, None, []. split; [reflexivity|].
        split; [exact Hs2|]. split; [exact Hin2|]. split; [discriminate|auto].
  Qed.

  (** *** Inserting an element that is already stored *)

Lemma set_elems_id b i x : elems b !! i = Some x -> set_elems (<[i:=x]> (elems b)) b = b.
  Proof. intros Hx. rewrite list_insert_id by done. by destruct b. Qed.

Lemma set_children_id b i c :
    children b !! i = Some (Some c) -> set_children (<[i:=Some c]> (children b)) b = b.
  Proof. intros Hc. rewrite list_insert_id by done. by destruct b. Qed.

  (** Inserting [x] into a subtree that stores [x] itself overwrites [x]
      with [x] along the lookup path: the subtree comes back unchanged,
      the insertion reports a replacement of [x], and no node splits. *)
Lemma node_reinsert h : forall lo hi b x prev,
    1 <= lo -> shape lo hi h b -> sorted (inorder b) -> spec_lookup x (inorder b) = Some x ->
    bt_node_insert b x prev ⇓ ((b, true, if prev then Some x else None), if prev then [] else [x]).
  Proof.
    induction h as [|h IH]; intros lo hi b x prev Hlo Hs Hsorted Hx;
      destruct (node_search lo _ _ b x Hlo Hs Hsorted) as (r & Hr & Hsr);
      rewrite bt_node_insert_eq; mstep Hr;
      (inversion Hsr as [i k Hi Hxk | p Hp Hplo Hphi]; subst r;
       [case_decide; [|lia]; rewrite Nat2Z.id;
        rewrite (spec_lookup_found _ _ _ _ _ _ _ Hs Hsorted Hi Hxk) in Hx; injection Hx as Hkx; subst x;
        destruct (node_insert_found _ _ _ _ _ prev _ _ Hs Hsorted Hi Hxk) as (w & Hrun & Hout);
        unfold insert_outcome in Hout; rewrite (spec_lookup_found _ _ _ _ _ _ _ Hs Hsorted Hi Hxk) in Hout;
        destruct Hout as (_ & _ & ->); cbv zeta; rewrite Hrun, set_elems_id; [done|];
        rewrite <-lookup_keys; [done|];
        rewrite <-(length_keys_shape _ _ _ _ Hs); eauto using lookup_lt_Some
       |]);
      (case_decide; [lia|]);
      replace (Z.to_nat (- (- Z.of_nat p - 1) - 1)) with p by lia;
      rewrite with_child_spec;
      destruct (search_ctx_bounds _ _ _ _ _ _ Hs Hsorted Hsr) as (Hpn & _).
    - (* a leaf holds no element past its keys *)
      pose proof (shape_leaf_slot _ _ _ _ Hs Hpn) as Hnone.
      by rewrite (spec_lookup_descend _ _ _ _ _ _ _ Hs Hsorted Hsr Hnone) in Hx.
    - destruct (shape_child _ _ _ _ _ Hs Hpn) as (c & Hc & Hsc). rewrite Hc. cbn iota beta.
      rewrite (spec_lookup_descend _ _ _ _ _ _ _ Hs Hsorted Hsr Hc) in Hx.
      rewrite (bind_ok _ _ _ _ (IH _ _ c x prev factor_pos Hsc
                                   (sorted_child _ _ _ _ _ _ Hs Hsorted Hpn Hc) Hx)).
      cbn iota beta. rewrite set_children_id by done.
      pose proof (shape_n _ _ _ _ Hsc). rewrite decide_True by lia. cbn. by rewrite app_nil_r.
  Qed.

  (** *** Growing a new root *)

Lemma replicate_SS {A} (a : A) k : replicate (k + 2) a = a :: a :: replicate k a.
  Proof. rewrite Nat.add_comm. done. Qed.

  (** An empty tree gets a one-key leaf as its root. *)
Lemma grow_root_none x :
    exists r, grow_root None x ⇓ (r, []) /\ shape 1 (2 * F) 0 r /\ inorder r = [x].
  Proof.
    pose proof factor_pos. unfold grow_root, bnode_calloc. cbn [set_n children elems].
    rewrite bind_arr_set by (rewrite length_replicate; unfold CHILDREN_CAP; lia).
    rewrite bind_ret. cbn beta iota. cbn [set_children set_n elems].
    rewrite bind_arr_set by (rewrite length_replicate; unfold ELEMS_CAP; lia).
    eexists. split; [reflexivity|]. split.
    - apply shape_leaf; cbn; [|lia|].
      + unfold sized; cbn. rewrite !length_insert, !length_replicate. unfold ELEMS_CAP. lia.
      + apply Forall_insert; [by apply Forall_replicate|done].
    - unfold inorder. cbn [n children elems set_elems set_children]. unfold ELEMS_CAP, CHILDREN_CAP.
      rewrite Nat.add_comm, replicate_SS. done.
  Qed.

  (** An overflowing root is split under a new root holding the median. *)
Lemma grow_root_some r h x :
    shape 1 (2 * F + 1) h r -> n r = 2 * F + 1 ->
    exists r', grow_root (Some r) x ⇓ (r', []) /\ shape 1 (2 * F) (S h) r' /\ inorder r' = inorder r.
  Proof.
    intros Hs Hn. pose proof factor_pos. unfold grow_root, bnode_calloc. cbn [set_n children elems].
    rewrite bind_arr_set by (rewrite length_replicate; unfold CHILDREN_CAP; lia).
    set (nr := set_children (<[0:=Some r]> (replicate CHILDREN_CAP None))
                 (mk_bnode 1 (replicate ELEMS_CAP calloc_elem) (replicate CHILDREN_CAP None))).
    assert (shape F (2 * F + 1) h r) as Hs' by (eapply shape_rebound; [|exact Hs]; lia).
    destruct (split_node_spec nr 0 r h) as (m & Hm & Hsplit); [| |lia| |done|done|].
    { unfold sized, nr; cbn. rewrite length_insert, !length_replicate. unfold ELEMS_CAP. lia. }
    { cbn. lia. }
    { cbn. apply list_lookup_insert_eq. rewrite length_replicate. unfold CHILDREN_CAP. lia. }
    rewrite (bind_ok_nil _ _ _ Hsplit). cbn beta iota.
    rewrite bind_arr_set by (cbn; rewrite length_replicate; unfold ELEMS_CAP; lia).
    eexists. split; [reflexivity|].
    assert (take 2 (split_children nr 0 (set_n F r) (split_sibling r)) =
              [Some (set_n F r); Some (split_sibling r)]) as Hch.
    { unfold split_children, nr. cbn [children n set_children].
      unfold CHILDREN_CAP. rewrite replicate_SS. reflexivity. }
    assert (ELEMS_CAP = S (2 * F)) as Hcap by (unfold ELEMS_CAP; lia).
    assert (shape 1 (2 * F) (S h)
              (set_elems (<[0:=m]> (elems (set_children
                 (split_children nr 0 (set_n F r) (split_sibling r)) nr)))
                 (set_children (split_children nr 0 (set_n F r) (split_sibling r)) nr)))
      as Hs2.
    { apply (shape_node _ _ _ _ [set_n F r; split_sibling r]); cbn [n set_elems set_children nr];
        [|lia|exact Hch|].
      - unfold sized. cbn. rewrite length_insert, length_replicate, length_split_children;
          [unfold CHILDREN_CAP; lia|..].
        + unfold nr, sized; cbn. rewrite length_insert, !length_replicate. unfold ELEMS_CAP. lia.
        + cbn. lia.
        + cbn. lia.
      - repeat constructor; [by apply split_left_shape|by apply split_sibling_shape]. }
    split; [exact Hs2|].
    rewrite (inorder_node _ _ _ _ [set_n F r; split_sibling r] Hs2 Hch), (inorder_split h r m Hs' Hn Hm).
    unfold keys. cbn [set_elems set_children n elems nr]. rewrite Hcap. reflexivity.
  Qed.

  (** *** The refinement theorem *)

  (** Insertion refines [spec_insert]: on a well-formed tree [bt_insert]
      does not fault, the tree stays well formed, its contents become
      [spec_insert x] of the old contents, [size] is left as it was, and
      the result, [*prev] and the freed elements are those of
      [insert_outcome]. *)
Theorem bt_insert_refines t x prev :
    bt_wf t -> exists t' rep pv w, bt_insert t x prev ⇓ ((t', rep, pv), w) /\ bt_wf t' /\
      bt_elements t' = spec_insert x (bt_elements t) /\ size t' = size t /\
      insert_outcome x prev (bt_elements t) rep pv w.
  Proof.
    intros [h Hwf]. unfold bt_insert, bt_wf_h, bt_elements in *.
    destruct (root t) as [r|]; cbn [inorder_opt].
    - destruct Hwf as [Hs Hsorted].
      destruct (node_insert_spec h 1 r x prev ltac:(lia) Hs Hsorted)
        as (r' & rep & pv & w & Hrun & Hs' & Hin & _ & Hout).
      pose proof (shape_n _ _ _ _ Hs').
      assert (Hsorted' : sorted (inorder r')) by (rewrite Hin; by apply sorted_spec_insert).
      assert (('(r0, rep0, pv0) ← bt_node_insert r x prev; mret (Some r0, rep0, pv0) : M E _)
                ⇓ ((Some r', rep, pv), w)) as Hm
        by (rewrite (bind_ok _ _ _ _ Hrun); cbn; by rewrite app_nil_r).
      rewrite (bind_ok _ _ _ _ Hm). cbn iota beta.
      destruct (decide (n r' <= 2 * F)).
      + rewrite bool_decide_false by lia. cbn.
        eexists _, rep, pv, w. rewrite app_nil_r. split; [reflexivity|].
        split; [exists h; split; [eapply shape_rebound; [|exact Hs']; lia|done]|]. auto.
      + rewrite bool_decide_true by lia.
        destruct (grow_root_some r' h x Hs' ltac:(lia)) as (r'' & Hg & Hs'' & Hin'').
        rewrite (bind_ok_nil _ _ _ Hg). cbn.
        eexists _, rep, pv, w. rewrite app_nil_r. split; [reflexivity|].
        split; [exists (S h); split; [done|by rewrite Hin'']|].
        cbn [inorder_opt root size]. rewrite Hin''. auto.
    - destruct (grow_root_none x) as (r & Hg & Hs & Hin).
      rewrite bind_ret. cbn iota beta. rewrite (bind_ok_nil _ _ _ Hg).
      eexists _, false, None, []. split; [reflexivity|].
      split; [exists 0; split; [done|rewrite Hin; apply sorted_cons; split; constructor]|].
      cbn [inorder_opt root size]. rewrite Hin. unfold insert_outcome. cbn. auto.
  Qed.

  (** C1: Insertion refines [spec_insert]: on a well-formed tree [bt_insert]
      does not fault, the tree stays well formed, its contents become
      [spec_insert x] of the old contents (so their number grows by one
      exactly when no stored element compared equal), [size] is left as
      it was, and the result, [*prev] and the freed elements are those
      of [insert_outcome]. *)
Theorem bt_insert_spec t x prev :
    bt_wf t -> exists t' rep pv w, bt_insert t x prev ⇓ ((t', rep, pv), w) /\ bt_wf t' /\
      bt_elements t' = spec_insert x (bt_elements t) /\
      length (bt_elements t') = (if rep then length (bt_elements t) else S (length (bt_elements t))) /\
      size t' = size t /\ insert_outcome x prev (bt_elements t) rep pv w.
  Proof.
    intros Hwf.
    destruct (bt_insert_refines t x prev Hwf) as (t' & rep & pv & w & Hrun & Hwf' & Hel & Hsz & Hout).
    exists t', rep, pv, w. do 2 (split; [done|]). split; [done|]. split; [|done].
    destruct Hwf as [h Hwf].
    rewrite Hel, length_spec_insert by exact (bt_wf_sorted t h Hwf). unfold insert_outcome in Hout.
    destruct (spec_lookup x (bt_elements t)); destruct Hout as (-> & _); done.
  Qed.

  (** C10: Lookup after insertion: the inserted element answers for every
      element equal to it; the others find what they found before. *)
Corollary bt_insert_lookup t x prev y :
    bt_wf t -> exists t' rep pv w, bt_insert t x prev ⇓ ((t', rep, pv), w) /\
      exists res, bt_lookup t' y ⇓ (res, []) /\
        found res = if decide (eqv y x) then Some x else spec_lookup y (bt_elements t).
  Proof.
    intros Hwf. destruct (bt_insert_refines t x prev Hwf) as (t' & rep & pv & w & Hrun & Hwf' & Hel & _).
    exists t', rep, pv, w. split; [done|].
    destruct Hwf' as [h' Hwf']. destruct (bt_lookup_refines t' h' y Hwf') as (res & Hres & Hf).
    exists res. split; [done|]. destruct Hwf as [h Hwf].
    rewrite Hf, Hel. pose proof (bt_wf_sorted t h Hwf).
    case_decide; [by apply spec_lookup_insert_eqv|by apply spec_lookup_insert_ne].
  Qed.

  (** C11: Boundary: a lookup in the empty tree finds nothing without a
      fault, and an insertion into it makes a one-key leaf root. *)
Theorem bt_empty_boundary x y prev :
    bt_lookup bt_mk y ⇓ (None, []) /\
    exists r, bt_insert bt_mk x prev ⇓ ((mk_bt (Some r) 0, false, None), []) /\
              shape 1 (2 * F) 0 r /\ inorder r = [x].
  Proof.
    split; [done|]. destruct (grow_root_none x) as (r & Hg & Hs & Hin).
    exists r. split; [|done]. unfold bt_insert. cbn [root bt_mk]. rewrite bind_ret.
    cbn iota beta. by rewrite (bind_ok_nil _ _ _ Hg).
  Qed.

  (** C13: [bt_insert] never writes [bt->size]: the element count the header
      of [struct bt] promises stays at its initial [0]. *)
Theorem bt_insert_size t x prev t' rep pv w :
    bt_insert t x prev ⇓ ((t', rep, pv), w) -> size t' = size t.
  Proof.
    unfold bt_insert. intros (([r rep'] & pv') & w1 & w2 & _ & Hk & _)%bind_inv.
    cbn in Hk. destruct (match r with Some r => _ | None => true end).
    - apply bind_inv in Hk as (nr & ? & ? & _ & Hret & _). by injection Hret as <-.
    - by injection Hk as <-.
  Qed.

  (** C17: Idempotent re-insertion: inserting [x] into a well-formed tree
      and then inserting [x] again gives back the very tree of the first
      insertion (no node split, no key moved, the slot of [x] rewritten
      with [x]); the second insertion reports a replacement whose previous
      value is [x], handed to [*prev] or to [BT_ELEM_FREE]. *)
Theorem bt_insert_idempotent t x prev prev' t' rep pv w :
    bt_wf t -> bt_insert t x prev ⇓ ((t', rep, pv), w) ->
    bt_insert t' x prev' ⇓ ((t', true, if prev' then Some x else None), if prev' then [] else [x]).
  Proof.
    intros Hwf Hrun. destruct (bt_insert_refines t x prev Hwf) as (t1 & ? & ? & ? & Hrun1 & [h Hwf1] & Hel & _).
    rewrite Hrun in Hrun1. injection Hrun1 as <- <- <- <-.
    assert (spec_lookup x (bt_elements t') = Some x) as Hx.
    { destruct Hwf as [h0 Hwf0]. rewrite Hel.
      apply spec_lookup_insert_eqv; [exact (bt_wf_sorted t h0 Hwf0)|apply cmp_refl]. }
    unfold bt_insert, bt_elements, bt_wf_h in *. destruct t' as [[r|] sz]; cbn in *; [|done].
    destruct Hwf1 as [Hs Hsorted].
    rewrite (bind_ok _ _ _ _ (node_reinsert h 1 _ r x prev' ltac:(lia) Hs Hsorted Hx)).
    pose proof (shape_n _ _ _ _ Hs). cbn. rewrite bool_decide_false by lia. cbn.
    by rewrite !app_nil_r.
  Qed.
End InsertProofs.
