(* ===== verification/Layout.v ===== *)
(** * The C layout of the nodes, a type invariant

    [struct bnode] declares [elems] with [2 * BT_FACTOR + 1] slots and
    [children] with [2 * BT_FACTOR + 2]; [n] counts the keys. [layout b]
    says that [b] and every node reachable from any of its child slots
    (the stale ones included) have arrays of those lengths and at most
    [2 * BT_FACTOR + 1] keys: what the C type of the nodes guarantees.
    The insertion keeps it on every tree, well formed or not, whenever
    it returns ([bt_insert_layout]): no array changes length, a write
    past an array is a fault, and the nodes [calloc] creates have the
    layout. Together with the absence of faults on well-formed trees,
    every run of insertions keeps it ([insert_seq_layout] in
    [Build.v]). *)

From S2P Require Import Prelude Order Spec Node Shape Split Insert.

Section Layout.
  Context `{Config} {E : Type} `{Elem E}.

Inductive layout : bnode E -> Prop :=
    | layout_intro b : sized b -> (forall c, Some c ∈ children b -> layout c) -> layout b.

Definition bt_layout (t : bt E) : Prop :=
    match root t with Some r => layout r | None => True end.

  (** An executable check of the layout, for concrete trees. *)
#[local] Instance sized_decision (b : bnode E) : Decision (sized b).
  Proof. unfold sized. apply _. Defined.

Fixpoint layoutb (b : bnode E) : bool :=
    bool_decide (sized b) &&
    forallb (fun o => match o with Some c => layoutb c | None => true end) (children b).
End Layout.

Section LayoutProofs.
  Context `{ConfigOk} {E : Type} `{CmpOk E}.
  Implicit Types (b c : bnode E) (cs : list (option (bnode E))).

  Local Abbreviation F := BT_FACTOR.

  (** The nodes in the slots of a child array have the layout. *)
Definition kids_ok cs : Prop := forall c, Some c ∈ cs -> layout c.

Lemma layout_inv b : layout b -> sized b /\ kids_ok (children b).
  Proof. by inversion 1. Qed.

Lemma kids_ok_sub cs cs' : cs' ⊆ cs -> kids_ok cs -> kids_ok cs'.
  Proof. intros Hsub Hk c Hc. apply Hk, Hsub, Hc. Qed.

Lemma kids_ok_app cs cs' : kids_ok cs -> kids_ok cs' -> kids_ok (cs ++ cs').
  Proof. intros Hk Hk' c [Hc|Hc]%elem_of_app; auto. Qed.

Lemma kids_ok_replicate k : kids_ok (replicate k None).
  Proof. intros c (Hc & _)%elem_of_replicate. discriminate. Qed.

Lemma elem_of_list_insert_inv {X} (l : list X) i y x : x ∈ <[i:=y]> l -> x = y \/ x ∈ l.
  Proof.
    revert i. induction l as [|z l IH]; intros [|i]; cbn; rewrite ?elem_of_cons; [set_solver..|naive_solver|].
    intros [->|Hx]; [auto|]. destruct (IH i Hx); auto.
  Qed.

Lemma kids_ok_insert cs i o :
    kids_ok cs -> (forall c, o = Some c -> layout c) -> kids_ok (<[i:=o]> cs).
  Proof. intros Hk Ho c [Hc|Hc]%elem_of_list_insert_inv; [by apply Ho|by apply Hk]. Qed.

Lemma layoutb_sound b : layoutb b = true -> layout b.
  Proof.
    induction b as [b IH] using bnode_ind'. destruct b as [k es cs]. cbn.
    intros [Hsz Hall]%andb_prop. apply bool_decide_eq_true in Hsz.
    constructor; [done|]. intros c Hc. apply IH; [done|].
    rewrite forallb_forall in Hall. apply list_elem_of_In in Hc. exact (Hall _ Hc).
  Qed.

Lemma bt_layoutb_sound (t : bt E) :
    match root t with Some r => layoutb r | None => true end = true -> bt_layout t.
  Proof. unfold bt_layout. destruct (root t); [apply layoutb_sound|done]. Qed.

  (** ** What a primitive that returned wrote *)

Lemma arr_get_run {X} (a : list X) i x w : (arr_get a i : M E X) ⇓ (x, w) -> a !! i = Some x.
  Proof. unfold arr_get. by destruct (a !! i); [intros [= -> _]|]. Qed.

Lemma arr_set_run {X} (a : list X) i x a' w : (arr_set a i x : M E _) ⇓ (a', w) -> a' = <[i:=x]> a.
  Proof. unfold arr_set. by case_decide; [intros [= <- _]|]. Qed.

Lemma subseteq_shift_right {X} (a : list X) i k : shift_right a i k ⊆ a.
  Proof.
    unfold shift_right. pose proof (subseteq_take (S i) a). pose proof (subseteq_drop (S i + k) a).
    pose proof (subseteq_take k (drop i a)). pose proof (subseteq_drop i a). set_solver.
  Qed.

Lemma arr_shift_right_run {X} (a : list X) i len a' w :
    (arr_shift_right a i len : M E _) ⇓ (a', w) ->
    length a' = length a /\ a' ⊆ a /\ (0 <= len /\ Z.of_nat i + len + 1 <= Z.of_nat (length a))%Z.
  Proof.
    unfold arr_shift_right. case_decide as Hc; [intros [= <- _]|done].
    split; [apply length_shift_right; lia|]. split; [apply subseteq_shift_right|done].
  Qed.

Lemma arr_copy_run {X} (dst src : list X) off len a' w :
    (arr_copy dst src off len : M E _) ⇓ (a', w) -> length a' = length dst /\ a' ⊆ src ++ dst.
  Proof.
    unfold arr_copy. case_decide as Hc; [intros [= <- _]|done].
    split; [apply length_arr_copy; lia|].
    pose proof (subseteq_take len (drop off src)). pose proof (subseteq_drop off src).
    pose proof (subseteq_drop len dst). set_solver.
  Qed.

  (** [memmove(p + 1, p, (n - idx) * ...)] that returned covers the slots
      up to [n]: the key count has room for one more. *)
Lemma size_t_sub_cover (p q : nat) :
    (Z.of_nat p < 2 ^ 64)%Z -> (Z.of_nat q < 2 ^ 64)%Z -> (Z.of_nat q <= Z.of_nat p + size_t_sub q p)%Z.
  Proof.
    unfold size_t_sub. intros Hp Hq. destruct (decide (p <= q)).
    - rewrite Z.mod_small by lia. lia.
    - rewrite <-(Z_mod_plus_full _ 1), Z.mod_small by lia. lia.
  Qed.
  (** Step over a bind in a run that returned. *)
Ltac run_inv H x Hx := apply bind_inv in H as (x & ? & ? & Hx & H & _).

Lemma layout_intro' b : sized b -> kids_ok (children b) -> layout b.
  Proof. intros. by constructor. Qed.

  (** ** The steps of the insertion *)

Lemma node_insert_at_layout b i x b' w :
    layout b -> node_insert_at b i x ⇓ (b', w) -> layout b'.
  Proof.
    intros Hl Hrun. destruct (layout_inv b Hl) as [(Hes & Hcs & Hn) Hk].
    unfold node_insert_at in Hrun. run_inv Hrun es Hsh. run_inv Hrun es' Hset.
    injection Hrun as <- _. apply arr_shift_right_run in Hsh as (Hlen & _ & Hle).
    apply arr_set_run in Hset as ->. pose proof factor_u32.
    pose proof (size_t_sub_cover i (n b)). unfold ELEMS_CAP, CHILDREN_CAP in *.
    rewrite u32_incr_nat by lia. apply layout_intro'; [|done].
    split; [cbn; rewrite length_insert; lia|]. split; [done|]. cbn. lia.
  Qed.

Lemma set_n_layout c k : layout c -> k <= ELEMS_CAP -> layout (set_n k c).
  Proof. intros [Hsz Hk]%layout_inv Hkk. by apply layout_intro'; [apply sized_set_n|]. Qed.

Lemma split_layout p i p' m w :
    sized p -> kids_ok (children p) -> bt_split_node p i ⇓ ((p', m), w) ->
    sized p' /\ kids_ok (children p').
  Proof.
    intros Hsz Hk Hrun. unfold bt_split_node in Hrun. cbv zeta in Hrun.
    run_inv Hrun slot Hslot. run_inv Hrun child Hchild. run_inv Hrun cs Hsh.
    run_inv Hrun ses Hses. run_inv Hrun s0 Hs0. run_inv Hrun scs Hscs.
    run_inv Hrun cs' Hset. run_inv Hrun med Hmed. injection Hrun as <- _.
    apply arr_get_run in Hslot. destruct slot as [c|]; [|discriminate]. injection Hchild as <- _.
    assert (layout c) as Hc by (apply Hk; by eapply list_elem_of_lookup_2).
    destruct (layout_inv c Hc) as [Hszc Hkc].
    apply arr_shift_right_run in Hsh as (Hlen & Hsub & _). apply arr_set_run in Hset as ->.
    apply arr_copy_run in Hses as (Hlses & _).
    assert (length scs = CHILDREN_CAP /\ kids_ok scs) as [Hlscs Hkscs].
    { destruct s0; [apply arr_copy_run in Hscs as (-> & Hsub')|injection Hscs as <- _].
      - cbn. rewrite length_replicate. split; [done|].
        apply (kids_ok_sub _ _ Hsub'), kids_ok_app; [done|apply kids_ok_replicate].
      - cbn. rewrite length_replicate. split; [done|apply kids_ok_replicate]. }
    assert (layout (mk_bnode F ses scs)) as Hsib.
    { apply layout_intro'; [|done]. cbn in Hlses. rewrite length_replicate in Hlses.
      split; [done|]. split; [done|]. cbn. unfold ELEMS_CAP. lia. }
    destruct Hsz as (Hes & Hcs & Hn). split.
    - split; [done|]. split; [|done]. cbn. rewrite !length_insert. unfold CHILDREN_CAP in *. lia.
    - cbn. apply kids_ok_insert; [apply kids_ok_insert; [exact (kids_ok_sub _ _ Hsub Hk)|]|].
      + by intros ? [= <-].
      + intros ? [= <-]. apply set_n_layout; [done|unfold ELEMS_CAP; lia].
  Qed.
Lemma grow_root_layout o x r w :
    (forall c, o = Some c -> layout c) -> grow_root o x ⇓ (r, w) -> layout r.
  Proof.
    intros Ho Hrun. unfold grow_root in Hrun. cbv zeta in Hrun.
    run_inv Hrun cs Hcs. run_inv Hrun nr0 Hnr. destruct nr0 as [nr e0]. run_inv Hrun es Hes.
    injection Hrun as <- _. apply arr_set_run in Hcs as ->. apply arr_set_run in Hes as ->.
    set (r0 := set_children (<[0:=o]> (children (set_n 1 bnode_calloc))) (set_n 1 bnode_calloc)).
    assert (sized r0 /\ kids_ok (children r0)) as [Hsz0 Hk0].
    { pose proof factor_pos. split.
      - repeat split; cbn; rewrite ?length_insert, ?length_replicate; unfold ELEMS_CAP; lia.
      - cbn. apply kids_ok_insert; [apply kids_ok_replicate|done]. }
    assert (sized nr /\ kids_ok (children nr)) as [Hsz Hk].
    { destruct o; [exact (split_layout _ _ _ _ _ Hsz0 Hk0 Hnr)|by injection Hnr as <- _]. }
    apply layout_intro'; [|done]. apply sized_set_elems; [done|].
    rewrite length_insert. apply Hsz.
  Qed.

Lemma node_insert_layout b : layout b -> forall x prev b' rep pv w,
    bt_node_insert b x prev ⇓ ((b', rep, pv), w) -> layout b'.
  Proof.
    induction 1 as [b Hsz Hkids IH]. intros x prev b' rep pv w Hrun.
    assert (layout b) as Hl by (by constructor).
    rewrite bt_node_insert_eq in Hrun. run_inv Hrun idx Hidx. cbv zeta in Hrun.
    case_decide.
    - run_inv Hrun old Hold. run_inv Hrun u Hu. run_inv Hrun es Hes. injection Hrun as <- _ _ _.
      apply arr_set_run in Hes as ->. apply layout_intro'; [|done].
      apply sized_set_elems; [done|]. rewrite length_insert. apply Hsz.
    - rewrite with_child_spec in Hrun.
      destruct (children b !! Z.to_nat (- idx - 1)) as [[c|]|] eqn:Hc; [| |done].
      + run_inv Hrun r Hr. destruct r as [[c' rep'] pv'].
        assert (layout c') as Hc' by (eapply IH; [by eapply list_elem_of_lookup_2|exact Hr]).
        set (b1 := set_children (<[Z.to_nat (- idx - 1) := Some c']> (children b)) b) in Hrun.
        assert (sized b1 /\ kids_ok (children b1)) as [Hsz1 Hk1].
        { split; [apply sized_set_children; [done|rewrite length_insert; apply Hsz]|].
          cbn. apply kids_ok_insert; [exact Hkids|by intros ? [= <-]]. }
        case_decide; [by injection Hrun as <- _ _ _; constructor|].
        run_inv Hrun r2 Hsplit. destruct r2 as [b2 m]. run_inv Hrun b3 Hins. injection Hrun as <- _ _ _.
        destruct (split_layout _ _ _ _ _ Hsz1 Hk1 Hsplit) as [Hsz2 Hk2].
        exact (node_insert_at_layout _ _ _ _ _ (layout_intro' _ Hsz2 Hk2) Hins).
      + run_inv Hrun b3 Hins. injection Hrun as <- _ _ _. exact (node_insert_at_layout _ _ _ _ _ Hl Hins).
  Qed.

  (** Type preservation: every insertion that returns, into any tree
      whose nodes have the C layout (well formed or not), leaves every
      node reachable from the root, stale child slots included, with
      [2 * BT_FACTOR + 1] key slots, [2 * BT_FACTOR + 2] child slots and
      at most [2 * BT_FACTOR + 1] keys. *)
Theorem bt_insert_layout t x prev t' rep pv w :
    bt_layout t -> bt_insert t x prev ⇓ ((t', rep, pv), w) -> bt_layout t'.
  Proof.
    unfold bt_layout, bt_insert. intros Hl Hrun. run_inv Hrun r Hr. destruct r as [[r rep'] pv'].
    assert (forall c, r = Some c -> layout c) as Hro.
    { destruct (root t) as [r0|]; [|by injection Hr as <- _ _ _].
      run_inv Hr r1 Hr1. destruct r1 as [[c rep1] pv1]. injection Hr as <- _ _ _.
      intros ? [= <-]. exact (node_insert_layout _ Hl _ _ _ _ _ _ Hr1). }
    destruct (match r with Some r => _ | None => true end).
    - run_inv Hrun nr Hg. injection Hrun as <- _ _ _. exact (grow_root_layout _ _ _ _ Hro Hg).
    - injection Hrun as <- _ _ _. cbn. destruct r; [by apply Hro|done].
  Qed.
End LayoutProofs.
