(* ===== verification/Iter.v ===== *)
(** * The in-order iterator

    [bt_iter_dfs_mk] and [bt_iter_dfs_next] of [src/mk_bt.h] (lines
    383-456). The iterator is an explicit stack of [BT_ITER_STACK_SIZE]
    frames [{i; node}] with a [top] count; [bt_iter_dfs_mk] puts the root
    in frame 0, and each call of [bt_iter_dfs_next] runs the
    [while (true)] loop from the top frame: pop a finished frame, push
    the child at [i] unless it was just visited, return a pointer to key
    [i] (and step [i]), or step past the last child.

    The frames hold the nodes themselves: the iterator does not mutate
    the tree and the tree is not mutated while it is in use. Pushing a
    frame past the array (the C code writes [stack[top]] without a bound
    check) is an [OutOfBounds] fault.

    The loop runs on fuel [ITER_FUEL = 4 * BT_ITER_STACK_SIZE + 5]: the
    measure [iter_measure] of a loop state is below it and decreases at
    every iteration that does not return, so the fuel never runs out
    ([iter_loop_spec]). *)

From S2P Require Import Prelude Order Spec Node Shape Lookup.

Section Iter.
  Context `{Config} {E : Type} `{Elem E}.

Record bt_iter_frame := mk_frame { fi : nat; fnode : option (bnode E) }.

Record bt_iter_dfs := mk_iter { top : nat; stack : list bt_iter_frame }.

  (** A zero-filled frame. *)
Definition frame0 : bt_iter_frame := mk_frame 0 None.

  (** Lines 402-413: [top = 1], frame 0 on the root, the other frames
      zero-filled by the compound literal. *)
Definition bt_iter_dfs_mk (t : bt E) : bt_iter_dfs :=
    mk_iter 1 (<[0 := mk_frame 0 (root t)]> (replicate BT_ITER_STACK_SIZE frame0)).

  (** One run of the loop of lines 419-455 with the frame pointer at
      [stack + top - 1] and the flag [visited_child]. *)
Fixpoint iter_loop (fuel : nat) (it : bt_iter_dfs) (visited : bool)
      : M E (bt_iter_dfs * option elem_ptr) :=
    match fuel with
    | 0 => raise OutOfFuel
    | S fuel =>
        fp ← arr_get (stack it) (top it - 1);
        match fnode fp with
        | None => mret (it, None)
        | Some nd =>
            if decide (n nd < fi fp) then
              if decide (top it = 1) then mret (it, None)
              else iter_loop fuel (mk_iter (top it - 1) (stack it)) true
            else
              c ← arr_get (children nd) (fi fp);
              match c, visited with
              | Some ch, false =>
                  st ← arr_set (stack it) (top it) (mk_frame 0 (Some ch));
                  iter_loop fuel (mk_iter (S (top it)) st) false
              | _, _ =>
                  st ← arr_set (stack it) (top it - 1) (mk_frame (S (fi fp)) (Some nd));
                  if decide (fi fp < n nd) then mret (mk_iter (top it) st, Some (nd, fi fp))
                  else iter_loop fuel (mk_iter (top it) st) visited
              end
        end
    end.

Definition ITER_FUEL : nat := 4 * BT_ITER_STACK_SIZE + 5.

Definition bt_iter_dfs_next (it : bt_iter_dfs) : M E (bt_iter_dfs * option elem_ptr) :=
    iter_loop ITER_FUEL it false.

  (** A client loop [while ((p = bt_iter_dfs_next(&it))) ...] that
      collects [*p], for at most [k] elements. *)
Fixpoint iter_collect (k : nat) (it : bt_iter_dfs) : M E (list E) :=
    '(it, p) ← bt_iter_dfs_next it;
    match p with
    | None => mret []
    | Some p =>
        match k with
        | 0 => raise OutOfFuel
        | S k => x ← arr_get (elems p.1) p.2; xs ← iter_collect k it; mret (x :: xs)
        end
    end.
End Iter.

Section IterProofs.
  Context `{ConfigOk} {E : Type} `{CmpOk E}.
  Implicit Types (it : bt_iter_dfs (E:=E)) (f g : bt_iter_frame (E:=E)) (b : bnode E).

  Local Abbreviation F := BT_FACTOR.
  Local Abbreviation S_ := BT_ITER_STACK_SIZE.

  (** ** The active frames and the sequence still to be produced *)

  (** The frames [stack[0 .. top-1]], top first. *)
Definition act it : list bt_iter_frame := reverse (take (top it) (stack it)).

  (** What a frame still produces: with [visited] set, the child at [i]
      is done and key [i] comes next; otherwise the child at [i] comes
      first. A finished frame ([i > n]) produces nothing. *)
Definition frame_rest f (visited : bool) : list E :=
    match fnode f with
    | None => []
    | Some nd =>
        if visited then ctx_post (kids_seq nd) (keys nd) (fi f)
        else weave (drop (fi f) (kids_seq nd)) (drop (fi f) (keys nd))
    end.

Definition rem_of (fs : list bt_iter_frame) (visited : bool) : list E :=
    match fs with
    | [] => []
    | f :: fs' => frame_rest f visited ++ concat (map (fun g => frame_rest g true) fs')
    end.

Definition rem it (visited : bool) : list E := rem_of (act it) visited.

  (** [g] is the frame below [f]: [f] visits the child at [g]'s [i]. *)
Definition parent_of f g : Prop :=
    exists nd c, fnode g = Some nd /\ fnode f = Some c /\ fi g <= n nd /\
                 children nd !! fi g = Some (Some c).

Definition frame_shape (ht : nat) f : Prop :=
    match fnode f with
    | Some nd => exists lo, 1 <= lo /\ shape lo (2 * F) ht nd /\ fi f <= S (n nd)
    | None => True
    end.

  (** The active frames, top first, the top one of height [ht]. *)
Fixpoint frames_ok (ht : nat) (fs : list bt_iter_frame) : Prop :=
    match fs with
    | [] => False
    | f :: fs' =>
        frame_shape ht f /\
        match fs' with
        | [] => True
        | g :: _ => parent_of f g /\ frames_ok (S ht) fs'
        end
    end.

  (** The iterator over a tree of height [h]. *)
Definition iter_wf (h : nat) it : Prop :=
    length (stack it) = S_ /\ 1 <= top it <= S_ /\
    exists ht, ht + top it = S h /\ frames_ok ht (act it).

  (** ** Stack operations seen on the active frames *)

Lemma act_top it :
    1 <= top it <= length (stack it) ->
    exists f fs, stack it !! (top it - 1) = Some f /\ act it = f :: fs /\
                 act (mk_iter (top it - 1) (stack it)) = fs.
  Proof.
    intros Ht. destruct (lookup_lt_is_Some_2 (stack it) (top it - 1)) as [f Hf]; [lia|].
    exists f, (act (mk_iter (top it - 1) (stack it))). split; [done|]. split; [|done].
    unfold act. cbn. replace (top it) with (S (top it - 1)) at 1 by lia.
    by rewrite (take_S_r _ _ f Hf), reverse_snoc.
  Qed.

Lemma act_set it f :
    1 <= top it <= length (stack it) ->
    act (mk_iter (top it) (<[top it - 1 := f]> (stack it))) = f :: tail (act it).
  Proof.
    intros Ht. destruct (act_top it Ht) as (f0 & fs & Hf0 & Hact & Hpop). rewrite Hact. cbn [tail].
    rewrite <-Hpop. unfold act. cbn [top stack]. replace (top it) with (S (top it - 1)) at 1 by lia.
    rewrite (take_S_r _ _ f), reverse_snoc by (apply list_lookup_insert_eq; lia).
    by rewrite take_insert_ge by lia.
  Qed.

Lemma act_push it f :
    top it < length (stack it) ->
    act (mk_iter (S (top it)) (<[top it := f]> (stack it))) = f :: act it.
  Proof.
    intros Ht. unfold act. cbn [top stack].
    rewrite (take_S_r _ _ f), reverse_snoc by (apply list_lookup_insert_eq; lia).
    by rewrite take_insert_ge by lia.
  Qed.

  (** ** What one frame produces *)

Lemma rest_done nd i v :
    sized nd -> n nd < i -> frame_rest (mk_frame i (Some nd)) v = [].
  Proof.
    intros Hsz Hi. pose proof (length_kids_seq nd Hsz) as Hl.
    destruct Hsz as (? & ? & ?). pose proof (length_keys nd ltac:(lia)).
    unfold frame_rest, ctx_post. cbn [fnode fi].
    rewrite (drop_ge (keys nd)) by lia. destruct v; [done|].
    by rewrite drop_ge by lia.
  Qed.

Lemma rest_new c : frame_rest (mk_frame 0 (Some c)) false = inorder c.
  Proof. unfold frame_rest. cbn [fnode fi]. rewrite !drop_0, inorder_unfold. done. Qed.

  (** Before a push: the child first, then the rest of the frame. *)
Lemma rest_push nd i c :
    sized nd -> i <= n nd -> children nd !! i = Some (Some c) ->
    frame_rest (mk_frame i (Some nd)) false = inorder c ++ frame_rest (mk_frame i (Some nd)) true.
  Proof.
    intros Hsz Hi Hc. unfold frame_rest, ctx_post. cbn [fnode fi].
    rewrite (drop_S _ _ _ (lookup_kids_seq _ _ _ Hi Hc)). apply weave_cons_tail.
  Qed.

  (** The key at [i] is next when the child at [i] is done or absent. *)
Lemma rest_key nd i k (v : bool) :
    sized nd -> i < n nd -> keys nd !! i = Some k ->
    (v = true \/ children nd !! i = Some None) ->
    frame_rest (mk_frame i (Some nd)) v = k :: frame_rest (mk_frame (S i) (Some nd)) false.
  Proof.
    intros Hsz Hi Hk Hv. unfold frame_rest, ctx_post. cbn [fnode fi].
    assert (ctx_post (kids_seq nd) (keys nd) i =
              k :: weave (drop (S i) (kids_seq nd)) (drop (S i) (keys nd))) as Hpost
      by (unfold ctx_post; by rewrite (drop_S _ _ _ Hk)).
    destruct Hv as [-> | Hc]; [exact Hpost|]. destruct v; [exact Hpost|].
    rewrite (drop_S _ _ _ (lookup_kids_seq nd i _ ltac:(lia) Hc)), weave_cons_tail.
    exact Hpost.
  Qed.

  (** Past the last key, a frame whose last child is done or absent is
      finished. *)
Lemma rest_last nd (v : bool) :
    sized nd -> (v = true \/ children nd !! n nd = Some None) ->
    frame_rest (mk_frame (n nd) (Some nd)) v = [].
  Proof.
    intros Hsz Hv. pose proof (length_kids_seq nd Hsz) as Hl.
    destruct Hsz as (? & ? & ?). pose proof (length_keys nd ltac:(lia)).
    assert (ctx_post (kids_seq nd) (keys nd) (n nd) = []) as Hpost
      by (unfold ctx_post; by rewrite (drop_ge (keys nd)) by lia).
    unfold frame_rest. cbn [fnode fi].
    destruct Hv as [-> | Hc]; [exact Hpost|]. destruct v; [exact Hpost|].
    rewrite (drop_S _ _ _ (lookup_kids_seq nd (n nd) _ ltac:(lia) Hc)), weave_cons_tail.
    exact Hpost.
  Qed.

  (** ** The loop *)

  (** [fp->i > fp->node->n] *)
Definition over f : bool :=
    match fnode f with Some nd => bool_decide (n nd < fi f) | None => false end.

  (** Decreases at every iteration that does not return: a push lowers
      [4 * S_ + 4 - 2 * top], a pop lowers [2 * top] (and leaves the
      first phase, in which no push follows), stepping past the last key
      sets [over]. *)
Definition iter_measure it (visited : bool) : nat :=
    match act it with
    | f :: _ => (if visited then 2 * top it else 4 * S_ + 4 - 2 * top it) - (if over f then 1 else 0)
    | [] => 0
    end.

  (** What a run of the loop promises: it returns without a fault or an
      event, keeps the invariant, and either ends the iteration (nothing
      left) or returns a pointer to the next key of the sequence. *)
Definition loop_post (h : nat) it (visited : bool)
      (m : M E (bt_iter_dfs * option elem_ptr)) : Prop :=
    exists it' r, m ⇓ ((it', r), []) /\ iter_wf h it' /\
      ((r = None /\ rem it visited = [] /\ rem it' false = []) \/
       (exists nd i k, r = Some (nd, i) /\ elems nd !! i = Some k /\
                       rem it visited = k :: rem it' false)).

Lemma length_act it : top it <= length (stack it) -> length (act it) = top it.
  Proof. intros. unfold act. rewrite length_reverse, length_take. lia. Qed.

Lemma frames_ok_set ht f f' fs :
    frames_ok ht (f :: fs) -> fnode f' = fnode f -> frame_shape ht f' -> frames_ok ht (f' :: fs).
  Proof.
    intros [_ Hfs] Hn Hs. split; [done|]. destruct fs as [|g fs]; [done|].
    destruct Hfs as ((nd & c & ? & Hc & ?) & ?). split; [|done]. exists nd, c. by rewrite Hn.
  Qed.

  (** Returning key [i], or stepping past the last key and going on. *)
Lemma key_step h fuel it fs i nd (v : bool) :
    (forall it v, iter_wf h it -> iter_measure it v < fuel ->
                  loop_post h it v (iter_loop fuel it v)) ->
    iter_wf h it -> act it = mk_frame i (Some nd) :: fs -> i <= n nd ->
    (v = true \/ children nd !! i = Some None) -> iter_measure it v <= fuel ->
    loop_post h it v
      (st ← arr_set (stack it) (top it - 1) (mk_frame (S i) (Some nd));
       if decide (i < n nd) then mret (mk_iter (top it) st, Some (nd, i))
       else iter_loop fuel (mk_iter (top it) st) v).
  Proof.
    intros IH (Hlen & Htop & ht & Hht & Hok) Hact Hi Hv Hmu.
    rewrite bind_arr_set by lia.
    set (it' := mk_iter (top it) (<[top it - 1 := mk_frame (S i) (Some nd)]> (stack it))).
    assert (act it' = mk_frame (S i) (Some nd) :: fs) as Hact'
      by (subst it'; rewrite act_set, Hact by lia; done).
    rewrite Hact in Hok. pose proof Hok as [(lo & Hlo & Hs & _) Hfs].
    pose proof (shape_sized _ _ _ _ Hs) as Hsz.
    assert (iter_wf h it') as Hwf'.
    { split; [subst it'; cbn; rewrite length_insert; lia|]. split; [cbn; lia|].
      exists ht. split; [cbn; lia|]. rewrite Hact'.
      apply (frames_ok_set _ (mk_frame i (Some nd))); [done|done|].
      exists lo. cbn. auto with lia. }
    unfold loop_post, rem. rewrite Hact. cbn [rem_of].
    case_decide as Hin.
    - destruct (lookup_lt_is_Some_2 (keys nd) i) as [k Hk].
      { destruct Hsz as (? & ? & ?). rewrite length_keys; lia. }
      exists it', (Some (nd, i)). split; [done|]. split; [done|]. right.
      exists nd, i, k. split; [done|]. split; [by rewrite <-lookup_keys|].
      rewrite Hact'. cbn [rem_of]. by rewrite (rest_key nd i k v Hsz Hin Hk Hv).
    - assert (i = n nd) as -> by lia.
      destruct (IH it' v Hwf') as (it'' & r & Hrun & Hwf'' & Hr).
      { unfold iter_measure in *. rewrite Hact in Hmu. rewrite Hact'. cbn [over fnode fi] in *.
        rewrite bool_decide_true by lia. rewrite bool_decide_false in Hmu by lia.
        destruct v; cbn [top it'] in *; lia. }
      exists it'', r. split; [done|]. split; [done|].
      unfold rem in Hr. rewrite Hact' in Hr. cbn [rem_of] in Hr.
      rewrite (rest_last nd v Hsz Hv), (rest_done nd (S (n nd)) v Hsz) in * by lia. exact Hr.
  Qed.

Lemma frames_ok_none ht f fs : frames_ok ht (f :: fs) -> fnode f = None -> fs = [].
  Proof.
    intros [_ Hfs] Hn. destruct fs as [|g fs]; [done|].
    destruct Hfs as ((nd & c & _ & Hc & _) & _). congruence.
  Qed.

  (** The loop on a well-formed iterator state, with fuel above the
      measure and a tree lower than the stack, satisfies [loop_post]. *)
Lemma iter_loop_spec h fuel : forall it v,
    h < S_ -> iter_wf h it -> iter_measure it v < fuel -> loop_post h it v (iter_loop fuel it v).
  Proof.
    induction fuel as [|fuel IH]; intros it v Hh Hwf Hmu; [lia|].
    pose proof Hwf as (Hlen & Htop & ht & Hht & Hok).
    destruct (act_top it) as (f & fs & Hf & Hact & Hpop); [lia|].
    cbn [iter_loop]. mstep (arr_get_ok (L:=E) _ _ _ Hf).
    destruct f as [i [nd|]]; cbn [fnode fi].
    2: { exists it, None. split; [done|]. split; [done|]. left.
         rewrite Hact in Hok. unfold rem. rewrite Hact.
         by rewrite (frames_ok_none _ _ _ Hok). }
    rewrite Hact in Hok. pose proof Hok as [(lo & Hlo & Hs & Hi) Hfs].
    pose proof (shape_sized _ _ _ _ Hs) as Hsz.
    unfold iter_measure in Hmu. rewrite Hact in Hmu. cbn [over fnode fi] in Hmu.
    case_decide as Hover.
    - rewrite bool_decide_true in Hmu by done.
      assert (frame_rest (mk_frame i (Some nd)) v = []) as Hdone by (by apply rest_done).
      destruct (decide (top it = 1)) as [Htop1|Htop1].
      + exists it, None. split; [done|]. split; [done|]. left.
        pose proof (length_act it ltac:(lia)) as Hl. rewrite Hact in Hl.
        destruct fs; [|cbn in Hl; lia]. unfold rem. rewrite Hact. cbn [rem_of].
        rewrite Hdone, rest_done by done. done.
      + pose proof (length_act it ltac:(lia)) as Hl. rewrite Hact in Hl.
        destruct fs as [|g fs]; [cbn in Hl; lia|]. destruct Hfs as (Hpar & Hfs).
        destruct Hpar as (nd' & c & Hg & _ & Hgi & _).
        destruct (IH (mk_iter (top it - 1) (stack it)) true) as (it' & r & Hrun & Hwf' & Hr).
        { done. }
        { split; [done|]. split; [cbn; lia|]. exists (S ht). split; [cbn; lia|].
          by rewrite Hpop. }
        { unfold iter_measure. rewrite Hpop. cbn [over top]. destruct g as [gi gn].
          cbn in Hg. subst gn. cbn [fnode fi over] in *. rewrite bool_decide_false by lia.
          destruct v; lia. }
        exists it', r. split; [done|]. split; [done|].
        unfold rem in *. rewrite Hact. rewrite Hpop in Hr. cbn [rem_of] in *.
        rewrite Hdone. exact Hr.
    - rewrite bool_decide_false in Hmu by done.
      destruct (lookup_lt_is_Some_2 (children nd) i) as [c0 Hc0].
      { destruct Hsz as (_ & -> & ?). unfold CHILDREN_CAP, ELEMS_CAP in *. lia. }
      mstep (arr_get_ok (L:=E) _ _ _ Hc0).
      destruct c0 as [c|]; [destruct v|].
      + apply (key_step h fuel it fs); auto with lia.
        unfold iter_measure. rewrite Hact. cbn [over fnode fi].
        rewrite bool_decide_false by lia. lia.
      + (* push the child *)
        destruct ht as [|ht].
        { rewrite (shape_leaf_slot _ _ _ i Hs) in Hc0 by lia. discriminate. }
        destruct (shape_child _ _ _ _ i Hs ltac:(lia)) as (c' & Hc' & Hsc).
        rewrite Hc0 in Hc'. injection Hc' as <-.
        rewrite bind_arr_set by lia.
        set (it' := mk_iter (S (top it)) (<[top it := mk_frame 0 (Some c)]> (stack it))).
        assert (act it' = mk_frame 0 (Some c) :: act it) as Hact' by (apply act_push; lia).
        destruct (IH it' false) as (it'' & r & Hrun & Hwf'' & Hr).
        { done. }
        { split; [cbn; by rewrite length_insert|]. split; [cbn; lia|].
          exists ht. split; [cbn; lia|]. rewrite Hact', Hact. split.
          - exists BT_FACTOR. pose proof factor_pos. cbn. auto with lia.
          - split; [|done]. exists nd, c. cbn [fnode fi]. split_and!; auto with lia. }
        { unfold iter_measure. rewrite Hact'. cbn [over fnode fi top it'].
          rewrite bool_decide_false by lia. lia. }
        exists it'', r. split; [done|]. split; [done|].
        unfold rem in *. rewrite Hact' in Hr. rewrite Hact in *. cbn [rem_of map concat] in *.
        rewrite (rest_push nd i c Hsz ltac:(lia) Hc0), rest_new, <-!app_assoc in *. done.
      + apply (key_step h fuel it fs); auto with lia.
        unfold iter_measure. rewrite Hact. cbn [over fnode fi].
        rewrite bool_decide_false by lia. lia.
  Qed.

Lemma iter_measure_bound h it v : iter_wf h it -> iter_measure it v < ITER_FUEL.
  Proof.
    intros (_ & Htop & _). unfold iter_measure, ITER_FUEL.
    destruct (act it); [lia|]. destruct v, (over b); lia.
  Qed.

Lemma act_mk t : act (bt_iter_dfs_mk t) = [mk_frame 0 (root t)].
  Proof.
    pose proof stack_pos. unfold act, bt_iter_dfs_mk. cbn [top stack].
    rewrite <-(Nat.succ_pred_pos BT_ITER_STACK_SIZE) by lia. done.
  Qed.

  (** The new iterator is well formed and has the whole in-order
      sequence still to produce. *)
Lemma iter_mk_wf t h :
    bt_wf_h t h -> iter_wf h (bt_iter_dfs_mk t) /\ rem (bt_iter_dfs_mk t) false = bt_elements t.
  Proof.
    intros Hwf. pose proof stack_pos. unfold rem, bt_elements. rewrite act_mk.
    split; [split; [cbn; by rewrite length_insert, length_replicate|]; split; [cbn; lia|]|].
    - exists h. split; [cbn; lia|]. rewrite act_mk. cbn [frames_ok]. split; [|done].
      unfold frame_shape, bt_wf_h in *. cbn.
      destruct (root t) as [r|]; [|done]. destruct Hwf as [Hs _]. exists 1.
      pose proof (shape_n _ _ _ _ Hs). auto with lia.
    - cbn [rem_of map concat]. rewrite app_nil_r. destruct (root t); [|done]. apply rest_new.
  Qed.

  (** Repeated calls produce the remaining sequence and then stop. *)
Lemma iter_collect_rem h k : forall it,
    h < S_ -> iter_wf h it -> length (rem it false) <= k ->
    iter_collect k it ⇓ (rem it false, []).
  Proof.
    induction k as [|k IH]; intros it Hh Hwf Hk;
      destruct (iter_loop_spec h ITER_FUEL it false Hh Hwf (iter_measure_bound _ _ _ Hwf))
        as (it' & r & Hrun & Hwf' & [(-> & Hrem & _) | (nd & i & x & -> & Hx & Hrem)]);
      cbn [iter_collect]; unfold bt_iter_dfs_next; rewrite Hrun; cbn; rewrite ?Hrem; try done.
    - rewrite Hrem in Hk. cbn in Hk. lia.
    - unfold arr_get. rewrite Hx. rewrite Hrem in Hk. cbn in Hk.
      rewrite (IH it' Hh Hwf') by lia. done.
  Qed.

  (** ** Correctness of the iterator *)

  (** C7: One call of [bt_iter_dfs_next] on a well-formed iterator over a
      tree lower than the stack: it returns, and either ends the
      iteration or yields the next key of the remaining sequence. *)
Theorem bt_iter_dfs_next_spec h it :
    h < BT_ITER_STACK_SIZE -> iter_wf h it -> loop_post h it false (bt_iter_dfs_next it).
  Proof. intros Hh Hwf. apply (iter_loop_spec h); [done|done|]. by apply (iter_measure_bound h). Qed.

  (** A client loop with room for at least the whole sequence collects
      it. *)
Lemma iter_collect_mk t h k :
    bt_wf_h t h -> h < S_ -> length (bt_elements t) <= k ->
    iter_collect k (bt_iter_dfs_mk t) ⇓ (bt_elements t, []).
  Proof.
    intros Hwf Hh Hk. destruct (iter_mk_wf t h Hwf) as [Hwf' Hrem].
    rewrite <-Hrem. apply (iter_collect_rem h); [done|done|by rewrite Hrem].
  Qed.

  (** C3: Iterating a well-formed tree whose height is below
      [BT_ITER_STACK_SIZE] yields its in-order sequence, then [NULL]. *)
Theorem bt_iter_spec t h :
    bt_wf_h t h -> h < BT_ITER_STACK_SIZE ->
    iter_collect (length (bt_elements t)) (bt_iter_dfs_mk t) ⇓ (bt_elements t, []).
  Proof. intros Hwf Hh. exact (iter_collect_mk t h _ Hwf Hh (le_n _)). Qed.

  (** C8: Once the sequence is exhausted, every further call returns [NULL]
      and leaves nothing to produce. *)
Theorem bt_iter_exhausted h it :
    h < BT_ITER_STACK_SIZE -> iter_wf h it -> rem it false = [] ->
    exists it', bt_iter_dfs_next it ⇓ ((it', None), []) /\ iter_wf h it' /\ rem it' false = [].
  Proof.
    intros Hh Hwf Hrem.
    destruct (iter_loop_spec h ITER_FUEL it false Hh Hwf (iter_measure_bound _ _ _ Hwf))
      as (it' & r & Hrun & Hwf' & [(-> & _ & Hrem') | (nd & i & k & _ & _ & Hk)]).
    - by exists it'.
    - by rewrite Hrem in Hk.
  Qed.

Lemma arr_set_oob {X} (a : list X) i x : length a <= i -> (arr_set a i x : M E _) = raise OutOfBounds.
  Proof. intros. unfold arr_set. case_decide; [lia|done]. Qed.

  (** The first call descends along the leftmost path, pushing a frame per
      level; a path longer than the stack writes past it. *)
Lemma descend_overflow k : forall it nd lo ht fuel,
    k = S_ - top it -> length (stack it) = S_ -> 1 <= top it <= S_ ->
    stack it !! (top it - 1) = Some (mk_frame 0 (Some nd)) ->
    shape lo (2 * F) ht nd -> S_ - top it < ht -> k < fuel ->
    iter_loop fuel it false = raise OutOfBounds.
  Proof.
    induction k as [|k IH]; intros it nd lo ht fuel Hk Hlen Htop Hf Hs Hht Hfuel;
      destruct fuel as [|fuel]; [lia| |lia|];
      cbn [iter_loop]; mstep (arr_get_ok (L:=E) _ _ _ Hf); cbn [fnode fi];
      (case_decide; [lia|]);
      destruct ht as [|ht]; [lia| |lia|];
      destruct (shape_child _ _ _ _ 0 Hs ltac:(lia)) as (c & Hc & Hsc);
      mstep (arr_get_ok (L:=E) _ _ _ Hc).
    - by rewrite arr_set_oob by lia.
    - rewrite bind_arr_set by lia.
      apply (IH _ c BT_FACTOR ht); cbn [top stack]; rewrite ?length_insert; try lia.
      replace (S (top it) - 1) with (top it) by lia. apply list_lookup_insert_eq. lia.
      done.
  Qed.

  (** C12: On a well-formed tree of height at least [BT_ITER_STACK_SIZE] the
      first call of [bt_iter_dfs_next] writes past the frame array: the
      stack is not bounded by the code, contrary to the header comment's
      promise. *)
Theorem bt_iter_overflow t h r :
    bt_wf_h t h -> root t = Some r -> BT_ITER_STACK_SIZE <= h ->
    bt_iter_dfs_next (bt_iter_dfs_mk t) = raise OutOfBounds.
  Proof.
    intros Hwf Hr Hh. unfold bt_wf_h in Hwf. rewrite Hr in Hwf. destruct Hwf as [Hs _].
    pose proof stack_pos.
    apply (descend_overflow (S_ - 1) _ r 1 h); cbn [top stack bt_iter_dfs_mk];
      rewrite ?length_insert, ?length_replicate; try lia; [|exact Hs|unfold ITER_FUEL; lia].
    rewrite Hr. apply list_lookup_insert_eq. rewrite length_replicate. lia.
  Qed.
End IterProofs.
