(* ===== verification/Free.v ===== *)
(** * Destruction

    [bt_node_free] and [bt_free] of [src/mk_bt.h] (lines 201-216). For
    each [i < node->n] the loop hands [elems[i]] to [BT_ELEM_FREE] and
    frees the subtree [children[i]]; then it frees [children[n]]. The
    log records the [BT_ELEM_FREE] calls; [free(node)] releases memory the
    model does not track.

    The loop is written as a walk down the two arrays for [n] steps so
    that the recursive call is on a child taken from the array.
    [bt_free_spec] shows that freeing a well-formed tree hands every
    element to [BT_ELEM_FREE] exactly once. *)

From S2P Require Import Prelude Order Spec Node Shape.

Section Free.
  Context `{Config} {E : Type} `{Elem E}.

  (** Lines 204-209 from slot [i] on, with [k = n - i] steps left: [es]
      and [cs] are [elems + i] and [children + i]. *)
Fixpoint free_walk (rec : bnode E -> M E unit) (es : list E) (cs : list (option (bnode E)))
      (k : nat) {struct cs} : M E unit :=
    match k, es, cs with
    | 0, _, _ => with_child rec (mret tt) cs 0
    | S k, e :: es, c :: cs =>
        _ ← emit e;
        _ ← (match c with Some c => rec c | None => mret tt end);
        free_walk rec es cs k
    | S _, _, _ => raise OutOfBounds
    end.

Fixpoint bt_node_free (node : bnode E) : M E unit :=
    free_walk bt_node_free (elems node) (children node) (n node).

  (** [if (!node) return;] *)
Definition bt_node_free_opt (node : option (bnode E)) : M E unit :=
    match node with Some b => bt_node_free b | None => mret tt end.

Definition bt_free (t : bt E) : M E unit := bt_node_free_opt (root t).
End Free.

Section FreeProofs.
  Context `{ConfigOk} {E : Type} `{CmpOk E}.
  Implicit Types (b c : bnode E).

  (** The subtrees a walk frees, with the elements each one frees. *)
Definition frees_ok (rec : bnode E -> M E unit) (o : option (bnode E)) : Prop :=
    match o with
    | Some c => exists w, rec c ⇓ (tt, w) /\ w ≡ₚ inorder c
    | None => True
    end.

Lemma free_walk_spec rec k : forall es cs,
    k <= length es -> Forall (frees_ok rec) (take (S k) cs) -> k < length cs ->
    exists w, free_walk rec es cs k ⇓ (tt, w) /\
              w ≡ₚ take k es ++ concat (map inorder_opt (take (S k) cs)).
  Proof.
    induction k as [|k IH]; intros es cs Hes Hcs Hlen.
    - destruct cs as [|o cs]; cbn in *; [lia|]. apply Forall_cons in Hcs as [Ho _].
      destruct o as [c|]; cbn in *; [|by exists []].
      destruct Ho as (w & Hw & Hp). exists w. split; [done|]. by rewrite app_nil_r.
    - destruct es as [|e es], cs as [|o cs]; cbn in *; try lia.
      apply Forall_cons in Hcs as [Ho Hcs].
      destruct (IH es cs ltac:(lia) Hcs ltac:(lia)) as (w & Hw & Hp).
      destruct o as [c|]; cbn in *.
      + destruct Ho as (wc & Hwc & Hpc). rewrite Hwc, Hw. cbn.
        eexists. split; [reflexivity|]. rewrite Hp, Hpc. cbn. f_equiv. solve_Permutation.
      + rewrite Hw. eexists. split; [reflexivity|]. cbn. by rewrite Hp.
  Qed.

Lemma weave_perm (ls : list (list E)) (ks : list E) : length ls = S (length ks) -> weave ls ks ≡ₚ ks ++ concat ls.
  Proof.
    revert ls. induction ks as [|k ks IH]; intros [|l ls] Hlen; cbn in *; try lia.
    - destruct ls; cbn in *; [by rewrite app_nil_r|lia].
    - rewrite (IH ls) by lia. solve_Permutation.
  Qed.

Lemma bt_node_free_eq b : bt_node_free b = free_walk bt_node_free (elems b) (children b) (n b).
  Proof. by destruct b. Qed.

  (** A node whose first [n + 1] children are freed correctly frees its
      whole subtree. *)
Lemma node_free_kids b :
    sized b -> Forall (frees_ok bt_node_free) (take (S (n b)) (children b)) ->
    exists w, bt_node_free b ⇓ (tt, w) /\ w ≡ₚ inorder b.
  Proof.
    intros Hsz Hk. pose proof (length_kids_seq b Hsz) as Hl. destruct Hsz as (Hes & Hcs & Hn).
    destruct (free_walk_spec bt_node_free (n b) (elems b) (children b)) as (w & Hw & Hp);
      [unfold ELEMS_CAP in *; lia|done|unfold ELEMS_CAP, CHILDREN_CAP in *; lia|].
    exists w. rewrite bt_node_free_eq. split; [done|].
    rewrite Hp, inorder_unfold. fold (kids_seq b). rewrite weave_perm by exact Hl.
    unfold kids_seq. by rewrite <-firstn_map.
  Qed.

Lemma node_free_spec h : forall lo hi b,
    shape lo hi h b -> exists w, bt_node_free b ⇓ (tt, w) /\ w ≡ₚ inorder b.
  Proof.
    induction h as [|h IH]; intros lo hi b Hs;
      apply node_free_kids; [eauto using shape_sized| |eauto using shape_sized|].
    - inversion Hs as [? ? ? _ _ Hnone|]; subst. apply Forall_take.
      eapply Forall_impl; [exact Hnone|]. by intros ? ->.
    - inversion Hs as [|? ? ? ? cs _ _ Hk Hall]; subst. rewrite Hk.
      apply Forall_fmap. eapply Forall_impl; [exact Hall|]. intros c Hc. exact (IH _ _ c Hc).
  Qed.

  (** C9: [bt_free] on a well-formed tree does not fault and hands each
      element of the tree to [BT_ELEM_FREE] exactly once. *)
Theorem bt_free_spec t : bt_wf t -> exists w, bt_free t ⇓ (tt, w) /\ w ≡ₚ bt_elements t.
  Proof.
    intros [h Hwf]. unfold bt_free, bt_elements, bt_wf_h in *.
    destruct (root t) as [r|]; cbn; [|by exists []].
    destruct Hwf as [Hs _]. exact (node_free_spec h _ _ r Hs).
  Qed.
End FreeProofs.
