(* ===== verification/Height.v ===== *)
(** * The height of a well-formed tree and the iterator's stack

    A well-formed tree of height [h] holds at least [2 (F + 1)^h - 1]
    elements ([F = BT_FACTOR]): its root holds a key and two subtrees,
    every other node at least [F] keys and [F + 1] subtrees
    ([shape_min_size]). The iterator of [src/mk_bt.h] (lines 390-456)
    needs one frame per level, so it walks every tree of fewer than
    [2 (F + 1)^BT_ITER_STACK_SIZE - 1] elements without overflowing its
    stack ([bt_iter_safe]); the comment of lines 384-386 states a
    different bound, which is recorded as a finding. The bounds are
    stated on [Z] so that they can be evaluated at the default stack
    size of 32. *)

From S2P Require Import Prelude Order Spec Node Shape Lookup Iter.

Section Height.
  Context `{ConfigOk} {E : Type} `{CmpOk E}.
  Implicit Types (b c : bnode E).

  Local Abbreviation F := BT_FACTOR.

  (** The fewest elements a well-formed tree of height [h] holds, plus
      one: [2 (BT_FACTOR + 1)^h]. *)
Definition min_elems (h : nat) : Z := (2 * (Z.of_nat F + 1) ^ Z.of_nat h)%Z.

Lemma length_weave (ls : list (list E)) (ks : list E) :
    length ls = S (length ks) -> length (weave ls ks) = length ks + sum_list (map length ls).
  Proof.
    revert ls. induction ks as [|k ks IH]; intros [|l ls] Hlen; cbn in *; try lia.
    - destruct ls; cbn in *; lia.
    - rewrite length_app. cbn. rewrite IH by lia. lia.
  Qed.

  (** [k] numbers, each at least [m - 1], add up to at least [k (m - 1)]. *)
Lemma sum_list_lower (ks : list nat) m :
    Forall (fun k => m <= S k) ks -> length ks * m <= length ks + sum_list ks.
  Proof. induction 1; cbn; lia. Qed.

  (** The minimum occupancy: a subtree of height [h] whose root holds at
      least [lo] keys holds at least [(lo + 1) (F + 1)^h - 1] elements. *)
Lemma shape_min_size h : forall lo hi b,
    shape lo hi h b -> S lo * S F ^ h <= S (length (inorder b)).
  Proof.
    induction h as [|h IH]; intros lo hi b Hs.
    - rewrite (inorder_leaf _ _ _ Hs), (length_keys_shape _ _ _ _ Hs).
      pose proof (shape_n _ _ _ _ Hs). cbn. lia.
    - pose proof Hs as Hs'. inversion Hs' as [|? ? ? ? cs _ Hn Hk Hall]; subst.
      pose proof (length_kids _ _ _ _ _ Hs Hk) as Hlen.
      rewrite (inorder_node _ _ _ _ _ Hs Hk), length_weave
        by (rewrite length_map, Hlen, (length_keys_shape _ _ _ _ Hs); lia).
      rewrite (length_keys_shape _ _ _ _ Hs).
      assert (Forall (fun k => S F ^ S h <= S k) (map length (map inorder cs))) as Hlow.
      { rewrite !Forall_fmap. eapply Forall_impl; [exact Hall|].
        intros c Hc. cbn. pose proof (IH _ _ c Hc). cbn in *. lia. }
      pose proof (sum_list_lower _ _ Hlow) as Hsum. rewrite !length_map, Hlen in Hsum.
      assert (S lo * S F ^ S h <= S (n b) * S F ^ S h) by (apply Nat.mul_le_mono_r; lia).
      lia.
  Qed.

  (** The bounds on [Z], the type in which they are evaluated. *)
Lemma Z_pow_of_nat a k : Z.of_nat (a ^ k) = (Z.of_nat a ^ Z.of_nat k)%Z.
  Proof. by rewrite Nat2Z.inj_pow. Qed.

  (** The occupancy bound of a tree, on [Z]. *)
Lemma wf_min_size t h :
    bt_wf_h t h -> root t <> None ->
    (2 * (Z.of_nat F + 1) ^ Z.of_nat h <= Z.of_nat (length (bt_elements t)) + 1)%Z.
  Proof.
    unfold bt_wf_h, bt_elements. destruct (root t) as [r|]; [|done]. intros [Hs _] _.
    pose proof (shape_min_size h 1 _ r Hs) as Hmin. cbn [inorder_opt].
    apply Nat2Z.inj_le in Hmin. rewrite Nat2Z.inj_mul, Z_pow_of_nat in Hmin. lia.
  Qed.

  (** A tree with fewer than [2 (F + 1)^s - 1] elements is lower than [s]. *)
Lemma height_below t h s :
    bt_wf_h t h -> root t <> None ->
    (Z.of_nat (length (bt_elements t)) + 1 < 2 * (Z.of_nat F + 1) ^ Z.of_nat s)%Z -> h < s.
  Proof.
    intros Hwf Hr Hlen. pose proof (wf_min_size t h Hwf Hr) as Hmin.
    destruct (decide (h < s)) as [|Hge]; [done|].
    assert (Z.of_nat (S F ^ s) <= Z.of_nat (S F ^ h))%Z as Hp
      by (apply Nat2Z.inj_le, Nat.pow_le_mono_r; lia).
    rewrite !Z_pow_of_nat, !Nat2Z.inj_succ in Hp. lia.
  Qed.

  (** A client loop with room for the whole sequence collects it from
      every well-formed tree small enough for the stack. *)
Lemma iter_collect_bounded t k :
    bt_wf t -> length (bt_elements t) <= k ->
    (Z.of_nat (length (bt_elements t)) + 1 < 2 * (Z.of_nat F + 1) ^ Z.of_nat BT_ITER_STACK_SIZE)%Z ->
    iter_collect k (bt_iter_dfs_mk t) ⇓ (bt_elements t, []).
  Proof.
    intros [h Hwf] Hk Hlen. destruct (root t) as [r|] eqn:Hr.
    - apply (iter_collect_mk t h); [done| |done].
      apply (height_below t h); [done|by rewrite Hr|done].
    - apply (iter_collect_mk t 0); [by unfold bt_wf_h; rewrite Hr|apply stack_pos|done].
  Qed.

  (** C19: The iterator's stack suffices for every well-formed tree of
      fewer than [2 (BT_FACTOR + 1)^BT_ITER_STACK_SIZE - 1] elements:
      iterating it yields its in-order sequence, then [NULL]. *)
Theorem bt_iter_safe t :
    bt_wf t ->
    (Z.of_nat (length (bt_elements t)) + 1 < min_elems BT_ITER_STACK_SIZE)%Z ->
    iter_collect (length (bt_elements t)) (bt_iter_dfs_mk t) ⇓ (bt_elements t, []).
  Proof. intros Hwf Hlen. exact (iter_collect_bounded t _ Hwf (le_n _) Hlen). Qed.
End Height.
