(* ===== verification/Build.v ===== *)
(** * A client: building a tree by insertions and reading it back

    The composition the specification's properties are about: a client
    inserts a sequence of elements into an empty tree ([bt_mk], then
    [bt_insert] with [prev = NULL] for each element, in order) and reads
    the tree back with [bt_lookup] or with the iterator. Its theorems
    compose the refinement lemmas of [Insert.v], [Lookup.v] and
    [Iter.v] with the occupancy bound of [Height.v]: the tree stores
    [spec_build xs], the iterator yields exactly that sorted list
    ([build_iter_roundtrip]), and a lookup finds the last inserted
    element that compares equal ([build_lookup_last]). *)

From S2P Require Import Prelude Order Spec Node Shape Lookup Insert Layout Iter Height.

Section Driver.
  Context `{Config} {E : Type} `{Elem E}.

  (** The insertions of [xs], in order, with [prev = NULL]. *)
Fixpoint insert_seq (t : bt E) (xs : list E) : M E (bt E) :=
    match xs with
    | [] => mret t
    | x :: xs => '(t, _, _) ← bt_insert t x false; insert_seq t xs
    end.

  (** The tree a run produces, [bt_mk] if it faults. *)
Definition build (xs : list E) : bt E :=
    match insert_seq bt_mk xs with inr (t, _) => t | inl _ => bt_mk end.
End Driver.

Section BuildProofs.
  Context `{ConfigOk} {E : Type} `{CmpOk E}.

  Local Abbreviation F := BT_FACTOR.

  (** A run of insertions from a well-formed tree does not fault and
      acts on the contents as the insertions of the specification; every
      element inserted is either in the final tree or was handed to
      [BT_ELEM_FREE] once (when a later equal element replaced it). *)
Lemma insert_seq_refines xs : forall t,
    bt_wf t -> exists t' w, insert_seq t xs ⇓ (t', w) /\ bt_wf t' /\
      bt_elements t' = foldl (fun l x => spec_insert x l) (bt_elements t) xs /\
      w ++ bt_elements t' ≡ₚ bt_elements t ++ xs.
  Proof.
    induction xs as [|x xs IH]; intros t Hwf; cbn [insert_seq foldl].
    { exists t, []. by rewrite app_nil_r. }
    destruct (bt_insert_refines t x false Hwf) as (t1 & rep & pv & w1 & Hrun & Hwf1 & Hel & _ & Hout).
    destruct (IH t1 Hwf1) as (t' & w & Hseq & Hwf' & Hel' & Hperm).
    rewrite (bind_ok _ _ _ _ Hrun). cbn iota beta. rewrite Hseq.
    exists t', (w1 ++ w). split; [done|]. split; [done|]. split; [by rewrite Hel', Hel|].
    rewrite <-app_assoc, Hperm, Hel. destruct Hwf as [h Hwf].
    pose proof (spec_insert_perm x (bt_elements t) (bt_wf_sorted t h Hwf)) as Hp.
    unfold insert_outcome in Hout. revert Hp. destruct (spec_lookup x (bt_elements t)) as [old|];
      intros Hp; destruct Hout as (_ & _ & ->); cbn; [rewrite app_comm_cons|]; rewrite Hp; solve_Permutation.
  Qed.

Lemma build_refines xs :
    exists t w, insert_seq bt_mk xs ⇓ (t, w) /\ bt_wf t /\ bt_elements t = spec_build xs /\
      w ++ bt_elements t ≡ₚ xs.
  Proof. apply (insert_seq_refines xs bt_mk). by exists 0. Qed.

  (** C18: Balance of the trees the code builds: any sequence of
      insertions into an empty tree returns a well-formed tree of some
      height [h] that, unless empty, holds at least
      [2 (BT_FACTOR + 1)^h - 1] elements, so its height is logarithmic
      in its size. *)
Theorem build_height_bound xs :
    exists t w h, insert_seq bt_mk xs ⇓ (t, w) /\ bt_wf_h t h /\
      (bt_elements t <> [] -> (min_elems h <= Z.of_nat (length (bt_elements t)) + 1)%Z).
  Proof.
    destruct (build_refines xs) as (t & w & Hrun & [h Hwf] & _).
    exists t, w, h. split; [done|]. split; [done|]. intros Hne.
    apply wf_min_size; [done|]. intros Hr. apply Hne. unfold bt_elements. by rewrite Hr.
  Qed.


  (** C34: Invariant preservation and resource accounting: after any
      sequence of insertions into an empty tree with [prev = NULL], the
      tree is well formed and holds [spec_build xs], and every inserted
      element is either in the tree or was handed to [BT_ELEM_FREE],
      exactly once: nothing leaks and nothing is freed twice. *)
Theorem build_no_leak xs :
    exists t w, insert_seq bt_mk xs ⇓ (t, w) /\ bt_wf t /\ bt_elements t = spec_build xs /\
      w ++ bt_elements t ≡ₚ xs.
  Proof. exact (build_refines xs). Qed.

  (** C20: Round trip: inserting a sequence [xs] into an empty tree and
      iterating the result gives back [spec_build xs], the elements of
      [xs] sorted, one per equivalence class (the last inserted one), as
      long as [xs] is shorter than [2 (BT_FACTOR + 1)^BT_ITER_STACK_SIZE - 1]. *)
Theorem build_iter_roundtrip xs :
    (Z.of_nat (length xs) + 1 < 2 * (Z.of_nat F + 1) ^ Z.of_nat BT_ITER_STACK_SIZE)%Z ->
    exists t w, insert_seq bt_mk xs ⇓ (t, w) /\
      iter_collect (length xs) (bt_iter_dfs_mk t) ⇓ (spec_build xs, []).
  Proof.
    intros Hlen. destruct (build_refines xs) as (t & w & Hrun & Hwf & Hel & _).
    exists t, w. split; [done|]. rewrite <-Hel.
    pose proof (length_spec_build xs) as Hle. rewrite <-Hel in Hle.
    apply iter_collect_bounded; [done|done|lia].
  Qed.

  (** C21: Lookup after a sequence of insertions returns the most
      recently inserted element that compares equal to the key, and
      [NULL] when none was inserted. *)
Theorem build_lookup_last xs y :
    exists t w, insert_seq bt_mk xs ⇓ (t, w) /\
      exists res, bt_lookup t y ⇓ (res, []) /\ found res = last (filter (eqv y) xs).
  Proof.
    destruct (build_refines xs) as (t & w & Hrun & [h Hwf] & Hel & _).
    exists t, w. split; [done|].
    destruct (bt_lookup_refines t h y Hwf) as (res & Hres & Hf).
    exists res. split; [done|]. by rewrite Hf, Hel, spec_lookup_build.
  Qed.
End BuildProofs.
