(* ===== verification/Print.v ===== *)
(** * The debug dump [bt_print]

    [bt_print] of [src/mk_bt.h] (lines 360-381) writes to standard
    output. Its model runs in the monad [M string]: the log is the
    sequence of strings the [printf] calls write, one event per call.
    [INDENT] writes two spaces per level of [depth]; a [NULL] node writes
    [<empty>]; a node writes [elems:], its [n] keys each formatted by
    [" %d"], a newline, and then, unless its first child slot is [NULL],
    the dumps of its [n + 1] child slots one level deeper. The format
    [%d] is a parameter [fmt_d] of the model: what [printf] writes for
    an element; for [int] it is the decimal notation ([IntBtree.v]).
    [depth] is an [int] kept as a [Z]: it grows by one per level, far
    from [INT_MAX].

    [bt_print_spec] shows what the dump of a well-formed subtree is: one
    line per node, in preorder, indented by the node's depth and listing
    its keys; [<empty>] never appears, because a node's first child slot
    is [NULL] exactly when it is a leaf, and an internal node has no
    [NULL] among its [n + 1] children. *)

From Stdlib Require Import Ascii.
From stdpp Require Import strings.
From S2P Require Import Prelude Order Spec Node Shape.

(** The newline character, [\n] in C. *)
Definition newline : string := String "010"%char EmptyString.

(** What a sequence of [printf] calls writes, in order. *)
Definition text (w : list string) : string := foldr String.append EmptyString w.

Section Print.
  Context {E : Type} (fmt_d : E -> string).

  (** [INDENT]: [for (int __i = 0; __i < depth; __i++) printf("  ");] *)
Fixpoint indent_loop (k : nat) : M string unit :=
    match k with
    | 0 => mret tt
    | S k => _ ← emit "  "; indent_loop k
    end.

Definition INDENT (depth : Z) : M string unit := indent_loop (Z.to_nat depth).

  (** Lines 372-373 with [k = n - i] keys left:
      [printf(" %d", node->elems[i])]. *)
Fixpoint print_elems (es : list E) (k : nat) : M string unit :=
    match k, es with
    | 0, _ => mret tt
    | S k, e :: es => _ ← emit (" " +:+ fmt_d e); print_elems es k
    | S _, [] => raise OutOfBounds
    end.

  (** Lines 377-378 from slot [i] on, with [k = n - i]: the call on
      [children[i]], then the next slot while [i <= n]. *)
Fixpoint print_children (rec : option (bnode E) -> M string unit)
      (cs : list (option (bnode E))) (k : nat) : M string unit :=
    match cs with
    | [] => raise OutOfBounds
    | c :: cs => _ ← rec c; match k with 0 => mret tt | S k => print_children rec cs k end
    end.

  (** Lines 363-368. *)
Definition print_empty (depth : Z) : M string unit :=
    _ ← INDENT depth; emit ("<empty>" +:+ newline).

  (** Lines 370-378 on a node. *)
Fixpoint bt_print_node (node : bnode E) (depth : Z) {struct node} : M string unit :=
    _ ← INDENT depth;
    _ ← emit "elems:";
    _ ← print_elems (elems node) (n node);
    _ ← emit newline;
    c0 ← arr_get (children node) 0;
    match c0 with
    | None => mret tt
    | Some _ =>
        print_children
          (fun o => match o with
                    | Some c => bt_print_node c (depth + 1)
                    | None => print_empty (depth + 1)
                    end)
          (children node) (n node)
    end.

Definition bt_print (node : option (bnode E)) (depth : Z) : M string unit :=
    match node with
    | None => print_empty depth
    | Some b => bt_print_node b depth
    end.

  (** ** What the dump shows *)

  (** The [printf] calls that write the line of a node at depth [d]
      with keys [ks]. *)
Definition line_events (d : nat) (ks : list E) : list string :=
    replicate d "  " ++ "elems:" :: map (fun k => " " +:+ fmt_d k) ks ++ [newline].

  (** The nodes of a subtree in preorder, with their depths and keys. *)
Fixpoint preorder (d : nat) (b : bnode E) : list (nat * list E) :=
    (d, keys b) :: concat (take (S (n b)) (map (fun o => match o with
                                                        | Some c => preorder (S d) c
                                                        | None => []
                                                        end) (children b))).
End Print.

Section PrintProofs.
  Context `{ConfigOk} {E : Type} `{CmpOk E} (fmt_d : E -> string).
  Implicit Types (b c : bnode E).

Lemma indent_loop_spec k : indent_loop k ⇓ (tt, replicate k "  ").
  Proof. induction k as [|k IH]; [done|]. cbn [indent_loop]. by rewrite IH. Qed.

Lemma print_elems_spec es k :
    k <= length es -> print_elems fmt_d es k ⇓ (tt, map (fun e => " " +:+ fmt_d e) (take k es)).
  Proof.
    revert es. induction k as [|k IH]; intros [|e es] Hk; cbn in *; try done; [lia|].
    rewrite IH by lia. done.
  Qed.

Lemma print_children_spec rec (out : option (bnode E) -> list string) cs k :
    k < length cs -> Forall (fun o => rec o ⇓ (tt, out o)) (take (S k) cs) ->
    print_children rec cs k ⇓ (tt, concat (map out (take (S k) cs))).
  Proof.
    revert cs. induction k as [|k IH]; intros [|o cs] Hk Hrec; cbn in *; try lia;
      apply Forall_cons in Hrec as [Ho Hrec]; rewrite Ho; cbn; [by rewrite !app_nil_r|].
    rewrite IH by (done || lia). done.
  Qed.

Lemma print_children_ext (rec rec' : option (bnode E) -> M string unit) cs k :
    (forall o, o ∈ cs -> rec o = rec' o) -> print_children rec cs k = print_children rec' cs k.
  Proof.
    revert k. induction cs as [|o cs IH]; intros k Hrec; [done|]. cbn.
    rewrite (Hrec o) by set_solver. apply bind_ext. intros _. destruct k; [done|].
    apply IH. intros o' Ho'. apply Hrec. set_solver.
  Qed.

  (** The events of a node's line, then those of its subtrees. *)
Definition dump_events (d : nat) b : list string :=
    concat (map (fun '(d, ks) => line_events fmt_d d ks) (preorder d b)).

Lemma concat_take_none {A} (f : option (bnode E) -> list A) cs k :
    f None = [] -> Forall (fun o => o = None) cs -> concat (take k (map f cs)) = [].
  Proof.
    intros Hf Hcs. revert k. induction Hcs as [|o cs -> _ IH]; intros [|k]; cbn; try done.
    by rewrite Hf, IH.
  Qed.

Lemma preorder_eq d b :
    preorder d b = (d, keys b) :: concat (take (S (n b)) (map (fun o => match o with
                                                                        | Some c => preorder (S d) c
                                                                        | None => []
                                                                        end) (children b))).
  Proof. by destruct b. Qed.

Lemma preorder_leaf lo hi b d : shape lo hi 0 b -> preorder d b = [(d, keys b)].
  Proof.
    inversion 1 as [? ? ? _ _ Hnone|]; subst. destruct b as [k es cs]. cbn in *.
    by rewrite concat_take_none.
  Qed.
Lemma bt_print_node_eq b depth :
    bt_print_node fmt_d b depth =
      (_ ← INDENT depth;
       _ ← emit "elems:";
       _ ← print_elems fmt_d (elems b) (n b);
       _ ← emit newline;
       s0 ← arr_get (children b) 0;
       match s0 with
       | None => mret tt
       | Some _ =>
           print_children
             (fun o => match o with
                       | Some c => bt_print_node fmt_d c (depth + 1)
                       | None => print_empty (depth + 1)
                       end)
             (children b) (n b)
       end).
  Proof. by destruct b. Qed.

  (** The line of a node, then what its first child slot decides. *)
Lemma print_node_line b d (k : M string unit) s0 wk w :
    sized b -> children b !! 0 = Some s0 ->
    match s0 with None => mret tt | Some _ => k end ⇓ (tt, wk) -> w = line_events fmt_d d (keys b) ++ wk ->
    (_ ← INDENT (Z.of_nat d);
     _ ← emit "elems:";
     _ ← print_elems fmt_d (elems b) (n b);
     _ ← emit newline;
     s0 ← arr_get (children b) 0;
     match s0 with None => mret tt | Some _ => k end) ⇓ (tt, w).
  Proof.
    intros (Hes & _ & Hn) Hs0 Hk ->. unfold INDENT. rewrite Nat2Z.id, indent_loop_spec.
    rewrite print_elems_spec by (unfold ELEMS_CAP in *; lia). rewrite (arr_get_ok _ _ _ Hs0).
    cbn [mbind M_bind emit]. rewrite Hk. unfold line_events, keys.
    rewrite <-!app_assoc. cbn [app]. by rewrite <-!app_assoc.
  Qed.
Lemma concat_map_concat {A B} (F : A -> list B) (pre : option (bnode E) -> list A) L :
    concat (map (fun o => concat (map F (pre o))) L) = concat (map F (concat (map pre L))).
  Proof. induction L as [|o L IH]; cbn; [done|]. by rewrite map_app, concat_app, IH. Qed.

  (** The dump of a well-formed subtree at depth [d]. *)
Lemma print_node_spec h : forall lo hi b d,
    shape lo hi h b -> bt_print_node fmt_d b (Z.of_nat d) ⇓ (tt, dump_events d b).
  Proof.
    induction h as [|h IH]; intros lo hi b d Hs; rewrite bt_print_node_eq;
      pose proof (shape_sized _ _ _ _ Hs) as Hsz; pose proof Hsz as (_ & Hcs & Hn).
    - apply (print_node_line _ _ _ None []); [done| |done|].
      2: { unfold dump_events. rewrite (preorder_leaf _ _ _ d Hs). cbn. by rewrite !app_nil_r. }
      inversion Hs as [? ? ? _ _ Hnone|]; subst.
      destruct (lookup_lt_is_Some_2 (children b) 0) as [o Ho]; [unfold CHILDREN_CAP in *; lia|].
      rewrite Ho. f_equal. exact (Forall_lookup_1 _ _ _ _ Hnone Ho).
    - inversion Hs as [|? ? ? ? cs _ _ Hk Hall]; subst.
      pose proof (length_kids _ _ _ _ _ Hs Hk) as Hlen.
      destruct cs as [|c0 cs']; [cbn in Hlen; lia|].
      assert (children b !! 0 = Some (Some c0)) as Hc0.
      { rewrite <-(lookup_take_lt _ (S (n b))) by lia. by rewrite Hk. }
      set (pre := fun o : option (bnode E) => match o with Some c => preorder (S d) c | None => [] end).
      apply (print_node_line _ _ _ (Some c0)
               (concat (map (fun '((d, ks) : nat * list E) => line_events fmt_d d ks)
                            (concat (take (S (n b)) (map pre (children b))))))); [done|done| |].
      2: { unfold dump_events. by rewrite preorder_eq. }
      rewrite firstn_map, <-concat_map_concat.
      apply (print_children_spec _ (fun o => concat (map (fun '((d, ks) : nat * list E) =>
                                                            line_events fmt_d d ks) (pre o))));
        [unfold CHILDREN_CAP, ELEMS_CAP in *; lia|].
      rewrite Hk. apply Forall_fmap. eapply Forall_impl; [exact Hall|]. intros c Hc. cbn.
      replace (Z.of_nat d + 1)%Z with (Z.of_nat (S d)) by lia. exact (IH _ _ c (S d) Hc).
  Qed.

  (** C28: The debug dump of a well-formed tree does not fault; for an
      empty tree it writes [<empty>]; otherwise its [printf] calls write,
      for each node in preorder, one line: two spaces per level of depth,
      [elems:], then [" %d"] for each of the node's keys, and a newline.
      [<empty>] never appears inside a non-empty tree. *)
Theorem bt_print_spec t :
    bt_wf t ->
    bt_print fmt_d (root t) 0 ⇓ (tt, match root t with
                                   | None => ["<empty>" +:+ newline]
                                   | Some r => concat (map (fun '(d, ks) => line_events fmt_d d ks) (preorder 0 r))
                                   end).
  Proof.
    intros [h Hwf]. unfold bt_wf_h in Hwf. destruct (root t) as [r|]; [|done].
    destruct Hwf as [Hs _]. exact (print_node_spec h _ _ r 0 Hs).
  Qed.
End PrintProofs.
