(* ===== verification/IntBtree.v ===== *)
(** * The generated [int] B-tree

    [src/unnamed/part_000] is the text [mk_bt.h] expands to with its
    defaults: [BT_ELEM = int], [BT_FACTOR = 2], [BT_CMP = bt_default_cmp]
    on C's operators, [BT_ITER_STACK_SIZE = 32] and an empty
    [BT_ELEM_FREE]; [src/btree.h] is the matching header. This file
    models that text as written, one definition per generated function,
    under the names the expansion would get with
    [#define BT_MKID(name) int_##name]: the constants are numerals,
    [BT_CMP] is [bt_default_cmp], and where [BT_ELEM_FREE] expanded to
    nothing ([bt_node_free] line 56, [bt_node_insert] line 130) the code
    neither reads the element nor emits an event.

    The equivalence theorems show that each generated function is the
    generic model of [mk_bt.h] at the default configuration, with the
    log of [BT_ELEM_FREE] events erased ([unlogged]); the refinement
    theorems of the generic model then hold of the generated code. *)

From stdpp Require Import strings pretty.
From S2P Require Import Prelude Order Spec Node Shape Lookup Split Insert Iter Free Print.

(** ** The generated functions *)

(** [struct bnode] of [btree.h]: [int elems[2 * 2 + 1]],
    [struct bnode *children[2 * 2 + 2]]; a node fresh from
    [calloc(1, sizeof(struct bnode))] is zero-filled. *)
Definition int_bnode_calloc : bnode Z :=
  mk_bnode 0 (replicate (2 * 2 + 1) 0%Z) (replicate (2 * 2 + 2) None).

(** Lines 46-49. *)
Definition int_bt_mk : bt Z := mk_bt None 0.

(** Lines 68-86: one iteration of the [do ... while] loop and its exit. *)
Fixpoint int_bsearch_loop (node : bnode Z) (elem : Z) (fuel : nat) (left right : nat) : M Z Z :=
  match fuel with
  | 0 => raise OutOfFuel
  | S fuel' =>
      let mid := left + (right - left) / 2 in
      x ← arr_get (elems node) mid;
      let cmp := bt_default_cmp elem x in
      let left' := if decide (cmp > 0)%Z then mid + 1 else left in
      let right' := if decide (cmp > 0)%Z then right
                    else if decide (cmp < 0)%Z then mid else right in
      if decide (cmp = 0)%Z then mret (Z.of_nat mid)
      else if decide (left' < right') then int_bsearch_loop node elem fuel' left' right'
      else if decide (left' = right') then mret (- Z.of_nat left' - 1)%Z
      else raise AssertFailure
  end.

Definition int_bt_node_bsearch (node : bnode Z) (elem : Z) : M Z Z :=
  int_bsearch_loop node elem (S (n node)) 0 (n node).

(** Lines 88-101: the [while (curr)] loop from [curr] on. *)
Fixpoint int_lookup_loop (curr : bnode Z) (elem : Z) : M Z (option (bnode Z * nat) * bnode Z) :=
  idx ← int_bt_node_bsearch curr elem;
  if decide (0 <= idx)%Z then mret (Some (curr, Z.to_nat idx), curr)
  else with_child (fun c => int_lookup_loop c elem) (mret (None, curr))
         (children curr) (Z.to_nat (- idx - 1)).

Definition int_bt_lookup_node (t : bt Z) (elem : Z)
    : M Z (option (bnode Z * nat) * option (bnode Z)) :=
  match root t with
  | None => mret (None, None)
  | Some r => '(res, last) ← int_lookup_loop r elem; mret (res, Some last)
  end.

(** Lines 103-106. *)
Definition int_bt_lookup (t : bt Z) (elem : Z) : M Z (option (bnode Z * nat)) :=
  '(res, _) ← int_bt_lookup_node t elem; mret res.

(** Lines 107-122. *)
Definition int_bt_split_node (parent : bnode Z) (idx : nat) : M Z (bnode Z * Z) :=
  slot ← arr_get (children parent) idx;
  child ← deref_node slot;
  cs ← arr_shift_right (children parent) (S idx) (size_t_sub (n parent) idx);
  let sib := int_bnode_calloc in
  ses ← arr_copy (elems sib) (elems child) (2 + 1) 2;
  c0 ← arr_get (children child) 0;
  scs ← (match c0 with
         | Some _ => arr_copy (children sib) (children child) (2 + 1) (2 + 1)
         | None => mret (children sib)
         end);
  let sib := mk_bnode 2 ses scs in
  let child := set_n 2 child in
  cs ← arr_set cs (S idx) (Some sib);
  median ← arr_get (elems child) 2;
  mret (set_children (<[idx := Some child]> cs) parent, median).

(** Lines 145-149. *)
Definition int_node_insert_at (node : bnode Z) (idx : nat) (elem : Z) : M Z (bnode Z) :=
  es ← arr_shift_right (elems node) idx (size_t_sub (n node) idx);
  es ← arr_set es idx elem;
  mret (mk_bnode (u32_incr (n node)) es (children node)).

(** Lines 123-152. With [BT_ELEM_FREE] empty, [else ;] leaves the old
    element alone, and it is read only to be written to [*prev]. *)
Fixpoint int_bt_node_insert (node : bnode Z) (elem : Z) (prev : bool)
    : M Z (bnode Z * bool * option Z) :=
  idx ← int_bt_node_bsearch node elem;
  if decide (0 <= idx)%Z then
    let i := Z.to_nat idx in
    pv ← (if prev then old ← arr_get (elems node) i; mret (Some old) else mret None);
    es ← arr_set (elems node) i elem;
    mret (set_elems es node, true, pv)
  else
    let i := Z.to_nat (- idx - 1) in
    with_child
      (fun child =>
         '(child, replaced, pv) ← int_bt_node_insert child elem prev;
         let node := set_children (<[i := Some child]> (children node)) node in
         if decide (n child <= 2 * 2) then mret (node, replaced, pv)
         else
           '(node, median) ← int_bt_split_node node i;
           node ← int_node_insert_at node i median;
           mret (node, false, pv))
      (node ← int_node_insert_at node i elem; mret (node, false, None))
      (children node) i.

(** Lines 159-163. *)
Definition int_grow_root (old : option (bnode Z)) (elem : Z) : M Z (bnode Z) :=
  let new_root := set_n 1 int_bnode_calloc in
  cs ← arr_set (children new_root) 0 old;
  let new_root := set_children cs new_root in
  '(new_root, e0) ← (match old with
                     | Some _ => int_bt_split_node new_root 0
                     | None => mret (new_root, elem)
                     end);
  es ← arr_set (elems new_root) 0 e0;
  mret (set_elems es new_root).

(** Lines 154-166. *)
Definition int_bt_insert (t : bt Z) (elem : Z) (prev : bool) : M Z (bt Z * bool * option Z) :=
  '(r, replaced, pv) ← (match root t with
                        | Some r => '(r, rep, pv) ← int_bt_node_insert r elem prev;
                                    mret (Some r, rep, pv)
                        | None => mret (None, false, None)
                        end);
  if (match r with None => true | Some r => bool_decide (2 * 2 < n r) end) then
    new_root ← int_grow_root r elem;
    mret (mk_bt (Some new_root) (size t), replaced, pv)
  else mret (mk_bt r (size t), replaced, pv).

(** Lines 51-61 from slot [i] on, with [k = n - i] steps left: the loop
    body is [;] (the empty [BT_ELEM_FREE]) and the call on
    [children[i]]. *)
Fixpoint int_free_walk (rec : bnode Z -> M Z unit) (cs : list (option (bnode Z))) (k : nat)
    {struct cs} : M Z unit :=
  match k, cs with
  | 0, _ => with_child rec (mret tt) cs 0
  | S k, c :: cs => _ ← (match c with Some c => rec c | None => mret tt end); int_free_walk rec cs k
  | S _, [] => raise OutOfBounds
  end.

Fixpoint int_bt_node_free (node : bnode Z) : M Z unit :=
  int_free_walk int_bt_node_free (children node) (n node).

(** Lines 63-66, with the [if (!node) return;] of line 53. *)
Definition int_bt_free (t : bt Z) : M Z unit :=
  match root t with Some r => int_bt_node_free r | None => mret tt end.

(** Lines 199-210: [.top = 1], frame 0 on the root, the other 31 frames
    of [stack[32]] zero-filled. *)
Definition int_bt_iter_dfs_mk (t : bt Z) : bt_iter_dfs (E:=Z) :=
  mk_iter 1 (<[0 := mk_frame 0 (root t)]> (replicate 32 frame0)).

(** Lines 212-247: the loop of [bt_iter_dfs_next]. *)
Fixpoint int_iter_loop (fuel : nat) (it : bt_iter_dfs (E:=Z)) (visited : bool)
    : M Z (bt_iter_dfs * option (bnode Z * nat)) :=
  match fuel with
  | 0 => raise OutOfFuel
  | S fuel =>
      fp ← arr_get (stack it) (top it - 1);
      match fnode fp with
      | None => mret (it, None)
      | Some nd =>
          if decide (n nd < fi fp) then
            if decide (top it = 1) then mret (it, None)
            else int_iter_loop fuel (mk_iter (top it - 1) (stack it)) true
          else
            c ← arr_get (children nd) (fi fp);
            match c, visited with
            | Some ch, false =>
                st ← arr_set (stack it) (top it) (mk_frame 0 (Some ch));
                int_iter_loop fuel (mk_iter (S (top it)) st) false
            | _, _ =>
                st ← arr_set (stack it) (top it - 1) (mk_frame (S (fi fp)) (Some nd));
                if decide (fi fp < n nd) then mret (mk_iter (top it) st, Some (nd, fi fp))
                else int_iter_loop fuel (mk_iter (top it) st) visited
            end
      end
  end.

Definition int_bt_iter_dfs_next (it : bt_iter_dfs (E:=Z)) : M Z (bt_iter_dfs * option (bnode Z * nat)) :=
  int_iter_loop (4 * 32 + 5) it false.

(** Lines 168-187: the dump, [INDENT] expanded to its loop and [%d]
    writing the decimal notation of the [int]. *)
Fixpoint int_bt_print_node (node : bnode Z) (depth : Z) {struct node} : M string unit :=
  _ ← INDENT depth;
  _ ← emit "elems:";
  _ ← print_elems pretty (elems node) (n node);
  _ ← emit newline;
  c0 ← arr_get (children node) 0;
  match c0 with
  | None => mret tt
  | Some _ =>
      print_children
        (fun o => match o with
                  | Some c => int_bt_print_node c (depth + 1)
                  | None => print_empty (depth + 1)
                  end)
        (children node) (n node)
  end.

Definition int_bt_print (node : option (bnode Z)) (depth : Z) : M string unit :=
  match node with
  | None => print_empty depth
  | Some b => int_bt_print_node b depth
  end.

(** ** The generic operations that emit nothing *)

Section NoLog.
  Context `{Config} {E : Type} `{Elem E}.

Ltac solve_nolog :=
    repeat first
      [ progress cbv zeta
      | apply nolog_bind
      | progress intros
      | match goal with
        | |- nolog (match ?x with _ => _ end) => destruct x
        | |- nolog (if ?x then _ else _) => destruct x
        end
      | solve [auto with nolog] ].

Lemma nolog_bsearch_loop node x fuel l r : nolog (bsearch_loop node x fuel l r).
  Proof.
    revert l r. induction fuel as [|fuel IH]; intros l r; cbn [bsearch_loop]; [auto with nolog|].
    solve_nolog.
  Qed.

Lemma nolog_deref_node o : nolog (deref_node (E:=E) o).
  Proof. destruct o; cbn; auto with nolog. Qed.

Lemma nolog_bt_split_node p i : nolog (bt_split_node (E:=E) p i).
  Proof. unfold bt_split_node. solve_nolog; auto using nolog_deref_node. Qed.

Lemma nolog_node_insert_at b i x : nolog (node_insert_at (E:=E) b i x).
  Proof. unfold node_insert_at. solve_nolog. Qed.

Lemma nolog_grow_root o x : nolog (grow_root (E:=E) o x).
  Proof. unfold grow_root. solve_nolog; auto using nolog_bt_split_node, nolog_deref_node. Qed.
End NoLog.

(** ** The generated functions are the generic ones at the default
    configuration *)

Section Equivalence.
  #[local] Existing Instance default_config.
  #[local] Existing Instance default_config_ok.
  Implicit Types (b c : bnode Z) (t : bt Z) (x : Z).

Lemma int_bsearch_loop_eq b x fuel l r : int_bsearch_loop b x fuel l r = bsearch_loop b x fuel l r.
  Proof.
    revert l r. induction fuel as [|fuel IH]; intros l r; [done|].
    cbn [int_bsearch_loop bsearch_loop]. cbv zeta. apply bind_ext. intros k.
    repeat case_decide; by rewrite ?IH.
  Qed.

Lemma int_bt_node_bsearch_eq b x : int_bt_node_bsearch b x = bt_node_bsearch b x.
  Proof. apply int_bsearch_loop_eq. Qed.

Lemma int_lookup_loop_eq b x : int_lookup_loop b x = lookup_loop b x.
  Proof.
    induction b as [b IH] using bnode_ind'.
    rewrite lookup_loop_eq. destruct b as [k es cs]. cbn [int_lookup_loop].
    rewrite int_bt_node_bsearch_eq. apply bind_ext. intros idx. case_decide; [done|].
    rewrite !with_child_spec. cbn [children]. destruct (cs !! Z.to_nat (- idx - 1)) as [[c|]|] eqn:Hc; [|done|done].
    apply IH. cbn. by apply list_elem_of_lookup_2 in Hc.
  Qed.

Lemma int_bt_lookup_node_eq t x : int_bt_lookup_node t x = bt_lookup_node t x.
  Proof.
    unfold int_bt_lookup_node, bt_lookup_node. destruct (root t); [|done].
    by rewrite int_lookup_loop_eq.
  Qed.

Lemma int_bt_split_node_eq p i : int_bt_split_node p i = bt_split_node p i.
  Proof. reflexivity. Qed.

Lemma int_node_insert_at_eq b i x : int_node_insert_at b i x = node_insert_at b i x.
  Proof. reflexivity. Qed.

Lemma int_grow_root_eq o x : int_grow_root o x = grow_root o x.
  Proof. reflexivity. Qed.
  (** The one difference: the generated code never calls the empty
      [BT_ELEM_FREE], the generic model logs the call. *)
Lemma int_bt_node_insert_eq b x prev : int_bt_node_insert b x prev = unlogged (bt_node_insert b x prev).
  Proof.
    induction b as [b IH] using bnode_ind'. destruct b as [k es cs].
    cbn [int_bt_node_insert bt_node_insert]. change (@BT_FACTOR default_config) with 2.
    rewrite unlogged_bind, (nolog_unlogged (bt_node_bsearch _ _)) by apply nolog_bsearch_loop.
    rewrite int_bt_node_bsearch_eq. apply bind_ext. intros idx. cbv zeta. case_decide.
    - unfold arr_get, arr_set. cbn [elems].
      destruct (es !! Z.to_nat idx) eqn:He; [|apply lookup_ge_None in He];
        destruct prev; cbn; try case_decide; first [lia|done].
    - rewrite !with_child_spec. cbn [children].
      destruct (cs !! Z.to_nat (- idx - 1)) as [[c|]|] eqn:Hc; [| |done].
      + rewrite unlogged_bind, IH by (cbn; by eapply list_elem_of_lookup_2).
        apply bind_ext. intros [[c' rep] pv]. cbn iota beta. case_decide; [done|].
        rewrite unlogged_bind, nolog_unlogged by apply nolog_bt_split_node.
        apply bind_ext. intros [nd m]. cbn iota beta.
        rewrite unlogged_bind, nolog_unlogged by apply nolog_node_insert_at. done.
      + rewrite unlogged_bind, nolog_unlogged by apply nolog_node_insert_at. done.
  Qed.

Lemma int_bt_insert_eq t x prev : int_bt_insert t x prev = unlogged (bt_insert t x prev).
  Proof.
    unfold int_bt_insert, bt_insert. change (@BT_FACTOR default_config) with 2.
    rewrite unlogged_bind. destruct (root t) as [r|].
    - rewrite unlogged_bind, int_bt_node_insert_eq.
      assert (forall m : M Z (bnode Z * bool * option Z),
                (m ≫= fun '(r, rep, pv) => mret (Some r, rep, pv)) =
                (m ≫= fun a => unlogged (let '(r, rep, pv) := a in mret (Some r, rep, pv))))
        as -> by (intros m; apply bind_ext; by intros [[? ?] ?]).
      apply bind_ext. intros [[[r'|] rep] pv]; cbn iota beta; [case_bool_decide|]; try done;
        rewrite unlogged_bind, nolog_unlogged by apply nolog_grow_root; done.
    - cbn. rewrite unlogged_bind, nolog_unlogged by apply nolog_grow_root. done.
  Qed.
Lemma int_iter_loop_eq fuel it v : int_iter_loop fuel it v = iter_loop fuel it v.
  Proof.
    revert it v. induction fuel as [|fuel IH]; intros it v; [done|].
    cbn [int_iter_loop iter_loop]. apply bind_ext. intros fp.
    destruct (fnode fp) as [nd|]; [|done].
    case_decide; [case_decide; [done|apply IH]|]. apply bind_ext. intros c.
    destruct c, v; apply bind_ext; intros st; try case_decide; rewrite ?IH; done.
  Qed.

Lemma int_free_walk_eq rec' rec k : forall es cs,
    k <= length es -> (forall c, Some c ∈ take (S k) cs -> rec' c = unlogged (rec c)) ->
    int_free_walk rec' cs k = unlogged (free_walk rec es cs k).
  Proof.
    induction k as [|k IH]; intros es cs Hes Hrec.
    - destruct cs as [|[c|] cs]; cbn; try done. apply Hrec. cbn. by left.
    - destruct es as [|e es]; cbn in Hes; [lia|]. destruct cs as [|o cs]; cbn [int_free_walk free_walk]; [done|].
      rewrite unlogged_bind, unlogged_emit, bind_ret, unlogged_bind.
      assert (forall c, Some c ∈ take (S k) cs -> rec' c = unlogged (rec c)) as Hrec'
        by (intros c Hc; apply Hrec; cbn; by right).
      destruct o as [c|]; rewrite ?unlogged_ret, ?bind_ret; [|apply IH; [lia|done]].
      rewrite Hrec by (cbn; by left). apply bind_ext. intros _. apply IH; [lia|done].
  Qed.

Lemma int_bt_node_free_unfold b : int_bt_node_free b = int_free_walk int_bt_node_free (children b) (n b).
  Proof. by destruct b. Qed.

  (** On a well-formed subtree the generated destructor does what the
      generic one does, without the events: the elements it would hand
      to [BT_ELEM_FREE] are all in slots below [n]. *)
Lemma int_bt_node_free_eq h : forall lo hi b,
    shape lo hi h b -> int_bt_node_free b = unlogged (bt_node_free b).
  Proof.
    induction h as [|h IH]; intros lo hi b Hs;
      rewrite int_bt_node_free_unfold, bt_node_free_eq;
      destruct (shape_sized _ _ _ _ Hs) as (Hes & _ & Hn);
      (apply int_free_walk_eq; [unfold ELEMS_CAP in *; lia|intros c Hc]).
    - inversion Hs as [? ? ? _ _ Hnone|]; subst.
      apply elem_of_take in Hc as (i & Hi & _).
      by pose proof (Forall_lookup_1 _ _ _ _ Hnone Hi).
    - inversion Hs as [|? ? ? ? cs _ _ Hk Hall]; subst. rewrite Hk in Hc.
      apply list_elem_of_fmap in Hc as (c' & [= <-] & Hc').
      exact (IH _ _ c (proj1 (Forall_forall _ _) Hall c Hc')).
  Qed.
Lemma int_bt_print_eq o depth : int_bt_print o depth = bt_print pretty o depth.
  Proof.
    destruct o as [b|]; [|done]. cbn. revert depth.
    induction b as [b IH] using bnode_ind'. intros depth. destruct b as [k es cs].
    cbn [int_bt_print_node bt_print_node]. do 4 (apply bind_ext; intros _). apply bind_ext. intros [?|]; [|done].
    apply print_children_ext. intros [c|] Hc; [|done]. by apply IH.
  Qed.
End Equivalence.

(** ** The theorems of the generated code *)

Section IntTheorems.
  #[local] Existing Instance default_config.
  #[local] Existing Instance default_config_ok.
  Implicit Types (t : bt Z) (x : Z).

  (** For [int], the element that compares equal to [x] is [x]. *)
Lemma int_spec_lookup x l : spec_lookup x l = if decide (x ∈ l) then Some x else None.
  Proof.
    induction l as [|y l IH]; cbn [spec_lookup]; [by rewrite decide_False by apply not_elem_of_nil|].
    rewrite IH. destruct (decide (BT_CMP x y = 0)%Z) as [Hc|Hc].
    - apply int_eqv in Hc as ->. by rewrite decide_True by set_solver.
    - assert (x <> y) as Hxy by (intros ->; apply Hc, cmp_refl).
      destruct (decide (x ∈ l)); [rewrite decide_True by set_solver|rewrite decide_False by set_solver];
        done.
  Qed.

  (** C22: The generated [bt_insert] (with [bt_node_insert],
      [bt_split_node] and the new root) is the generic insertion at
      [BT_FACTOR = 2] with [BT_ELEM_FREE] empty, on every tree. *)
Theorem int_bt_insert_equiv t x prev : int_bt_insert t x prev = unlogged (bt_insert t x prev).
  Proof. exact (int_bt_insert_eq t x prev). Qed.

  (** C23: The generated lookups are the generic ones, on every tree. *)
Theorem int_bt_lookup_equiv t x :
    int_bt_lookup_node t x = bt_lookup_node t x /\ int_bt_lookup t x = bt_lookup t x.
  Proof.
    split; [apply int_bt_lookup_node_eq|]. unfold int_bt_lookup, bt_lookup.
    by rewrite int_bt_lookup_node_eq.
  Qed.

  (** C24: The generated iterator, with its 32 frames, is the generic one
      at [BT_ITER_STACK_SIZE = 32], on every tree and every iterator state. *)
Theorem int_iter_equiv t it :
    int_bt_iter_dfs_mk t = bt_iter_dfs_mk t /\ int_bt_iter_dfs_next it = bt_iter_dfs_next it.
  Proof. split; [done|apply int_iter_loop_eq]. Qed.

  (** C25: The generated [bt_free] on a well-formed tree is the generic one
      without events: it does not fault and calls nothing on the elements. *)
Theorem int_bt_free_spec t : bt_wf t -> int_bt_free t = unlogged (bt_free t) /\ int_bt_free t ⇓ (tt, []).
  Proof.
    intros [h Hwf]. unfold int_bt_free, bt_free, bt_node_free_opt, bt_wf_h in *.
    destruct (root t) as [r|]; [|done]. destruct Hwf as [Hs _].
    rewrite (int_bt_node_free_eq h _ _ r Hs). split; [done|].
    destruct (node_free_spec h _ _ r Hs) as (w & Hw & _). by rewrite Hw.
  Qed.

  (** C26: The generated [bt_insert] on a well-formed [int] tree: no fault,
      no event, a well-formed result holding [spec_insert x] of the old
      contents; it reports a replacement exactly when [x] was stored, and
      then writes [x] to [*prev] when [prev] is given. *)
Theorem int_bt_insert_spec t x prev :
    bt_wf t -> exists t' rep pv, int_bt_insert t x prev ⇓ ((t', rep, pv), []) /\ bt_wf t' /\
      bt_elements t' = spec_insert x (bt_elements t) /\
      rep = bool_decide (x ∈ bt_elements t) /\ pv = (if prev && rep then Some x else None).
  Proof.
    intros Hwf. destruct (bt_insert_refines t x prev Hwf) as (t' & rep & pv & w & Hrun & Hwf' & Hel & _ & Hout).
    exists t', rep, pv. rewrite int_bt_insert_eq, Hrun. do 3 (split; [done|]).
    unfold insert_outcome in Hout. rewrite int_spec_lookup in Hout.
    case_decide; destruct Hout as (-> & -> & _); rewrite ?bool_decide_true, ?bool_decide_false by done;
      by destruct prev.
  Qed.

  (** C27: The generated [bt_lookup] on a well-formed [int] tree finds [x]
      exactly when [x] is stored, without a fault. *)
Theorem int_bt_lookup_spec t x :
    bt_wf t -> exists res, int_bt_lookup t x ⇓ (res, []) /\
      found res = if decide (x ∈ bt_elements t) then Some x else None.
  Proof.
    intros [h Hwf]. destruct (bt_lookup_refines t h x Hwf) as (res & Hrun & Hf).
    exists res. unfold int_bt_lookup. rewrite int_bt_lookup_node_eq. split; [exact Hrun|].
    by rewrite Hf, int_spec_lookup.
  Qed.
  (** C29: The generated [bt_print] (part_000 lines 168-187) on a
      well-formed [int] tree does not fault; it writes [<empty>] for an
      empty tree and otherwise, for each node in preorder, one line: two
      spaces per level, [elems:], then each key in decimal ([" %d"]),
      and a newline. *)
Theorem int_bt_print_spec t :
    bt_wf t ->
    int_bt_print (root t) 0 ⇓ (tt, match root t with
                                   | None => ["<empty>" +:+ newline]
                                   | Some r => concat (map (fun '(d, ks) => line_events pretty d ks) (preorder 0 r))
                                   end).
  Proof.
    intros [h Hwf]. rewrite int_bt_print_eq. unfold bt_wf_h in Hwf.
    destruct (root t) as [r|]; [|done]. destruct Hwf as [Hs _].
    exact (print_node_spec pretty h _ _ r 0 Hs).
  Qed.
End IntTheorems.
