(* ===== verification/Generate.v ===== *)
(** * Code generation: the preprocessor skeleton of [src/mk_bt.h]

    [mk_bt.h] is a template: the C preprocessor instantiates it with the
    macros the includer defined ([BT_ELEM], [BT_MKID], [BT_FACTOR], ...)
    and the ones it defaults, and [make] runs it with [-DBT_GENERATE]
    (and [-DBT_DECL_ONLY] for the header) to produce the files of which
    [src/unnamed/part_000] and [src/btree.h] are the [int] instance.

    This file models that layer. A macro table is a [gmap string macro];
    a macro is object-like (its replacement tokens) or function-like (a
    function from its argument token lists to its replacement). [expand]
    is the preprocessor's expansion of a token list: arguments are
    expanded before substitution and the result is rescanned, [fuel]
    bounding the nesting ([EXPAND_FUEL]; the header's macros nest three
    deep). A directive is a function [pp] from the table to the table
    and the output it emits; [block], [ifdef], [define], [undef], [text]
    and [defn] are [#ifdef], [#define], [#undef], a passed-through line
    and a function definition. [mk_bt_h] is the header, block by block in
    the order of the source; the bodies of the functions are the
    operations of the other files and are emitted as their expanded
    signatures, except the two comparators, whose bodies are tokenised. *)

From S2P Require Import Prelude Order.
From stdpp Require Import gmap strings.

Module Generate.

(** ** Tokens, macros and expansion *)

(** A preprocessing token: an identifier, number or punctuator; a string
    literal (its content); or a parenthesised call [m(a, ...)], the
    syntax of a function-like macro invocation. *)
Inductive tok : Type :=
  | T (s : string)
  | Str (s : string)
  | C (m : string) (args : list (list tok)).

Inductive macro : Type :=
  | Obj (body : list tok)
  | Fun (f : list (list tok) -> list tok).

Abbreviation menv := (gmap string macro).

(** Argument token lists separated by commas, as [__VA_ARGS__] and an
    unexpanded call write them. *)
Fixpoint join_args (args : list (list tok)) : list tok :=
  match args with
  | [] => []
  | [a] => a
  | a :: rest => a ++ T "," :: join_args rest
  end.

(** A call of a name that is not a function-like macro is left as it
    is, its arguments expanded. *)
Definition call_tokens (m : string) (args : list (list tok)) : list tok :=
  T m :: T "(" :: join_args args ++ [T ")"].

Fixpoint expand (fuel : nat) (e : menv) (ts : list tok) : list tok :=
  match fuel with
  | 0 => ts
  | S k =>
      ts ≫= fun t =>
        match t with
        | T s => match e !! s with Some (Obj b) => expand k e b | _ => [t] end
        | Str _ => [t]
        | C m args =>
            match e !! m with
            | Some (Fun f) => expand k e (f (expand k e <$> args))
            | _ => call_tokens m (expand k e <$> args)
            end
        end
  end.

Definition EXPAND_FUEL : nat := 8.

(** Source text is written as space-separated tokens. *)
Definition w (s : string) : list tok := T <$> String.words s.
Definition mkid (s : string) : list tok := [C "BT_MKID" [[T s]]].
Definition mkfn (args : list (list tok)) : list tok := [C "BT_MKFN" args].

(** ** What the preprocessor emits *)

(** A system header pulled in by [#include <h>]; a line or type
    definition passed to the compiler; a prototype (its expanded
    signature, without the [;]); a function definition, its expanded
    signature and, for the comparators, its expanded body. *)
Inductive out : Type :=
  | Sys (h : string)
  | Text (ts : list tok)
  | Proto (sig : list tok)
  | Defn (sig : list tok) (body : option (list tok)).

(** Equality of tokens is decidable (by a nested recursion through the
    argument lists of a call), so are the outputs. *)
Fixpoint tok_eq_dec (x y : tok) {struct x} : {x = y} + {x <> y}.
Proof.
  destruct x as [a|a|m a], y as [b|b|n b]; try (right; discriminate).
  1,2: destruct (decide (a = b)); [left; congruence|right; congruence].
  destruct (decide (m = n)) as [<-|]; [|right; congruence].
  assert (Ha : forall b' : list (list tok), {a = b'} + {a <> b'}).
  { clear b. revert a. fix G 1. intros [|u a] [|v b]; try (right; discriminate); [by left|].
    assert (Hu : {u = v} + {u <> v}).
    { revert u v. fix H 1. intros [|p u] [|q v]; try (right; discriminate); [by left|].
      destruct (tok_eq_dec p q), (H u v); [left; congruence|right; congruence..]. }
    destruct Hu, (G a b); [left; congruence|right; congruence..]. }
  destruct (Ha b); [left; congruence|right; congruence].
Defined.

#[export] Instance tok_eq_decision : EqDecision tok := tok_eq_dec.
#[export] Instance out_eq_decision : EqDecision out.
Proof. solve_decision. Defined.

Definition pp : Type := menv -> menv * list out.

Definition skip : pp := fun e => (e, []).

Definition seq (p q : pp) : pp := fun e =>
  let '(e1, o1) := p e in let '(e2, o2) := q e1 in (e2, o1 ++ o2).

Definition block (ps : list pp) : pp := foldr seq skip ps.

(** [#ifdef x] / [#else] / [#endif]; [#ifndef] swaps the branches. *)
Definition ifdef (x : string) (p q : pp) : pp := fun e =>
  match e !! x with Some _ => p e | None => q e end.
Definition ifndef (x : string) (p q : pp) : pp := ifdef x q p.

Definition define (x : string) (m : macro) : pp := fun e => (<[x:=m]> e, []).
Definition undef (x : string) : pp := fun e => (delete x e, []).
Definition include_sys (h : string) : pp := fun e => (e, [Sys h]).
Definition text (ts : list tok) : pp := fun e => (e, [Text (expand EXPAND_FUEL e ts)]).
Definition defn (sig : list tok) : pp := fun e => (e, [Defn (expand EXPAND_FUEL e sig) None]).
Definition defn_body (sig body : list tok) : pp := fun e =>
  (e, [Defn (expand EXPAND_FUEL e sig) (Some (expand EXPAND_FUEL e body))]).

(** ** How directives act on one macro *)

(** [keeps x p]: [p] leaves the definition of [x] as it found it. *)
Definition keeps (x : string) (p : pp) : Prop := forall e, (p e).1 !! x = e !! x.

Lemma keeps_skip x : keeps x skip.
Proof. done. Qed.

Lemma keeps_seq x p q : keeps x p -> keeps x q -> keeps x (seq p q).
Proof.
  intros Hp Hq e. unfold seq. specialize (Hp e).
  destruct (p e) as [e1 o1]. specialize (Hq e1). destruct (q e1) as [e2 o2]. cbn in *. congruence.
Qed.

Lemma keeps_block x ps : Forall (keeps x) ps -> keeps x (block ps).
Proof. induction 1; [apply keeps_skip|by apply keeps_seq]. Qed.

Lemma keeps_ifdef x y p q : keeps x p -> keeps x q -> keeps x (ifdef y p q).
Proof. intros Hp Hq e. unfold ifdef. by destruct (e !! y). Qed.

Lemma keeps_ifndef x y p q : keeps x p -> keeps x q -> keeps x (ifndef y p q).
Proof. intros. by apply keeps_ifdef. Qed.

Lemma keeps_define x y m : x <> y -> keeps x (define y m).
Proof. intros Hne e. cbn. by rewrite lookup_insert_ne. Qed.

Lemma keeps_undef x y : x <> y -> keeps x (undef y).
Proof. intros Hne e. cbn. by rewrite lookup_delete_ne. Qed.

Lemma keeps_include_sys x h : keeps x (include_sys h).
Proof. done. Qed.
Lemma keeps_text x ts : keeps x (text ts).
Proof. done. Qed.
Lemma keeps_defn x sig : keeps x (defn sig).
Proof. done. Qed.
Lemma keeps_defn_body x sig body : keeps x (defn_body sig body).
Proof. done. Qed.

Create HintDb pp discriminated.
#[export] Hint Resolve keeps_skip keeps_seq keeps_block keeps_ifdef keeps_ifndef
  keeps_include_sys keeps_text keeps_defn keeps_defn_body : pp.
#[export] Hint Resolve keeps_define keeps_undef : pp.
#[export] Hint Constructors Forall : pp.
#[export] Hint Extern 1 (_ <> _) => discriminate : pp.

(** [seq] threads the table: the table after [seq p q] is the one [q]
    leaves from the one [p] leaves. *)
Lemma seq_env p q e : (seq p q e).1 = (q (p e).1).1.
Proof. unfold seq. destruct (p e) as [e1 o1]. cbn. by destruct (q e1). Qed.

Lemma seq_out p q e : (seq p q e).2 = (p e).2 ++ (q (p e).1).2.
Proof. unfold seq. destruct (p e) as [e1 o1]. cbn. by destruct (q e1). Qed.

(** ** The header, block by block *)

(** Lines 61-82: the system headers; when generating, the lines that
    become the generated file's guard and [#include]s instead. *)
Definition includes : pp :=
  ifndef "BT_GENERATE"
    (block (include_sys <$> ["stdio.h"; "stdlib.h"; "stdbool.h"; "stdint.h"; "string.h"; "assert.h"]))
    (block [text (w "! # ifndef _BTREE_H_"); text (w "! # define _BTREE_H_");
            text (w "! # include < stdio . h >"); text (w "! # include < stdlib . h >");
            text (w "! # include < stdbool . h >"); text (w "! # include < stdint . h >");
            text (w "! # include < string . h >"); text (w "! # include < assert . h >")]).

(** [#define BT_MKID(name) name] *)
Definition mkid_default (args : list (list tok)) : list tok := default [] (head args).

(** [#define BT_MKFN(type, name, ...) type BT_MKID(name)(__VA_ARGS__)] *)
Definition mkfn_default (args : list (list tok)) : list tok :=
  match args with
  | ty :: name :: va => ty ++ [C "BT_MKID" [name]; T "("] ++ join_args va ++ [T ")"]
  | _ => []
  end.

(** Lines 84-102: the defaults of the configuration macros. *)
Definition defaults : pp :=
  block [ifndef "BT_ELEM" (define "BT_ELEM" (Obj (w "int"))) skip;
         ifndef "BT_MKID" (define "BT_MKID" (Fun mkid_default)) skip;
         ifndef "BT_FACTOR" (define "BT_FACTOR" (Obj (w "2"))) skip;
         ifndef "BT_MKFN" (define "BT_MKFN" (Fun mkfn_default)) skip;
         ifndef "BT_ELEM_FREE" (define "BT_ELEM_FREE" (Fun (fun _ => []))) skip].

(** Lines 104-108 and 110-116 (the comment of line 113 apart). *)
Definition struct_bt : list tok :=
  w "struct" ++ mkid "bt" ++ w "{ struct" ++ mkid "bnode" ++ w "* root ; size_t size ; } ;".
Definition struct_bnode : list tok :=
  w "struct" ++ mkid "bnode" ++ w "{ uint32_t n ; BT_ELEM elems [ 2 * BT_FACTOR + 1 ] ; struct"
    ++ mkid "bnode" ++ w "* children [ 2 * BT_FACTOR + 2 ] ; } ;".

Definition decl (args : list (list tok)) : pp := fun e => (e, [Proto (expand EXPAND_FUEL e (mkfn args))]).

(** Lines 104-166: the types and the prototypes. *)
Definition declarations : pp :=
  block [text struct_bt; text struct_bnode;
    decl [w "int"; w "bt_default_cmp"; w "const BT_ELEM * a"; w "const BT_ELEM * b"];
    decl [w "struct" ++ mkid "bt"; w "bt_mk"; []];
    decl [w "void"; w "bt_node_free"; w "struct" ++ mkid "bnode" ++ w "* node"];
    decl [w "void"; w "bt_free"; w "struct" ++ mkid "bt" ++ w "bt"];
    decl [w "ssize_t"; w "bt_node_bsearch"; w "const struct" ++ mkid "bnode" ++ w "* node";
          w "const BT_ELEM * elem"];
    decl [w "BT_ELEM *"; w "bt_lookup_node"; w "const struct" ++ mkid "bt" ++ w "* bt";
          w "const BT_ELEM * elem"; w "struct" ++ mkid "bnode" ++ w "* * node"];
    decl [w "BT_ELEM *"; w "bt_lookup"; w "const struct" ++ mkid "bt" ++ w "* bt";
          w "const BT_ELEM * elem"];
    decl [w "bool"; w "bt_insert"; w "struct" ++ mkid "bt" ++ w "* bt"; w "BT_ELEM elem";
          w "BT_ELEM * prev"];
    decl [w "BT_ELEM"; w "bt_split_node"; w "struct" ++ mkid "bnode" ++ w "* parent"; w "size_t idx"];
    decl [w "bool"; w "bt_node_insert"; w "struct" ++ mkid "bnode" ++ w "* node"; w "BT_ELEM elem";
          w "BT_ELEM * prev"];
    decl [w "bool"; w "bt_remove"; w "struct" ++ mkid "bt" ++ w "* bt"; w "BT_ELEM * elem";
          w "BT_ELEM * removed"];
    decl [w "void"; w "bt_print"; w "struct" ++ mkid "bnode" ++ w "* node"; w "int depth"]].

(** Lines 177-182 and 186-191: the two comparators. *)
Definition cmp_sig : list tok :=
  mkfn [w "int"; w "bt_default_cmp"; w "const BT_ELEM * a"; w "const BT_ELEM * b"].
Definition cmp_less : pp :=
  defn_body cmp_sig (w "{ if (" ++ [C "BT_LESS" [w "b"; w "a"]] ++ w ") return 1 ; if ("
                     ++ [C "BT_LESS" [w "a"; w "b"]] ++ w ") return - 1 ; return 0 ; }").
Definition cmp_ops : pp :=
  defn_body cmp_sig (w "{ if ( * a > * b ) return 1 ; if ( * a < * b ) return - 1 ; return 0 ; }").

(** Lines 172-194: [BT_CMP] defaults to the generated [bt_default_cmp],
    built from [BT_LESS] when that is defined. *)
Definition comparison : pp :=
  ifndef "BT_CMP"
    (block [define "BT_CMP" (Obj (mkid "bt_default_cmp")); ifdef "BT_LESS" cmp_less cmp_ops])
    skip.

(** The signatures of the definitions (lines 196 to 415), and the
    directives inside their bodies. *)
Definition def_bt_mk : pp := defn (mkfn [w "struct" ++ mkid "bt"; w "bt_mk"; []]).
Definition def_bt_node_free : pp :=
  defn (mkfn [w "void"; w "bt_node_free"; w "struct" ++ mkid "bnode" ++ w "* node"]).
Definition def_bt_free : pp := defn (mkfn [w "void"; w "bt_free"; w "struct" ++ mkid "bt" ++ w "bt"]).
Definition def_bt_node_bsearch : pp :=
  defn (mkfn [w "ssize_t"; w "bt_node_bsearch"; w "const struct" ++ mkid "bnode" ++ w "* node";
              w "const BT_ELEM * elem"]).
Definition def_bt_lookup_node : pp :=
  defn (mkfn [w "BT_ELEM *"; w "bt_lookup_node"; w "const struct" ++ mkid "bt" ++ w "* bt";
              w "const BT_ELEM * elem"; w "struct" ++ mkid "bnode" ++ w "* * node"]).
Definition def_bt_lookup : pp :=
  defn (mkfn [w "BT_ELEM *"; w "bt_lookup"; w "const struct" ++ mkid "bt" ++ w "* bt";
              w "const BT_ELEM * elem"]).
Definition def_bt_split_node : pp :=
  defn (mkfn [w "BT_ELEM"; w "bt_split_node"; w "struct" ++ mkid "bnode" ++ w "* parent"; w "size_t idx"]).
Definition define_sizeof_ptr : pp := define "SIZEOF_PTR" (Obj (w "sizeof ( void * )")).
Definition undef_sizeof_ptr : pp := undef "SIZEOF_PTR".
Definition def_bt_node_insert : pp :=
  defn (mkfn [w "bool"; w "bt_node_insert"; w "struct" ++ mkid "bnode" ++ w "* node"; w "BT_ELEM elem";
              w "BT_ELEM * prev"]).
Definition def_bt_insert : pp :=
  defn (mkfn [w "bool"; w "bt_insert"; w "struct" ++ mkid "bt" ++ w "* bt"; w "BT_ELEM elem";
              w "BT_ELEM * prev"]).
Definition def_bt_print : pp :=
  defn (mkfn [w "void"; w "bt_print"; w "struct" ++ mkid "bnode" ++ w "* node"; w "int depth"]).
Definition define_indent : pp :=
  define "INDENT" (Obj (w "for ( int __i = 0 ; __i < depth ; __i ++ ) printf (" ++ [Str "  "] ++ w ")")).
(** Line 380 undefines [IDENT], not [INDENT]. *)
Definition undef_ident : pp := undef "IDENT".

(** Lines 383-400: the default stack size and the iterator's types. *)
Definition iter_types : pp :=
  block [ifndef "BT_ITER_STACK_SIZE" (define "BT_ITER_STACK_SIZE" (Obj (w "32"))) skip;
         text (w "struct" ++ mkid "bt_iter_frame" ++ w "{ size_t i ; struct" ++ mkid "bnode"
               ++ w "* node ; } ;");
         text (w "struct" ++ mkid "bt_iter_dfs" ++ w "{ size_t top ; struct" ++ mkid "bt_iter_frame"
               ++ w "stack [ BT_ITER_STACK_SIZE ] ; } ;")].
Definition def_bt_iter_dfs_mk : pp :=
  defn (mkfn [w "struct" ++ mkid "bt_iter_dfs"; w "bt_iter_dfs_mk"; w "struct" ++ mkid "bt" ++ w "* btree"]).
Definition def_bt_iter_dfs_next : pp :=
  defn (mkfn [w "BT_ELEM *"; w "bt_iter_dfs_next"; w "struct" ++ mkid "bt_iter_dfs" ++ w "* iter"]).

(** Lines 172-456: the definitions, in the order of the source. *)
Definition impl_body : pp :=
  block [comparison; def_bt_mk; def_bt_node_free; def_bt_free; def_bt_node_bsearch;
         def_bt_lookup_node; def_bt_lookup; def_bt_split_node; define_sizeof_ptr; undef_sizeof_ptr;
         def_bt_node_insert; def_bt_insert; def_bt_print; define_indent; undef_ident;
         iter_types; def_bt_iter_dfs_mk; def_bt_iter_dfs_next].

(** Lines 168 and 458: the implementation, unless [BT_DECL_ONLY]. *)
Definition implementation : pp := ifndef "BT_DECL_ONLY" impl_body skip.

(** Lines 466-473. *)
Definition undefined_at_end : list string :=
  ["BT_ELEM"; "BT_MKID"; "BT_CMP"; "BT_LESS"; "BT_MKFN"; "BT_FACTOR"; "BT_DECL_ONLY"; "BT_GENERATE"].
Definition epilogue : pp := block (undef <$> undefined_at_end).

(** The guard of lines 58-59 and 460. *)
Definition guarded : pp :=
  ifndef "_BTREE_H_"
    (block [define "_BTREE_H_" (Obj []); includes; defaults; declarations; implementation]) skip.

(** The whole header: the guarded part, the generated [#endif] (lines
    462-464) and the epilogue. *)
Definition mk_bt_h : pp :=
  block [guarded; ifdef "BT_GENERATE" (text (w "! # endif")) skip; epilogue].

(** The prototypes and the definitions of an output. *)
Definition protos (os : list out) : list (list tok) :=
  omap (fun o => match o with Proto s => Some s | _ => None end) os.
Definition defns (os : list out) : list (list tok) :=
  omap (fun o => match o with Defn s _ => Some s | _ => None end) os.

(** ** Lemmas on the macro table *)

(** [defines x p]: after [p], [x] is defined. *)
Definition defines (x : string) (p : pp) : Prop := forall e, is_Some ((p e).1 !! x).

Lemma keeps_decl x args : keeps x (decl args).
Proof. done. Qed.
#[export] Hint Resolve keeps_decl : pp.

Lemma defines_seq_l x p q : defines x p -> keeps x q -> defines x (seq p q).
Proof. intros Hp Hq e. rewrite seq_env, Hq. apply Hp. Qed.

Lemma defines_seq_r x p q : defines x q -> defines x (seq p q).
Proof. intros Hq e. rewrite seq_env. apply Hq. Qed.

Lemma defines_define x m : defines x (define x m).
Proof. intros e. cbn. by rewrite lookup_insert_eq. Qed.

(** [#ifndef x / #define x ... / #endif] leaves [x] defined. *)
Lemma defines_default x m : defines x (ifndef x (define x m) skip).
Proof.
  intros e. unfold ifndef, ifdef. destruct (e !! x) eqn:Hx; [cbn; rewrite Hx; by eexists|apply defines_define].
Qed.

#[export] Hint Resolve defines_seq_l defines_seq_r defines_define defines_default : pp.

(** A branch taken: [#ifndef y] with [y] undefined runs its body. *)
Lemma ifndef_run y p q e : e !! y = None -> ifndef y p q e = p e.
Proof. intros Hy. unfold ifndef, ifdef. by rewrite Hy. Qed.

Lemma ifndef_skip y p q e : is_Some (e !! y) -> ifndef y p q e = q e.
Proof. intros [m Hy]. unfold ifndef, ifdef. by rewrite Hy. Qed.

(** A list of [#undef]s removes exactly the names it lists. *)
Lemma undefs_lookup l e x :
  (block (undef <$> l) e).1 !! x = if decide (x ∈ l) then None else e !! x.
Proof.
  revert e. induction l as [|y l IH]; intros e; [done|].
  cbn [fmap list_fmap block foldr]. rewrite seq_env, IH. cbn.
  destruct (decide (x = y)) as [->|Hne].
  - rewrite lookup_delete_eq. repeat case_decide; first [done|exfalso; set_solver].
  - rewrite lookup_delete_ne by done. repeat case_decide; first [done|exfalso; set_solver].
Qed.

(** The table after the header: the epilogue applied to what the guarded
    part and the generated [#endif] leave. *)
Lemma mk_bt_h_env e x :
  (mk_bt_h e).1 !! x = if decide (x ∈ undefined_at_end) then None else (guarded e).1 !! x.
Proof.
  unfold mk_bt_h. cbn [block foldr]. rewrite !seq_env. cbn [skip fst].
  unfold epilogue. rewrite undefs_lookup. case_decide; [done|].
  unfold ifdef. by destruct ((guarded e).1 !! "BT_GENERATE").
Qed.

Lemma undefs_out l e : (block (undef <$> l) e).2 = [].
Proof.
  revert e. induction l as [|y l IH]; intros e; [done|].
  cbn [fmap list_fmap block foldr]. rewrite seq_out, IH. done.
Qed.

(** Unfold the blocks of the header into chains of directives and let
    the [pp] hints decide what each leaves defined. *)
Ltac pp_auto :=
  unfold guarded, includes, defaults, declarations, impl_body, comparison, cmp_less, cmp_ops,
    def_bt_mk, def_bt_node_free, def_bt_free, def_bt_node_bsearch, def_bt_lookup_node, def_bt_lookup,
    def_bt_split_node, define_sizeof_ptr, undef_sizeof_ptr, def_bt_node_insert, def_bt_insert,
    def_bt_print, define_indent, undef_ident, iter_types, def_bt_iter_dfs_mk, def_bt_iter_dfs_next;
  cbn [block foldr fmap list_fmap]; eauto 40 with pp.

Lemma defaults_free : defines "BT_ELEM_FREE" defaults.
Proof. pp_auto. Qed.
Lemma impl_body_stack : defines "BT_ITER_STACK_SIZE" impl_body.
Proof. pp_auto. Qed.
Lemma impl_body_indent : defines "INDENT" impl_body.
Proof. pp_auto. Qed.
Lemma impl_keeps_free : keeps "BT_ELEM_FREE" implementation.
Proof. unfold implementation. apply keeps_ifndef; [pp_auto|apply keeps_skip]. Qed.
Lemma keeps_guard_blocks : Forall (keeps "_BTREE_H_") [includes; defaults; declarations; implementation].
Proof. unfold implementation. repeat constructor; [..|apply keeps_ifndef; [|apply keeps_skip]]; pp_auto. Qed.
Lemma keeps_decl_only_blocks :
  Forall (keeps "BT_DECL_ONLY") [includes; defaults; declarations].
Proof. repeat constructor; pp_auto. Qed.

(** The first inclusion runs the guarded block. *)
Lemma guarded_run e : e !! "_BTREE_H_" = None ->
  guarded e = block [define "_BTREE_H_" (Obj []); includes; defaults; declarations; implementation] e.
Proof. apply ifndef_run. Qed.

(** Whatever the includer defined, the header leaves its guard defined. *)
Lemma mk_bt_h_guard e : is_Some ((mk_bt_h e).1 !! "_BTREE_H_").
Proof.
  rewrite mk_bt_h_env, decide_False by (apply (bool_decide_unpack _); by vm_compute).
  destruct (e !! "_BTREE_H_") eqn:Hg.
  - unfold guarded. rewrite ifndef_skip by (rewrite Hg; by eexists). cbn. rewrite Hg. by eexists.
  - rewrite guarded_run by done.
    exact (defines_seq_l _ _ _ (defines_define _ _) (keeps_block _ _ keeps_guard_blocks) e).
Qed.

Ltac not_undefined := apply (bool_decide_unpack _); by vm_compute.

(** The table after a first inclusion, before the epilogue. *)
Lemma guarded_env e : e !! "_BTREE_H_" = None ->
  (guarded e).1 = (implementation (declarations (defaults (includes
                    (<["_BTREE_H_" := Obj []]> e)).1).1).1).1.
Proof. intros Hg. rewrite guarded_run by done. cbn [block foldr]. by rewrite !seq_env. Qed.

(** ** Theorems *)

(** C35: The epilogue (lines 466-473) undefines the eight macros it
    lists, but a first inclusion leaves [BT_ELEM_FREE] defined and,
    unless [BT_DECL_ONLY], [BT_ITER_STACK_SIZE] and [INDENT] (line 380
    undefines [IDENT]): against the comment of line 35, they leak into
    the includer and into any later instantiation. *)
Theorem mk_bt_h_macros e :
  e !! "_BTREE_H_" = None ->
  Forall (fun x => (mk_bt_h e).1 !! x = None)
    ["BT_ELEM"; "BT_MKID"; "BT_CMP"; "BT_LESS"; "BT_MKFN"; "BT_FACTOR"; "BT_DECL_ONLY"; "BT_GENERATE"] /\
  is_Some ((mk_bt_h e).1 !! "BT_ELEM_FREE") /\
  (e !! "BT_DECL_ONLY" = None ->
   is_Some ((mk_bt_h e).1 !! "BT_ITER_STACK_SIZE") /\ is_Some ((mk_bt_h e).1 !! "INDENT")).
Proof.
  intros Hg. split; [|split].
  - apply Forall_forall. intros x Hx. rewrite mk_bt_h_env, decide_True; [done|exact Hx].
  - rewrite mk_bt_h_env, decide_False, guarded_env by (done || not_undefined).
    rewrite impl_keeps_free. assert (keeps "BT_ELEM_FREE" declarations) as -> by pp_auto.
    apply defaults_free.
  - intros Hd. pose proof keeps_decl_only_blocks as Hk. repeat setoid_rewrite Forall_cons in Hk.
    destruct Hk as (Hk2 & Hk3 & Hk4 & _).
    rewrite !mk_bt_h_env, !decide_False, !guarded_env by (done || not_undefined).
    unfold implementation. rewrite ifndef_run by (rewrite Hk4, Hk3, Hk2, lookup_insert_ne; done).
    split; [apply impl_body_stack|apply impl_body_indent].
Qed.

(** C36: Once the header has been included, including it again, whatever
    macros the includer defines in between, declares and defines
    nothing: the guard of lines 58-59 is never undefined, so one
    translation unit cannot instantiate two trees by including the
    header twice, as the comment of lines 6-9 suggests. *)
Theorem mk_bt_h_reinclude e u :
  protos (mk_bt_h (u ∪ (mk_bt_h e).1)).2 = [] /\ defns (mk_bt_h (u ∪ (mk_bt_h e).1)).2 = [].
Proof.
  assert (is_Some ((u ∪ (mk_bt_h e).1) !! "_BTREE_H_")) as Hg
    by (apply lookup_union_is_Some; right; apply mk_bt_h_guard).
  unfold mk_bt_h. cbn [block foldr]. rewrite !seq_out. unfold guarded.
  rewrite ifndef_skip by done. unfold epilogue. rewrite undefs_out. cbn [skip snd app].
  unfold ifdef. by destruct (_ !! "BT_GENERATE").
Qed.

End Generate.
