(* ===== verification/Make.v ===== *)
(** * The Makefile: from the preprocessor's output to the generated files

    The two Makefiles at the end of [src/mk_bt.h] (lines 535-552, which
    write [btree.h] and [btree.c], and lines 553-570, which write [bt.h]
    and [bt.c]) run the preprocessor on [mk_bt.h] with the user's
    [DEFINES] and [-DBT_GENERATE] (and [-DBT_DECL_ONLY] for the header),
    then three [sed] stages and a formatter. This file models each stage
    on the lines of the preprocessor's output ([out], from [Generate.v];
    an empty line is [blank]): [sed_hash] blanks the lines starting with
    [#] (the preprocessor's line markers), [sed_bang] strips the [!] that
    protected a line from the preprocessor, [sed_squeeze] is
    [/^$/{N;/^\n$/d;}], and the default [FORMATTER] is [cat]. A rule is
    its target and whether it passes [-DBT_DECL_ONLY]; [make] runs the
    rule of a target and fails when there is none. The files generated
    for [int] that the repository holds ([src/btree.h] and
    [src/unnamed/part_000]) are written as token lines, and [generated_int_instance] compares
    them with what [make] produces. *)

From S2P Require Import Prelude Order Generate.
From stdpp Require Import gmap strings.

Module Make.
Import Generate.

(** ** The stages of a rule *)

Definition blank : out := Text [].

(** [@$(CC) $(DEFINES) -DBT_GENERATE -DBT_DECL_ONLY -E $^]: later [-D]
    options override earlier ones. *)
Definition make_env (defines : menv) (decl_only : bool) : menv :=
  (if decl_only then <["BT_DECL_ONLY" := Obj (w "1")]> else id) (<["BT_GENERATE" := Obj (w "1")]> defines).

(** A line that starts with [#]: a line marker of the preprocessor. *)
Definition hash_line (o : out) : bool :=
  match o with Text (T s :: _) => bool_decide (s = "#") | _ => false end.

(** [sed 's/^#.*$$//g'] *)
Definition sed_hash (o : out) : out := if hash_line o then blank else o.

(** [sed 's/^!\(.*\)$$/\1/g'] *)
Definition sed_bang (o : out) : out :=
  match o with
  | Text (T s :: ts) => if decide (s = "!") then Text ts else o
  | _ => o
  end.

(** [sed '/^$$/{N;/^\n$$/d;}']: on an empty line, append the next one;
    if that is empty too, delete both; at the end of the input, [N]
    prints what it holds (GNU sed). *)
Fixpoint sed_squeeze (os : list out) : list out :=
  match os with
  | Text [] :: Text [] :: rest => sed_squeeze rest
  | Text [] :: o :: rest => blank :: o :: sed_squeeze rest
  | o :: rest => o :: sed_squeeze rest
  | [] => []
  end.

(** [FORMATTER := cat] *)
Definition formatter (os : list out) : list out := os.

(** The pipe of a rule, after the preprocessor. *)
Definition pipeline (os : list out) : list out :=
  formatter (sed_squeeze (sed_bang <$> (sed_hash <$> os))).

(** The recipe of a rule, [> $@] being its result. *)
Definition recipe (defines : menv) (decl_only : bool) : list out :=
  pipeline (mk_bt_h (make_env defines decl_only)).2.

Record rule : Type := { target : string; decl_only : bool }.
Record makefile : Type := { all : list string; rules : list rule }.

(** Lines 535-552. *)
Definition makefile_btree : makefile :=
  {| all := ["btree.c"; "btree.h"];
     rules := [{| target := "btree.h"; decl_only := true |}; {| target := "btree.c"; decl_only := false |}] |}.

(** Lines 553-570. *)
Definition makefile_bt : makefile :=
  {| all := ["bt.c"; "bt.h"];
     rules := [{| target := "bt.h"; decl_only := true |}; {| target := "bt.c"; decl_only := false |}] |}.

(** [make t]: the rule of [t], or an error ([None]) when there is none. *)
Definition make (mf : makefile) (defines : menv) (t : string) : option (list out) :=
  (fun r => recipe defines (decl_only r)) <$> head (filter (fun r => target r = t) (rules mf)).

(** [make all]: every prerequisite of [all], in order. *)
Definition make_all (mf : makefile) (defines : menv) : option (list (string * list out)) :=
  mapM (fun t => pair t <$> make mf defines t) (all mf).

(** ** The files of the repository *)

(** [src/btree.h], the header generated for [int] (lines 2-37; its
    includes are sorted, as a formatter leaves them). *)
Definition btree_h : list out :=
  [Text (w "# include < assert . h >"); Text (w "# include < stdbool . h >");
   Text (w "# include < stdint . h >"); Text (w "# include < stdio . h >");
   Text (w "# include < stdlib . h >"); Text (w "# include < string . h >");
   Text (w "struct bt { struct bnode * root ; size_t size ; } ;");
   Text (w "struct bnode { uint32_t n ; int elems [ 2 * 2 + 1 ] ; struct bnode * children [ 2 * 2 + 2 ] ; } ;");
   Proto (w "int bt_default_cmp ( const int * a , const int * b )");
   Proto (w "struct bt bt_mk ( )");
   Proto (w "void bt_node_free ( struct bnode * node )");
   Proto (w "void bt_free ( struct bt bt )");
   Proto (w "ssize_t bt_node_bsearch ( const struct bnode * node , const int * elem )");
   Proto (w "int * bt_lookup_node ( const struct bt * bt , const int * elem , struct bnode * * node )");
   Proto (w "int * bt_lookup ( const struct bt * bt , const int * elem )");
   Proto (w "bool bt_insert ( struct bt * bt , int elem , int * prev )");
   Proto (w "int bt_split_node ( struct bnode * parent , size_t idx )");
   Proto (w "bool bt_node_insert ( struct bnode * node , int elem , int * prev )");
   Proto (w "bool bt_remove ( struct bt * bt , int * elem , int * removed )");
   Proto (w "void bt_print ( struct bnode * node , int depth )")].

(** [src/unnamed/part_000], the source generated for [int]: lines 1-45
    (includes, types, prototypes and the comparator) ... *)
Definition part_000_prologue : list out :=
  [Text (w "# include < stdio . h >"); Text (w "# include < stdlib . h >");
   Text (w "# include < stdbool . h >"); Text (w "# include < stdint . h >");
   Text (w "# include < string . h >"); Text (w "# include < assert . h >")]
  ++ drop 6 btree_h ++
  [Defn (w "int bt_default_cmp ( const int * a , const int * b )")
        (Some (w "{ if ( * a > * b ) return 1 ; if ( * a < * b ) return - 1 ; return 0 ; }"))].

(** ... and lines 189-197 (the iterator's types). *)
Definition part_000_iter_types : list out :=
  [Text (w "struct bt_iter_frame { size_t i ; struct bnode * node ; } ;");
   Text (w "struct bt_iter_dfs { size_t top ; struct bt_iter_frame stack [ 32 ] ; } ;")].


(** ** The stages' lemmas *)

Lemma squeeze_cons o l : o <> blank -> sed_squeeze (o :: l) = o :: sed_squeeze l.
Proof. intros Ho. destruct o as [|[|t ts]| |]; try done. Qed.

Lemma squeeze_blank_cons o l : o <> blank -> sed_squeeze (blank :: o :: l) = blank :: o :: sed_squeeze l.
Proof. intros Ho. destruct o as [|[|t ts]| |]; try done. Qed.

Lemma filter_blank l : filter (fun o => o <> blank) (blank :: l) = filter (fun o => o <> blank) l.
Proof. rewrite filter_cons_False; [done|]. by intros []. Qed.

Lemma filter_nonblank o l :
  o <> blank -> filter (fun q => q <> blank) (o :: l) = o :: filter (fun q => q <> blank) l.
Proof. intros Ho. by rewrite filter_cons_True. Qed.

(** The squeeze deletes blank lines only. *)
Lemma squeeze_filter l : filter (fun o => o <> blank) (sed_squeeze l) = filter (fun o => o <> blank) l.
Proof.
  induction l as [l IH] using (induction_ltof1 _ length). unfold ltof in IH.
  destruct l as [|o l]; [done|].
  destruct (decide (o = blank)) as [->|Ho].
  - destruct l as [|o' l]; [done|].
    destruct (decide (o' = blank)) as [->|Ho'].
    + cbn [sed_squeeze blank]. rewrite IH by (cbn; lia). by rewrite !filter_blank.
    + rewrite squeeze_blank_cons, !filter_blank, !filter_nonblank by done.
      f_equal. apply IH. cbn; lia.
  - rewrite squeeze_cons, !filter_nonblank by done. f_equal. apply IH. cbn; lia.
Qed.

(** A run of [n] blank lines before a line leaves [n mod 2] of them. *)
Lemma squeeze_run n o l :
  o <> blank -> sed_squeeze (replicate n blank ++ o :: l) = replicate (n mod 2) blank ++ o :: sed_squeeze l.
Proof.
  intros Ho. induction n as [n IH] using (induction_ltof1 _ id). unfold ltof in IH.
  destruct n as [|[|n]]; cbn [replicate app].
  - by apply squeeze_cons.
  - by apply squeeze_blank_cons.
  - replace (S (S n) mod 2) with (n mod 2) by (replace (S (S n)) with (n + 1 * 2) by lia; by rewrite Nat.Div0.mod_add).
    apply IH. cbv [id]; lia.
Qed.

(** The first two stages drop the line markers and unprotect the rest. *)
Lemma hash_bang_filter (os : list out) :
  filter (fun o => o <> blank) (sed_bang <$> (sed_hash <$> os)) =
  filter (fun o => o <> blank) (sed_bang <$> filter (fun o => hash_line o = false) os).
Proof.
  induction os as [|o os IH]; [done|]. cbn [fmap list_fmap]. unfold sed_hash at 1.
  destruct (hash_line o) eqn:Hh.
  - rewrite filter_blank, (filter_cons_False (fun o => hash_line o = false)) by congruence.
    exact IH.
  - rewrite (filter_cons_True (fun o => hash_line o = false)) by done. cbn [fmap list_fmap].
    destruct (decide (sed_bang o = blank)).
    + by rewrite e, filter_blank.
    + by rewrite !filter_nonblank, IH.
Qed.

(** ** Theorems *)

(** The first two stages, line by line: a line starting with [#] is
    dropped, a line starting with [!] loses it, any other line stays. *)
Lemma bang_hash_lines (os : list out) :
  sed_bang <$> filter (fun o => hash_line o = false) os =
  omap (fun o => match o with
                 | Text (T s :: ts) => if decide (s = "#") then None
                                       else if decide (s = "!") then Some (Text ts) else Some o
                 | _ => Some o
                 end) os.
Proof.
  induction os as [|o os IH]; [done|].
  destruct o as [h|[|[s|s|m a] ts]|sig|sig body]; cbn [omap list_omap];
    try (rewrite filter_cons_True by done; by rewrite fmap_cons, IH).
  destruct (decide (s = "#")) as [->|Hs].
  - rewrite filter_cons_False by (cbn [hash_line]; by rewrite bool_decide_true). exact IH.
  - rewrite filter_cons_True by (cbn [hash_line]; by rewrite bool_decide_false). rewrite fmap_cons, IH.
    cbn beta iota. destruct (decide (s = "#")); [done|]. unfold sed_bang. by destruct (decide (s = "!")).
Qed.

(** C16: The [sed] stages of the Makefile rules (lines 542-545), line by
    line: whatever line markers and blank lines the preprocessor's
    output holds, the result lists, in order, every line that does not
    start with [#], with a leading [!] removed, and the stages drop or
    keep nothing else but blank lines. The squeeze
    [/^$/{N;/^\n$/d;}] removes blank lines in pairs: a run of [n] blank
    lines before a line leaves [n mod 2] of them, so two blank lines
    vanish where three leave one. *)
Theorem make_pipeline (os : list out) :
  filter (fun o => o <> blank) (pipeline os) =
    filter (fun o => o <> blank)
      (omap (fun o => match o with
                      | Text (T s :: ts) => if decide (s = "#") then None
                                            else if decide (s = "!") then Some (Text ts) else Some o
                      | _ => Some o
                      end) os) /\
  (forall n o l, o <> blank ->
     sed_squeeze (replicate n blank ++ o :: l) = replicate (n mod 2) blank ++ o :: sed_squeeze l).
Proof.
  split; [|exact squeeze_run].
  unfold pipeline, formatter. rewrite squeeze_filter, hash_bang_filter. f_equal. apply bang_hash_lines.
Qed.

Lemma make_pipeline_witness :
  filter (fun o => o <> blank)
    (pipeline [Text [T "#"; T "1"; Str "mk_bt.h"]; blank; blank; Text (w "! # endif")]) =
  filter (fun o => o <> blank) [Text (w "# endif")] /\
  sed_squeeze (replicate 2 blank ++ Text (w "# endif") :: []) = Text (w "# endif") :: [].
Proof.
  destruct (make_pipeline [Text [T "#"; T "1"; Str "mk_bt.h"]; blank; blank; Text (w "! # endif")])
    as [H1 H2].
  split; [exact H1|]. exact (H2 2 (Text (w "# endif")) [] ltac:(discriminate)).
Defined.

(** Running [make] (lines 535-552) reproduces the [int]
    instance: under [-DBT_GENERATE -DBT_DECL_ONLY] the output is the
    prototypes and types of [src/btree.h], its includes in another
    order; under [-DBT_GENERATE] it starts with the includes, types,
    prototypes and comparator of [src/unnamed/part_000] and has its
    iterator types. Both outputs open with [#ifndef] and [#define]
    lines that have lost the guard's name ([_BTREE_H_] is defined empty
    when lines 72-73 are expanded). The source defines every prototype
    but [bt_remove], and defines the two iterator functions, which no
    prototype declares (so the generated header does not expose them). *)
Theorem generated_int_instance :
  let hdr := default [] (make makefile_btree ∅ "btree.h") in
  let src := default [] (make makefile_btree ∅ "btree.c") in
  is_Some (make makefile_btree ∅ "btree.h") /\ is_Some (make makefile_btree ∅ "btree.c") /\
  (exists incs, hdr = [Text (w "# ifndef"); Text (w "# define")] ++ incs ++
                                drop 6 btree_h ++ [Text (w "# endif")] /\
                incs ≡ₚ take 6 btree_h) /\
  (exists defs defs', src = [Text (w "# ifndef"); Text (w "# define")] ++ part_000_prologue ++
                         defs ++ part_000_iter_types ++ defs' ++ [Text (w "# endif")] /\
                      Forall (fun o => exists sig, o = Defn sig None) (defs ++ defs')) /\
  list_difference (protos (src)) (defns (src)) =
    [w "bool bt_remove ( struct bt * bt , int * elem , int * removed )"] /\
  list_difference (defns (src)) (protos (src)) =
    [w "struct bt_iter_dfs bt_iter_dfs_mk ( struct bt * btree )";
     w "int * bt_iter_dfs_next ( struct bt_iter_dfs * iter )"].
Proof.
  cbv zeta. split; [apply (bool_decide_unpack _); by vm_compute|].
  split; [apply (bool_decide_unpack _); by vm_compute|].
  split; [|split; [|split]]; [|..|vm_compute; reflexivity|vm_compute; reflexivity].
  - exists (take 6 (drop 2 (default [] (make makefile_btree ∅ "btree.h")))). split; [vm_compute; reflexivity|].
    apply (bool_decide_unpack _). by vm_compute.
  - exists (take 10 (drop 23 (default [] (make makefile_btree ∅ "btree.c")))),
      (take 2 (drop 35 (default [] (make makefile_btree ∅ "btree.c")))).
    split; [vm_compute; reflexivity|]. vm_compute. repeat constructor; eexists; reflexivity.
Qed.

Lemma mk_bt_h_macros_witness :
  make_env ∅ false !! "_BTREE_H_" = None /\
  (Forall (fun x => (mk_bt_h (make_env ∅ false)).1 !! x = None)
     ["BT_ELEM"; "BT_MKID"; "BT_CMP"; "BT_LESS"; "BT_MKFN"; "BT_FACTOR"; "BT_DECL_ONLY"; "BT_GENERATE"] /\
   is_Some ((mk_bt_h (make_env ∅ false)).1 !! "BT_ELEM_FREE") /\
   (make_env ∅ false !! "BT_DECL_ONLY" = None ->
    is_Some ((mk_bt_h (make_env ∅ false)).1 !! "BT_ITER_STACK_SIZE") /\
    is_Some ((mk_bt_h (make_env ∅ false)).1 !! "INDENT"))).
Proof.
  assert (Hg : make_env ∅ false !! "_BTREE_H_" = None) by reflexivity.
  split; [exact Hg|]. exact (mk_bt_h_macros (make_env ∅ false) Hg).
Defined.

End Make.
