(* ===== verification/Scenario.v ===== *)
(** * Concrete runs

    The [int] instantiation of [src/btree.h] (the expansion of
    [mk_bt.h] with [BT_ELEM = int], [BT_FACTOR = 2] and [bt_default_cmp])
    run on the scenario of the specification (with the dump the generated
    [bt_print] writes for its tree), and small configurations that
    exhibit the behaviours the findings describe. The concrete facts
    here are decided by evaluating the model; the witnesses apply the
    theorems of the other files to these trees. *)

From stdpp Require Import strings pretty.
From S2P Require Import Prelude Order Spec Node Shape Lookup Split Insert Iter Free Height Build Print IntBtree Layout.


(** ** The scenario of the specification: [BT_FACTOR = 2], [int] *)
Module DefaultRun.
  #[local] Existing Instance default_config.
  #[local] Existing Instance default_config_ok.

Definition scenario_keys : list Z := [10; 20; 5; 6; 12; 30; 7; 17]%Z.
Definition t8 : bt Z := build scenario_keys.

  (** Inserting [10, 20, 5, 6, 12, 30, 7, 17] leaves a root
      with the single key [10] over two leaves; [bt_lookup] of [6]
      finds [6]; the iterator yields [5, 6, 7, 10, 12, 17, 20, 30]; and
      inserting [10] again with [prev] reports a replacement with
      previous value [10]. *)
Example scenario_spec :
    insert_seq bt_mk scenario_keys ⇓ (t8, []) /\
    option_map keys (root t8) = Some [10%Z] /\
    option_map (fun r => map (option_map keys) (take 2 (children r))) (root t8) =
      Some [Some [5; 6; 7]%Z; Some [12; 17; 20; 30]%Z] /\
    (bt_lookup t8 6%Z ≫= fun p => mret (found p)) ⇓ (Some 6%Z, []) /\
    iter_collect 8 (bt_iter_dfs_mk t8) ⇓ ([5; 6; 7; 10; 12; 17; 20; 30]%Z, []) /\
    (bt_insert t8 10%Z true ≫= fun '(_, rep, pv) => mret (rep, pv)) ⇓ ((true, Some 10%Z), []).
  Proof. vm_compute. repeat split. Qed.

  (** The element count of [struct bt] stays [0] after eight insertions. *)
Example scenario_size : size t8 = 0 /\ length (bt_elements t8) = 8.
  Proof. vm_compute. split; reflexivity. Qed.

  (** When [bt_lookup_node] finds the key in an internal node, the node it
      reports is that internal node, not a leaf. *)
Example lookup_node_internal :
    exists r, root t8 = Some r /\ bt_lookup_node t8 10%Z ⇓ ((Some (r, 0), Some r), []) /\
              children r !! 0 <> Some None.
  Proof.
    exists (default bnode_calloc (root t8)).
    vm_compute. split; [reflexivity|]. split; [reflexivity|discriminate].
  Qed.

  (** *** The theorems applied to the scenario tree *)

Definition r8 : bnode Z := default bnode_calloc (root t8).

Lemma t8_wf_h : bt_wf_h t8 1.
  Proof. apply bt_wfb_sound. vm_compute. reflexivity. Qed.

Lemma t8_wf : bt_wf t8.
  Proof. exists 1. exact t8_wf_h. Qed.

Lemma r8_shape : shape 1 (2 * BT_FACTOR) 1 r8 /\ sorted (inorder r8).
  Proof. split; [apply shapeb_sound|apply sortedb_sound]; vm_compute; reflexivity. Qed.

Lemma bt_insert_spec_witness :
    bt_wf t8 /\
    exists t' rep pv w, bt_insert t8 40%Z true ⇓ ((t', rep, pv), w) /\ bt_wf t' /\
      bt_elements t' = spec_insert 40%Z (bt_elements t8) /\
      length (bt_elements t') =
        (if rep then length (bt_elements t8) else S (length (bt_elements t8))) /\
      size t' = size t8 /\ insert_outcome 40%Z true (bt_elements t8) rep pv w.
  Proof. split; [exact t8_wf|]. apply (bt_insert_spec t8 40%Z true t8_wf). Defined.

Lemma bt_lookup_spec_witness :
    bt_wf t8 /\ exists res, bt_lookup t8 6%Z ⇓ (res, []) /\ found res = spec_lookup 6%Z (bt_elements t8).
  Proof. split; [exact t8_wf|]. apply (bt_lookup_spec t8 6%Z t8_wf). Defined.

Lemma bt_iter_spec_witness :
    bt_wf_h t8 1 /\ 1 < BT_ITER_STACK_SIZE /\
    iter_collect (length (bt_elements t8)) (bt_iter_dfs_mk t8) ⇓ (bt_elements t8, []).
  Proof.
    split; [exact t8_wf_h|]. split; [cbn; lia|].
    apply (bt_iter_spec t8 1 t8_wf_h). cbn. lia.
  Defined.

Lemma bsearch_lsearch_witness :
    1 <= n r8 /\ n r8 <= length (elems r8) /\ sorted (keys r8) /\
    bt_node_bsearch r8 12%Z ⇓ (lsearch (keys r8) 12%Z 0, []).
  Proof.
    assert (Hs : sorted (keys r8)) by (apply sortedb_sound; vm_compute; reflexivity).
    split; [vm_compute; lia|]. split; [vm_compute; lia|]. split; [exact Hs|].
    apply (bsearch_lsearch r8 12%Z); [vm_compute; lia|vm_compute; lia|exact Hs].
  Defined.

Lemma bt_free_spec_witness :
    bt_wf t8 /\ exists w, bt_free t8 ⇓ (tt, w) /\ w ≡ₚ bt_elements t8.
  Proof. split; [exact t8_wf|]. apply (bt_free_spec t8 t8_wf). Defined.

Definition t8_40 : bt Z :=
    match bt_insert t8 40%Z true with inr ((t, _, _), _) => t | inl _ => t8 end.

Lemma bt_insert_size_witness :
    bt_insert t8 40%Z true ⇓ ((t8_40, false, None), []) /\ size t8_40 = size t8.
  Proof.
    assert (H : bt_insert t8 40%Z true ⇓ ((t8_40, false, None), [])) by (vm_compute; reflexivity).
    split; [exact H|]. exact (bt_insert_size _ _ _ _ _ _ _ H).
  Defined.

Lemma bt_insert_lookup_witness :
    bt_wf t8 /\ exists t' rep pv w, bt_insert t8 40%Z false ⇓ ((t', rep, pv), w) /\
      exists res, bt_lookup t' 40%Z ⇓ (res, []) /\
        found res = if decide (eqv 40%Z 40%Z) then Some 40%Z else spec_lookup 40%Z (bt_elements t8).
  Proof. split; [exact t8_wf|]. apply (bt_insert_lookup t8 40%Z false 40%Z t8_wf). Defined.

Lemma bt_iter_dfs_next_spec_witness :
    1 < BT_ITER_STACK_SIZE /\ iter_wf 1 (bt_iter_dfs_mk t8) /\
    loop_post 1 (bt_iter_dfs_mk t8) false (bt_iter_dfs_next (bt_iter_dfs_mk t8)).
  Proof.
    destruct (iter_mk_wf t8 1 t8_wf_h) as [Hwf _].
    split; [cbn; lia|]. split; [exact Hwf|].
    apply (bt_iter_dfs_next_spec 1); [cbn; lia|exact Hwf].
  Defined.

Lemma bt_iter_exhausted_witness :
    0 < BT_ITER_STACK_SIZE /\ iter_wf 0 (bt_iter_dfs_mk (bt_mk (E:=Z))) /\
    rem (bt_iter_dfs_mk (bt_mk (E:=Z))) false = [] /\
    exists it', bt_iter_dfs_next (bt_iter_dfs_mk (bt_mk (E:=Z))) ⇓ ((it', None), []) /\
                iter_wf 0 it' /\ rem it' false = [].
  Proof.
    destruct (iter_mk_wf (bt_mk (E:=Z)) 0 I) as [Hwf _].
    assert (Hr : rem (bt_iter_dfs_mk (bt_mk (E:=Z))) false = []) by (vm_compute; reflexivity).
    split; [cbn; lia|]. split; [exact Hwf|]. split; [exact Hr|].
    apply (bt_iter_exhausted 0); [cbn; lia|exact Hwf|exact Hr].
  Defined.

Lemma bsearch_empty_witness :
    n (bnode_calloc (E:=Z)) = 0 /\ elems (bnode_calloc (E:=Z)) !! 0 = Some 0%Z /\
    bt_node_bsearch bnode_calloc 0%Z =
      if decide (BT_CMP 0%Z 0%Z = 0)%Z then mret 0%Z
      else if decide (BT_CMP 0%Z 0%Z < 0)%Z then mret (-1)%Z
      else raise AssertFailure.
  Proof.
    split; [reflexivity|]. split; [reflexivity|].
    apply (bsearch_empty bnode_calloc 0%Z 0%Z); reflexivity.
  Defined.

Lemma bsearch_terminates_witness : bt_node_bsearch r8 17%Z <> raise OutOfFuel.
Proof. exact (bsearch_terminates r8 17%Z). Defined.

Lemma bt_empty_boundary_witness :
  bt_lookup (bt_mk (E:=Z)) 3%Z ⇓ (None, []) /\
  exists r, bt_insert bt_mk 3%Z true ⇓ ((mk_bt (Some r) 0, false, None), []) /\
            shape 1 (2 * BT_FACTOR) 0 r /\ inorder r = [3%Z].
Proof. exact (bt_empty_boundary 3%Z 3%Z true). Defined.
Lemma bt_insert_idempotent_witness :
  bt_wf t8 /\ bt_insert t8 40%Z true ⇓ ((t8_40, false, None), []) /\
  bt_insert t8_40 40%Z false ⇓ ((t8_40, true, None), [40%Z]).
Proof.
  assert (H : bt_insert t8 40%Z true ⇓ ((t8_40, false, None), [])) by (vm_compute; reflexivity).
  split; [exact t8_wf|]. split; [exact H|].
  exact (bt_insert_idempotent t8 40%Z true false t8_40 false None [] t8_wf H).
Defined.


Lemma bt_iter_safe_witness :
  bt_wf t8 /\
  (Z.of_nat (length (bt_elements t8)) + 1 < min_elems BT_ITER_STACK_SIZE)%Z /\
  iter_collect (length (bt_elements t8)) (bt_iter_dfs_mk t8) ⇓ (bt_elements t8, []).
Proof.
  assert (Hl : (Z.of_nat (length (bt_elements t8)) + 1 < min_elems BT_ITER_STACK_SIZE)%Z)
    by (vm_compute; reflexivity).
  split; [exact t8_wf|]. split; [exact Hl|]. exact (bt_iter_safe t8 t8_wf Hl).
Defined.

Lemma build_iter_roundtrip_witness :
  (Z.of_nat (length scenario_keys) + 1 < 2 * (Z.of_nat BT_FACTOR + 1) ^ Z.of_nat BT_ITER_STACK_SIZE)%Z /\
  exists t w, insert_seq bt_mk scenario_keys ⇓ (t, w) /\
    iter_collect (length scenario_keys) (bt_iter_dfs_mk t) ⇓ (spec_build scenario_keys, []).
Proof.
  assert (Hl : (Z.of_nat (length scenario_keys) + 1 <
                2 * (Z.of_nat BT_FACTOR + 1) ^ Z.of_nat BT_ITER_STACK_SIZE)%Z)
    by (vm_compute; reflexivity).
  split; [exact Hl|]. exact (build_iter_roundtrip scenario_keys Hl).
Defined.

Lemma build_lookup_last_witness :
  exists t w, insert_seq bt_mk scenario_keys ⇓ (t, w) /\
    exists res, bt_lookup t 6%Z ⇓ (res, []) /\ found res = last (filter (eqv 6%Z) scenario_keys).
Proof. exact (build_lookup_last scenario_keys 6%Z). Defined.
Lemma int_bt_free_spec_witness :
  bt_wf t8 /\ int_bt_free t8 = unlogged (bt_free t8) /\ int_bt_free t8 ⇓ (tt, []).
Proof. split; [exact t8_wf|]. exact (int_bt_free_spec t8 t8_wf). Defined.

Lemma int_bt_insert_spec_witness :
  bt_wf t8 /\ exists t' rep pv, int_bt_insert t8 10%Z true ⇓ ((t', rep, pv), []) /\ bt_wf t' /\
    bt_elements t' = spec_insert 10%Z (bt_elements t8) /\
    rep = bool_decide (10%Z ∈ bt_elements t8) /\ pv = (if true && rep then Some 10%Z else None).
Proof. split; [exact t8_wf|]. exact (int_bt_insert_spec t8 10%Z true t8_wf). Defined.

Lemma int_bt_lookup_spec_witness :
  bt_wf t8 /\ exists res, int_bt_lookup t8 7%Z ⇓ (res, []) /\
    found res = if decide (7%Z ∈ bt_elements t8) then Some 7%Z else None.
Proof. split; [exact t8_wf|]. exact (int_bt_lookup_spec t8 7%Z t8_wf). Defined.
  (** The generated [bt_print] on the scenario tree, from depth 0,
      writes the root's line and then its two leaves one level deeper:
      [elems: 10], [  elems: 5 6 7], [  elems: 12 17 20 30]. *)
Example scenario_dump :
  exists w, int_bt_print (root t8) 0 ⇓ (tt, w) /\
    text w = "elems: 10" +:+ newline +:+ "  elems: 5 6 7" +:+ newline +:+
             "  elems: 12 17 20 30" +:+ newline.
Proof.
  exists (match int_bt_print (root t8) 0 with inr (_, w) => w | inl _ => [] end).
  vm_compute. split; reflexivity.
Qed.

Lemma bt_print_spec_witness :
  bt_wf t8 /\
  bt_print pretty (root t8) 0 ⇓ (tt, match root t8 with
                                   | None => ["<empty>" +:+ newline]
                                   | Some r => concat (map (fun '(d, ks) => line_events pretty d ks) (preorder 0 r))
                                   end).
Proof. split; [exact t8_wf|]. exact (bt_print_spec pretty t8 t8_wf). Defined.
Lemma int_bt_print_spec_witness :
  bt_wf t8 /\
  int_bt_print (root t8) 0 ⇓ (tt, match root t8 with
                                  | None => ["<empty>" +:+ newline]
                                  | Some r => concat (map (fun '(d, ks) => line_events pretty d ks) (preorder 0 r))
                                  end).
Proof. split; [exact t8_wf|]. exact (int_bt_print_spec t8 t8_wf). Defined.
Lemma build_height_bound_witness :
  exists t w h, insert_seq bt_mk scenario_keys ⇓ (t, w) /\ bt_wf_h t h /\
    (bt_elements t <> [] -> (min_elems h <= Z.of_nat (length (bt_elements t)) + 1)%Z).
Proof. exact (build_height_bound scenario_keys). Defined.
Lemma bsearch_iterations_witness :
  bsearch_loop r8 12%Z (S (Nat.log2 (n r8))) 0 (n r8) = bt_node_bsearch r8 12%Z.
Proof. exact (bsearch_iterations r8 12%Z). Defined.

Lemma bt_lookup_node_last_witness :
  bt_wf t8 /\ exists res last, bt_lookup_node t8 6%Z ⇓ ((res, last), []) /\
    found res = spec_lookup 6%Z (bt_elements t8) /\
    match root t8, last with
    | None, None => True
    | Some r, Some l => reach r l /\ (forall p, res = Some p -> p.1 = l) /\
                        (res = None -> exists lo hi, shape lo hi 0 l)
    | _, _ => False
    end.
Proof. split; [exact t8_wf|]. exact (bt_lookup_node_last t8 6%Z t8_wf). Defined.
Lemma build_no_leak_witness :
  exists t w, insert_seq bt_mk scenario_keys ⇓ (t, w) /\ bt_wf t /\
    bt_elements t = spec_build scenario_keys /\ w ++ bt_elements t ≡ₚ scenario_keys.
Proof. exact (build_no_leak scenario_keys). Defined.
End DefaultRun.

(** ** Key-value pairs ordered by [BT_LESS] on the key *)
Module KeyValueRun.
  #[local] Existing Instance default_config.

  (** [#define BT_LESS(a, b) ((a)->key < (b)->key)] on pairs [(key, value)]. *)
Definition key_less (a b : Z * Z) : bool := (a.1 <? b.1)%Z.

#[local] Instance kv_elem : Elem (Z * Z) := less_elem key_less (0, 0)%Z.

Definition kv_keys : list (Z * Z) := [(1, 10); (2, 5); (1, 20)]%Z.
Definition kv_tree : bt (Z * Z) := build kv_keys.

  (** With the comparison derived from [BT_LESS] on the key,
      inserting [(1, 10)], [(2, 5)], [(1, 20)] with [prev = NULL] replaces
      [(1, 10)] by [(1, 20)] and hands [(1, 10)] to [BT_ELEM_FREE]; a lookup
      of key 1 finds [(1, 20)], and the iterator yields [(1, 20)], [(2, 5)]. *)
Example kv_scenario :
    insert_seq bt_mk kv_keys ⇓ (kv_tree, [(1, 10)%Z]) /\
    (bt_lookup kv_tree (1, 0)%Z ≫= fun p => mret (found p)) ⇓ (Some (1, 20)%Z, []) /\
    iter_collect 3 (bt_iter_dfs_mk kv_tree) ⇓ ([(1, 20); (2, 5)]%Z, []).
  Proof. vm_compute. repeat split. Qed.

Lemma less_cmp_ok_witness :
    (forall a, key_less a a = false) /\
    (forall a b c, key_less a b = true -> key_less b c = true -> key_less a c = true) /\
    (forall a b c, key_less a b = false -> key_less b c = false -> key_less a c = false) /\
    (@CmpOk (Z * Z) (less_elem key_less (0, 0)%Z) /\
     (forall a b, (bt_default_cmp_less key_less a b < 0)%Z <-> key_less a b = true) /\
     (forall a b, bt_default_cmp_less key_less a b = 0%Z <-> key_less a b = false /\ key_less b a = false)).
  Proof.
    assert (H1 : forall a, key_less a a = false) by (intros a; apply Z.ltb_irrefl).
    assert (H2 : forall a b c, key_less a b = true -> key_less b c = true -> key_less a c = true)
      by (unfold key_less; intros a b c; rewrite !Z.ltb_lt; lia).
    assert (H3 : forall a b c, key_less a b = false -> key_less b c = false -> key_less a c = false)
      by (unfold key_less; intros a b c; rewrite !Z.ltb_ge; lia).
    split; [exact H1|]. split; [exact H2|]. split; [exact H3|].
    exact (less_cmp_ok key_less (0, 0)%Z H1 H2 H3).
  Defined.
End KeyValueRun.

(** ** A configuration with [BT_FACTOR = 1] and a one-frame iterator stack *)
Module TinyRun.
Definition tiny_config : Config := {| BT_FACTOR := 1; BT_ITER_STACK_SIZE := 1 |}.
  #[local] Existing Instance tiny_config.

#[local] Instance tiny_config_ok : ConfigOk.
  Proof. split; cbn; lia. Qed.

  (** Three keys: a root [2] over the leaves [1] and [3]. *)
Definition t3 : bt Z := build [1; 2; 3]%Z.

  (** Seven keys: a tree of height 2 whose internal nodes came out of
      splits of internal nodes. *)
Definition t7 : bt Z := build [1; 2; 3; 4; 5; 6; 7]%Z.

  (** The root of [t6] receiving [7] overflows: the node [bt_insert]
      splits under a new root. *)
Definition r6_7 : bnode Z :=
    match root (build [1; 2; 3; 4; 5; 6]%Z) with
    | Some r => match bt_node_insert r 7%Z false with inr ((r', _, _), _) => r' | _ => r end
    | None => bnode_calloc
    end.

Lemma r6_7_shape : shape 1 3 1 r6_7 /\ n r6_7 = 3.
  Proof. split; [apply shapeb_sound|]; vm_compute; reflexivity. Qed.

  (** The new root [bt_insert] would build over [r6_7]. *)
Definition p6_7 : bnode Z :=
    set_children (<[0 := Some r6_7]> (replicate CHILDREN_CAP None)) (set_n 1 bnode_calloc).

Lemma bt_split_correct_witness :
    sized p6_7 /\ n p6_7 <= 2 * BT_FACTOR /\ 0 <= n p6_7 /\
    children p6_7 !! 0 = Some (Some r6_7) /\
    shape BT_FACTOR (2 * BT_FACTOR + 1) 1 r6_7 /\ n r6_7 = 2 * BT_FACTOR + 1 /\
    exists m, bt_split_node p6_7 0 ⇓
        ((set_children (split_children p6_7 0 (set_n BT_FACTOR r6_7) (split_sibling r6_7)) p6_7, m), []) /\
      shape BT_FACTOR (2 * BT_FACTOR) 1 (set_n BT_FACTOR r6_7) /\
      shape BT_FACTOR (2 * BT_FACTOR) 1 (split_sibling r6_7) /\
      inorder r6_7 = inorder (set_n BT_FACTOR r6_7) ++ m :: inorder (split_sibling r6_7).
  Proof.
    destruct r6_7_shape as [Hs Hn].
    assert (Hsz : sized p6_7) by (split; [reflexivity|]; split; [reflexivity|]; cbn; lia).
    split; [exact Hsz|]. split; [cbn; lia|]. split; [lia|]. split; [reflexivity|].
    split; [exact Hs|]. split; [exact Hn|].
    apply (bt_split_correct p6_7 0 r6_7 1); [exact Hsz|cbn; lia|cbn; lia|reflexivity|exact Hs|exact Hn].
  Defined.

Lemma split_left_stale_witness :
    sized p6_7 /\ n p6_7 <= 2 * BT_FACTOR /\ 0 <= n p6_7 /\
    children p6_7 !! 0 = Some (Some r6_7) /\
    shape BT_FACTOR (2 * BT_FACTOR + 1) 1 r6_7 /\ n r6_7 = 2 * BT_FACTOR + 1 /\
    exists p' m lo hi g, bt_split_node p6_7 0 ⇓ ((p', m), []) /\
      children p' !! 0 = Some (Some lo) /\ children p' !! 1 = Some (Some hi) /\
      n lo = BT_FACTOR /\ children lo !! S BT_FACTOR = Some (Some g) /\ children hi !! 0 = Some (Some g).
  Proof.
    destruct r6_7_shape as [Hs Hn].
    assert (Hsz : sized p6_7) by (split; [reflexivity|]; split; [reflexivity|]; cbn; lia).
    split; [exact Hsz|]. split; [cbn; lia|]. split; [lia|]. split; [reflexivity|].
    split; [exact Hs|]. split; [exact Hn|].
    apply (split_left_stale p6_7 0 r6_7 0); [exact Hsz|cbn; lia|cbn; lia|reflexivity|exact Hs|exact Hn].
  Defined.

Lemma t3_wf : bt_wf_h t3 1.
  Proof. apply bt_wfb_sound. vm_compute. reflexivity. Qed.

Lemma bt_iter_overflow_witness :
    bt_wf_h t3 1 /\ root t3 = Some (default bnode_calloc (root t3)) /\ BT_ITER_STACK_SIZE <= 1 /\
    bt_iter_dfs_next (bt_iter_dfs_mk t3) = raise OutOfBounds.
  Proof.
    assert (Hr : root t3 = Some (default bnode_calloc (root t3))) by (vm_compute; reflexivity).
    split; [exact t3_wf|]. split; [exact Hr|]. split; [cbn; lia|].
    apply (bt_iter_overflow t3 1 _ t3_wf Hr). cbn. lia.
  Defined.
End TinyRun.
